(** * CoWorld: the skeletal animation core

    A shallow embedding of the animation pipeline of the CoWorld renderer
    (bone.cpp, animation.cpp, animation_loader.cpp, animator.cpp, with the
    bone table and the vertex bone slots of animated_model.cpp and the
    animated objects of scene.cpp) and the properties of its keyframe
    interpolation, clip loading and layered playback.

    Conventions of the embedding.
    - [float] is IEEE-754 binary32, [double] binary64, both as [spec_float]
      of the Standard Library with round-to-nearest-even operations.
    - [int] is a [Z]; where C++ leaves the behaviour undefined (a vector
      read past its end, a signed overflow, a conversion out of range) the
      embedded function returns [None].
    - GLM and Assimp are external libraries: the GLM operations are the
      fields of the class [Glm], the Assimp structures are plain records
      holding what the importer hands over.
    - An [Animation*] is an optional address; the clips live in a store
      [deref] that the embedding application owns. *)

From Stdlib Require Import ZArith Ascii String List Lia.
From Stdlib Require Import Floats.SpecFloat.
From stdpp Require Import gmap strings list fin_maps.

Open Scope Z_scope.
Set Warnings "-register-all".

(** ** Machine numbers *)

Definition INT_MAX : Z := 2147483647.
Definition INT_MIN : Z := -2147483648.
Definition UINT_MOD : Z := 4294967296.

(** Conversion of an [int] to [unsigned int], as the usual arithmetic
    conversions do before a mixed comparison. *)
Definition to_unsigned (i : Z) : Z := i mod UINT_MOD.

(** [static_cast<int>] of a floating-point value: truncation towards zero;
    undefined when the truncated value is not an [int]. *)
Definition trunc_to_int (x : spec_float) : option Z :=
  match x with
  | S754_zero _ => Some 0
  | S754_finite s m e =>
      let t := cond_Zopp s (if 0 <=? e then Zpos m * 2 ^ e
                             else Zpos m / 2 ^ (- e)) in
      if (INT_MIN <=? t) && (t <=? INT_MAX) then Some t else None
  | _ => None
  end.

Module Float32.
Definition prec : Z := 24.
Definition emax : Z := 128.
Definition float : Type := spec_float.

Definition zero : float := S754_zero false.
Definition add : float → float → float := SFadd prec emax.
Definition sub : float → float → float := SFsub prec emax.
Definition mul : float → float → float := SFmul prec emax.
Definition div : float → float → float := SFdiv prec emax.
Definition ltb : float → float → bool := SFltb.
Definition geb (x y : float) : bool := SFleb y x.

(** [static_cast<float>] of an integer. *)
Definition of_Z (z : Z) : float := binary_normalize prec emax z 0 false.

(** [static_cast<int>(float)] *)
Definition to_int (x : float) : option Z := trunc_to_int x.

(** The binary32 number nearest to the fraction [n/d]: how a decimal
    literal such as [0.8f] is read. *)
Definition of_frac (n : Z) (d : positive) : float :=
  SFdiv prec emax (of_Z n) (of_Z (Zpos d)).

(** [fmod] of the C library: the exact remainder of [x / y] with the
    quotient truncated towards zero, carrying the sign of [x]. *)
Definition fmod (x y : float) : float :=
  match x, y with
  | S754_nan, _ | _, S754_nan => S754_nan
  | S754_infinity _, _ => S754_nan
  | _, S754_zero _ => S754_nan
  | S754_zero s, _ => S754_zero s
  | S754_finite _ _ _, S754_infinity _ => x
  | S754_finite sx mx ex, S754_finite _ my ey =>
      let e := Z.min ex ey in
      let r := Z.rem (Zpos mx * 2 ^ (ex - e)) (Zpos my * 2 ^ (ey - e)) in
      binary_normalize prec emax (cond_Zopp sx r) e sx
  end.
End Float32.

Module Float64.
Definition prec : Z := 53.
Definition emax : Z := 1024.
Definition double : Type := spec_float.

Definition of_Z (z : Z) : double := binary_normalize prec emax z 0 false.

Definition is_zero (x : double) : bool :=
  match x with S754_zero _ => true | _ => false end.

(** [static_cast<float>(double)]: the value rounded again at 24 bits. *)
Definition to_float (x : double) : Float32.float :=
  match x with
  | S754_finite s m e =>
      binary_normalize Float32.prec Float32.emax (cond_Zopp s (Zpos m)) e s
  | _ => x
  end.

(** [static_cast<int>(double)] *)
Definition to_int (x : double) : option Z := trunc_to_int x.
End Float64.

Import Float32 Float64.

(** A [std::vector] read at an [int] index; [None] outside [0, size). *)
Definition at_index {A : Type} (v : list A) (i : Z) : option A :=
  if i <? 0 then None else v !! Z.to_nat i.

(** A loop whose body may be undefined. *)
Fixpoint fold_defined {A B : Type} (body : A → B → option A) (xs : list B)
    (acc : A) : option A :=
  match xs with
  | [] => Some acc
  | x :: rest => acc ← body acc x; fold_defined body rest acc
  end.

(** ** GLM, as the interface the animation code uses *)

Class Glm := {
  vec3 : Type;
  quat : Type;
  mat4 : Type;
  (** [glm::vec3(x, y, z)] *)
  vec3_ctor : float → float → float → vec3;
  (** [glm::quat(w, x, y, z)] *)
  quat_ctor : float → float → float → float → quat;
  (** a [glm::mat4] filled entry by entry, [entry col row] *)
  mat4_entries : (nat → nat → float) → mat4;
  (** [glm::mat4(1.0f)] *)
  mat4_identity : mat4;
  (** [operator*] on [glm::mat4] *)
  mat4_mul : mat4 → mat4 → mat4;
  (** [glm::translate], [glm::scale], [glm::mat4_cast], [glm::normalize],
      [glm::mix] and [glm::slerp] *)
  translate : mat4 → vec3 → mat4;
  scale : mat4 → vec3 → mat4;
  mat4_cast : quat → mat4;
  normalize : quat → quat;
  mix : vec3 → vec3 → float → vec3;
  slerp : quat → quat → float → quat;
}.

Infix "×" := mat4_mul (at level 40, left associativity).

(** ** Assimp: what the importer hands over *)

Record aiVector3D := { v_x : float; v_y : float; v_z : float }.
Record aiQuaternion :=
  { q_w : float; q_x : float; q_y : float; q_z : float }.
Record aiVectorKey := { vk_mTime : double; vk_mValue : aiVector3D }.
Record aiQuatKey := { qk_mTime : double; qk_mValue : aiQuaternion }.

(** [aiMatrix4x4]: [ai_entry r c] is the member in row [r] (a..d) and
    column [c] (1..4), both counted from 0. *)
Record aiMatrix4x4 := { ai_entry : nat → nat → float }.

Record aiNodeAnim := {
  mNodeName : string;
  mPositionKeys : list aiVectorKey;
  mRotationKeys : list aiQuatKey;
  mScalingKeys : list aiVectorKey;
}.

Definition mNumPositionKeys (c : aiNodeAnim) : Z :=
  Z.of_nat (length (mPositionKeys c)).
Definition mNumRotationKeys (c : aiNodeAnim) : Z :=
  Z.of_nat (length (mRotationKeys c)).
Definition mNumScalingKeys (c : aiNodeAnim) : Z :=
  Z.of_nat (length (mScalingKeys c)).

(** [aiBone], without its vertex weights. *)
Record aiBone := { bone_mName : string; mOffsetMatrix : aiMatrix4x4 }.

Record aiAnimation := {
  mName : string;
  mDuration : double;
  mTicksPerSecond : double;
  mChannels : list aiNodeAnim;
}.

Definition mNumChannels (a : aiAnimation) : Z :=
  Z.of_nat (length (mChannels a)).

Inductive aiNode : Type :=
  AiNode (mName : string) (mTransformation : aiMatrix4x4)
         (mChildren : list aiNode).

Record aiScene := {
  mRootNode : aiNode;
  mAnimations : list aiAnimation;
}.

Definition mNumAnimations (s : aiScene) : Z :=
  Z.of_nat (length (mAnimations s)).

(** [aiScene::HasAnimations] *)
Definition HasAnimations (s : aiScene) : bool := 0 <? mNumAnimations s.

(** ** assimpGLMHelpers.hpp *)

Module AssimpGLMHelpers.
Section Helpers.
Context `{Glm}.

(** [to[c][r] = from.<row r><column c>] *)
Definition ConvertMatrixToGLMFormat (from : aiMatrix4x4) : mat4 :=
  mat4_entries (λ c r, ai_entry from r c).

Definition GetGLMVec (vec : aiVector3D) : vec3 :=
  vec3_ctor (v_x vec) (v_y vec) (v_z vec).

Definition GetGLMQuat (pOrientation : aiQuaternion) : quat :=
  quat_ctor (q_w pOrientation) (q_x pOrientation) (q_y pOrientation)
            (q_z pOrientation).
End Helpers.
End AssimpGLMHelpers.

(** ** bone.hpp, bone.cpp *)

Module Bone.
Section Bone.
Context `{Glm}.

Record KeyPosition := { position : vec3; kp_timeStamp : float }.
Record KeyRotation := { orientation : quat; kr_timeStamp : float }.
Record KeyScale := { kscale : vec3; ks_timeStamp : float }.

(** The member [localTransform] is a cache written by [Update] and read
    back at once by its caller; [Update] below returns it. *)
Record t := {
  name : string;
  ID : Z;
  positions : list KeyPosition;
  rotations : list KeyRotation;
  scales : list KeyScale;
  numPositions : Z;
  numRotations : Z;
  numScalings : Z;
}.

(** [Bone::Bone] *)
Definition Bone (name : string) (ID : Z) (channel : aiNodeAnim) : t :=
  {| name := name;
     ID := ID;
     positions :=
       map (λ k, {| position := AssimpGLMHelpers.GetGLMVec (vk_mValue k);
                    kp_timeStamp := to_float (vk_mTime k) |})
           (mPositionKeys channel);
     rotations :=
       map (λ k, {| orientation := AssimpGLMHelpers.GetGLMQuat (qk_mValue k);
                    kr_timeStamp := to_float (qk_mTime k) |})
           (mRotationKeys channel);
     scales :=
       map (λ k, {| kscale := AssimpGLMHelpers.GetGLMVec (vk_mValue k);
                    ks_timeStamp := to_float (vk_mTime k) |})
           (mScalingKeys channel);
     numPositions := mNumPositionKeys channel;
     numRotations := mNumRotationKeys channel;
     numScalings := mNumScalingKeys channel |}.

Definition GetBoneName (b : t) : string := name b.
Definition GetBoneID (b : t) : Z := ID b.

(** The loop shared by the three index searches:
    [for (i = 0; i < n - 1; ++i) if (t < v[i + 1].timeStamp) return i;
     return n - 1;].  [idxs] is the range the loop counter runs over. *)
Fixpoint scan {K : Type} (stamp : K → float) (v : list K)
    (animationTime : float) (idxs : list Z) (n : Z) : option Z :=
  match idxs with
  | [] => Some (n - 1)
  | i :: rest =>
      k ← at_index v (i + 1);
      if ltb animationTime (stamp k) then Some i
      else scan stamp v animationTime rest n
  end.

Definition GetPositionIndex (b : t) (animationTime : float) : option Z :=
  scan kp_timeStamp (positions b) animationTime
       (seqZ 0 (numPositions b - 1)) (numPositions b).

Definition GetRotationIndex (b : t) (animationTime : float) : option Z :=
  scan kr_timeStamp (rotations b) animationTime
       (seqZ 0 (numRotations b - 1)) (numRotations b).

Definition GetScaleIndex (b : t) (animationTime : float) : option Z :=
  scan ks_timeStamp (scales b) animationTime
       (seqZ 0 (numScalings b - 1)) (numScalings b).

Definition GetScaleFactor (last next t : float) : float :=
  div (sub t last) (sub next last).

Definition InterpolatePosition (b : t) (t : float) : option mat4 :=
  if numPositions b =? 1 then
    k ← at_index (positions b) 0;
    Some (translate mat4_identity (position k))
  else
    i ← GetPositionIndex b t;
    let j := i + 1 in
    ki ← at_index (positions b) i;
    kj ← at_index (positions b) j;
    let f := GetScaleFactor (kp_timeStamp ki) (kp_timeStamp kj) t in
    let pos := mix (position ki) (position kj) f in
    Some (translate mat4_identity pos).

Definition InterpolateRotation (b : t) (t : float) : option mat4 :=
  if numRotations b =? 1 then
    k ← at_index (rotations b) 0;
    Some (mat4_cast (normalize (orientation k)))
  else
    i ← GetRotationIndex b t;
    let j := i + 1 in
    ki ← at_index (rotations b) i;
    kj ← at_index (rotations b) j;
    let f := GetScaleFactor (kr_timeStamp ki) (kr_timeStamp kj) t in
    let rot := slerp (orientation ki) (orientation kj) f in
    Some (mat4_cast (normalize rot)).

Definition InterpolateScaling (b : t) (t : float) : option mat4 :=
  if numScalings b =? 1 then
    k ← at_index (scales b) 0;
    Some (scale mat4_identity (kscale k))
  else
    i ← GetScaleIndex b t;
    let j := i + 1 in
    ki ← at_index (scales b) i;
    kj ← at_index (scales b) j;
    let f := GetScaleFactor (ks_timeStamp ki) (ks_timeStamp kj) t in
    let s := mix (kscale ki) (kscale kj) f in
    Some (scale mat4_identity s).

(** [Bone::Update] followed by [GetLocalTransform]. *)
Definition Update (b : t) (animationTime : float) : option mat4 :=
  T ← InterpolatePosition b animationTime;
  R ← InterpolateRotation b animationTime;
  S ← InterpolateScaling b animationTime;
  Some (T × R × S).
End Bone.
End Bone.

(** ** config.hpp, namespace Config::Animation *)

Module Config.
Definition DEFAULT_TICKS_PER_SECOND : float := Float32.of_Z 25.
Definition MAX_BONES : Z := 100.
Definition MAX_BONE_INFLUENCE : Z := 4.
Definition ALLOWED_BONES : list string :=
  ["DEF-"; "head"; "tail.001"]%string.
Definition HEAD_BONE_FILTERS : list string :=
  ["DEF-head"; "DEF-skull"; "DEF-jaw"; "DEF-nose";
   "DEF-ear"; "DEF-neck"; "DEF-Bone.001"; "DEF-Bone.002"]%string.
Definition TAIL_BONE_FILTERS : list string := ["DEF-tail"]%string.
End Config.

(** ** animated_mesh.hpp: the bone slots of a vertex *)

Module AnimatedVertex.
(** The two arrays of [MAX_BONE_INFLUENCE] elements at the end of
    [AnimatedVertex]. *)
Record t := { boneIDs : list Z; weights : list float }.

Definition sized (vertex : t) : Prop :=
  length (boneIDs vertex) = Z.to_nat Config.MAX_BONE_INFLUENCE
  ∧ length (weights vertex) = Z.to_nat Config.MAX_BONE_INFLUENCE.

(** [vertex.boneIDs[i] = boneID; vertex.weights[i] = weight;] *)
Definition set_slot (vertex : t) (i : Z) (boneID : Z) (weight : float) : t :=
  {| boneIDs := <[Z.to_nat i := boneID]> (boneIDs vertex);
     weights := <[Z.to_nat i := weight]> (weights vertex) |}.

(** The slots once [influences] took the first of them in turn, the
    others being empty. *)
Definition filled (influences : list (Z * float)) : t :=
  {| boneIDs :=
       influences.*1
       ++ replicate (Z.to_nat Config.MAX_BONE_INFLUENCE - length influences)
                    (-1);
     weights :=
       influences.*2
       ++ replicate (Z.to_nat Config.MAX_BONE_INFLUENCE - length influences)
                    Float32.zero |}.
End AnimatedVertex.

(** ** animated_model.hpp, animated_model.cpp: the bone table of a model *)

Module AnimatedModel.
Section AnimatedModel.
Context `{Glm}.

Record BoneInfo := { id : Z; offset : mat4 }.

(** The members the animation code reaches through [GetBoneInfoMap] and
    [GetBoneCount]. *)
Record t := {
  boneCounter : Z;
  boneInfoMap : gmap string BoneInfo;
}.

(** A model as its constructor leaves it. *)
Definition AnimatedModel : t := {| boneCounter := 0; boneInfoMap := ∅ |}.

Definition FindBoneID (this : t) (boneName : string) : Z :=
  match boneInfoMap this !! boneName with
  | Some info => id info
  | None => -1
  end.

(** The bone filter of [ExtractBoneWeightForVertices]:
    [(filter[0] == 'D' && boneName.rfind(filter, 0) == 0)
     || boneName == filter]. *)
Definition allowed (boneName : string) : bool :=
  existsb (λ filter,
             (match filter with
              | String "D"%char _ => true
              | _ => false
              end && String.prefix filter boneName)
             || bool_decide (boneName = filter))
          Config.ALLOWED_BONES.

(** One turn of the bone loop of [ExtractBoneWeightForVertices], on the
    table and the counter.  The weights that the loop also hands to the
    vertices do not touch the table and are left out. *)
Definition ExtractBoneWeightForVertices_step (this : t) (bone : aiBone)
    : option t :=
  let boneName := bone_mName bone in
  if allowed boneName then
    match boneInfoMap this !! boneName with
    | None =>
        if boneCounter this <? INT_MAX then
          Some {| boneCounter := boneCounter this + 1;
                  boneInfoMap :=
                    <[boneName :=
                        {| id := boneCounter this;
                           offset :=
                             AssimpGLMHelpers.ConvertMatrixToGLMFormat
                               (mOffsetMatrix bone) |}]>
                      (boneInfoMap this) |}
        else None
    | Some _ => Some this
    end
  else Some this.

(** The table after the bones of the meshes of a model file, in the order
    [LoadModel] meets them. *)
Definition ExtractBoneWeightForVertices (this : t) (mBones : list aiBone)
    : option t :=
  fold_defined ExtractBoneWeightForVertices_step mBones this.
End AnimatedModel.

(** [AnimatedModel::SetVertexBoneDataToDefault] *)
Definition SetVertexBoneDataToDefault (vertex : AnimatedVertex.t)
    : AnimatedVertex.t :=
  foldl (λ vertex i, AnimatedVertex.set_slot vertex i (-1) Float32.zero)
        vertex (seqZ 0 Config.MAX_BONE_INFLUENCE).

(** The first loop of [SetVertexBoneData], one turn:
    [if (vertex.weights[i] < vertex.weights[minIndex]) minIndex = i;] *)
Definition min_weight_step (vertex : AnimatedVertex.t) (minIndex i : Z)
    : option Z :=
  wi ← at_index (AnimatedVertex.weights vertex) i;
  wm ← at_index (AnimatedVertex.weights vertex) minIndex;
  Some (if Float32.ltb wi wm then i else minIndex).

(** The second loop: the vertex it returns with, if it returns. *)
Fixpoint fill_empty_slot (idxs : list Z) (vertex : AnimatedVertex.t)
    (boneID : Z) (weight : float) : option (option AnimatedVertex.t) :=
  match idxs with
  | [] => Some None
  | i :: rest =>
      id ← at_index (AnimatedVertex.boneIDs vertex) i;
      if id <? 0 then Some (Some (AnimatedVertex.set_slot vertex i boneID weight))
      else fill_empty_slot rest vertex boneID weight
  end.

(** [AnimatedModel::SetVertexBoneData] *)
Definition SetVertexBoneData (vertex : AnimatedVertex.t) (boneID : Z)
    (weight : float) : option AnimatedVertex.t :=
  minIndex ← fold_defined (min_weight_step vertex)
                (seqZ 1 (Config.MAX_BONE_INFLUENCE - 1)) 0;
  filled ← fill_empty_slot (seqZ 0 Config.MAX_BONE_INFLUENCE) vertex boneID
             weight;
  match filled with
  | Some vertex => Some vertex
  | None =>
      wm ← at_index (AnimatedVertex.weights vertex) minIndex;
      if Float32.ltb wm weight
      then Some (AnimatedVertex.set_slot vertex minIndex boneID weight)
      else Some vertex
  end.

(** The influences handed to one vertex, in turn. *)
Definition SetVertexBoneData_all (vertex : AnimatedVertex.t)
    (influences : list (Z * float)) : option AnimatedVertex.t :=
  fold_defined (λ vertex influence,
                  SetVertexBoneData vertex influence.1 influence.2)
               influences vertex.
End AnimatedModel.

(** ** animation.hpp, animation.cpp *)

Module Animation.
Section Animation.
Context `{Glm}.

Inductive AssimpNodeData : Type :=
  Node (transformation : mat4) (name : string) (childrenCount : Z)
       (children : list AssimpNodeData).

Record t := {
  duration : float;
  ticksPerSecond : Z;
  boneCount : Z;
  name : string;
  bones : list Bone.t;
  rootNode : AssimpNodeData;
  boneInfoMap : gmap string AnimatedModel.BoneInfo;
}.

Definition GetTicksPerSecond (this : t) : float :=
  Float32.of_Z (ticksPerSecond this).
Definition GetDuration (this : t) : float := duration this.
Definition GetRootNode (this : t) : AssimpNodeData := rootNode this.
Definition GetBoneIDMap (this : t) : gmap string AnimatedModel.BoneInfo :=
  boneInfoMap this.
Definition GetBoneCount (this : t) : Z := boneCount this.
Definition GetName (this : t) : string := name this.

(** [Animation::FindBone]: the first bone of that name. *)
Definition FindBone (this : t) (name : string) : option Bone.t :=
  find (λ bone, bool_decide (Bone.GetBoneName bone = name)) (bones this).

Fixpoint ReadHierarchyData (src : aiNode) : AssimpNodeData :=
  match src with
  | AiNode mName mTransformation mChildren =>
      Node (AssimpGLMHelpers.ConvertMatrixToGLMFormat mTransformation)
           mName
           (Z.of_nat (length mChildren))
           (map ReadHierarchyData mChildren)
  end.

(** Every node of the hierarchy records as [childrenCount] the size of its
    [children], which is how [ReadHierarchyData] builds them. *)
Fixpoint counted (node : AssimpNodeData) : bool :=
  match node with
  | Node _ _ childrenCount children =>
      (childrenCount =? Z.of_nat (length children)) && forallb counted children
  end.

(** One turn of the channel loop of [ReadMissingBones], on the model's
    table and counter and the clip's bone vector. *)
Definition ReadMissingBones_step
    (st : gmap string AnimatedModel.BoneInfo * Z * list Bone.t)
    (channel : aiNodeAnim)
    : option (gmap string AnimatedModel.BoneInfo * Z * list Bone.t) :=
  let '(boneInfoMap, boneCount, bones) := st in
  let boneName := mNodeName channel in
  '(boneInfoMap, boneCount) ←
    match boneInfoMap !! boneName with
    | None =>
        if boneCount <? INT_MAX then
          Some (<[boneName :=
                    {| AnimatedModel.id := boneCount;
                       AnimatedModel.offset := mat4_identity |}]> boneInfoMap,
                boneCount + 1)
        else None
    | Some _ => Some (boneInfoMap, boneCount)
    end;
  info ← boneInfoMap !! mNodeName channel;
  Some (boneInfoMap, boneCount,
        bones ++ [Bone.Bone (mNodeName channel) (AnimatedModel.id info)
                            channel]).

Fixpoint ReadMissingBones_loop
    (channels : list aiNodeAnim)
    (st : gmap string AnimatedModel.BoneInfo * Z * list Bone.t)
    : option (gmap string AnimatedModel.BoneInfo * Z * list Bone.t) :=
  match channels with
  | [] => Some st
  | channel :: rest =>
      st ← ReadMissingBones_step st channel;
      ReadMissingBones_loop rest st
  end.

(** [Animation::ReadMissingBones]: the clip's bones, its copy of the
    table and of the counter, and the model as the loop leaves it. *)
Definition ReadMissingBones (animation : aiAnimation)
    (model : AnimatedModel.t)
    : option (list Bone.t * gmap string AnimatedModel.BoneInfo * Z
              * AnimatedModel.t) :=
  '(boneInfoMap, boneCount, bones) ←
    ReadMissingBones_loop (mChannels animation)
      (AnimatedModel.boneInfoMap model, AnimatedModel.boneCounter model, []);
  Some (bones, boneInfoMap, boneCount,
        {| AnimatedModel.boneCounter := boneCount;
           AnimatedModel.boneInfoMap := boneInfoMap |}).

(** What a constructor call leaves behind: a clip whose members were all
    assigned, or the object the early [return] of the validation leaves,
    none of whose members was assigned. *)
Inductive object : Type :=
  | Populated (a : t)
  | Unpopulated.

(** [Animation::Animation].  [ReadFile] is the importer: what reading a
    path yields at the time of the call. *)
Definition Animation (ReadFile : string → option aiScene)
    (animationPath : string) (model : AnimatedModel.t)
    (animationIndex : Z) : option (object * AnimatedModel.t) :=
  match ReadFile animationPath with
  | None => Some (Unpopulated, model)
  | Some scene =>
      if negb (HasAnimations scene)
         || (mNumAnimations scene <=? to_unsigned animationIndex)
      then Some (Unpopulated, model)
      else
        animation ← at_index (mAnimations scene) animationIndex;
        ticksPerSecond ←
          (if negb (Float64.is_zero (mTicksPerSecond animation))
           then Float64.to_int (mTicksPerSecond animation)
           else Float32.to_int Config.DEFAULT_TICKS_PER_SECOND);
        let rootNode := ReadHierarchyData (mRootNode scene) in
        '(bones, boneInfoMap, boneCount, model) ←
          ReadMissingBones animation model;
        Some (Populated
                {| duration := Float64.to_float (mDuration animation);
                   ticksPerSecond := ticksPerSecond;
                   boneCount := boneCount;
                   name := mName animation;
                   bones := bones;
                   rootNode := rootNode;
                   boneInfoMap := boneInfoMap |},
              model)
  end.
End Animation.
End Animation.

(** ** animation_loader.hpp, animation_loader.cpp *)

Module AnimationLoader.
Section AnimationLoader.
Context `{Glm}.

Record AnimationInfo := {
  name : string;
  index : Z;
  duration : float;
  ticksPerSecond : float;
}.

(** The loader keeps a pointer to the model; the model itself is passed
    to and returned by [LoadAnimation]. *)
Record t := {
  modelPath : string;
  animations : list AnimationInfo;
}.

Definition LoadAnimationList (ReadFile : string → option aiScene)
    (this : t) : t :=
  match ReadFile (modelPath this) with
  | None => this
  | Some scene =>
      if negb (HasAnimations scene) then this
      else
        {| modelPath := modelPath this;
           animations :=
             imap (λ i anim,
                     {| name := mName anim;
                        index := Z.of_nat i;
                        duration := Float64.to_float (mDuration anim);
                        ticksPerSecond :=
                          if negb (Float64.is_zero (mTicksPerSecond anim))
                          then Float64.to_float (mTicksPerSecond anim)
                          else Config.DEFAULT_TICKS_PER_SECOND |})
                  (mAnimations scene) |}
  end.

Definition AnimationLoader (ReadFile : string → option aiScene)
    (modelPath : string) : t :=
  LoadAnimationList ReadFile {| modelPath := modelPath; animations := [] |}.

Definition GetAvailableAnimations (this : t) : list AnimationInfo :=
  animations this.

Definition FindAnimationIndex (this : t) (name' : string) : Z :=
  match find (λ info, bool_decide (name info = name')) (animations this) with
  | Some it => index it
  | None => -1
  end.

(** [AnimationLoader::LoadAnimation]: a [unique_ptr<Animation>], [None]
    for [nullptr].  The constructor of [Animation] has no [throw]; the
    handler of the [try] block is left to exceptions of the allocator. *)
Definition LoadAnimation (ReadFile : string → option aiScene)
    (this : t) (model : AnimatedModel.t) (name : string)
    : option (option Animation.object * AnimatedModel.t) :=
  let index := FindAnimationIndex this name in
  if index =? -1 then Some (None, model)
  else
    '(obj, model) ← Animation.Animation ReadFile (modelPath this) model index;
    Some (Some obj, model).
End AnimationLoader.
End AnimationLoader.

(** ** animator.hpp, animator.cpp *)

Inductive AnimationLayer := LOCOMOTION | HEAD | TAIL.

#[global] Instance AnimationLayer_eq_dec : EqDecision AnimationLayer.
Proof. solve_decision. Defined.

#[global] Instance AnimationLayer_countable : Countable AnimationLayer.
Proof.
  refine (inj_countable'
            (λ l, match l with LOCOMOTION => 0 | HEAD => 1 | TAIL => 2 end)%nat
            (λ n, match n with 0 => LOCOMOTION | 1 => HEAD | _ => TAIL end)%nat
            _).
  by intros [].
Defined.

(** The keys of a [std::map<AnimationLayer, _>] in the order a range-for
    visits them: the order of the enumerators. *)
Definition layer_order : list AnimationLayer := [LOCOMOTION; HEAD; TAIL].

(** The address of a clip; [None] at type [option addr] is [nullptr]. *)
Definition addr : Type := N.

Module LayerInfo.
Record t := {
  animation : option addr;
  currentTime : float;
  active : bool;
  looping : bool;
}.

(** The default member initialisers. *)
Definition init : t :=
  {| animation := None; currentTime := Float32.zero;
     active := false; looping := true |}.
End LayerInfo.

(** [std::vector::resize(count, value)] with an [int] count: a negative
    count converts to a [size_t] above [max_size] and the call throws
    [std::length_error], which is [None] here. *)
Definition vector_resize {A : Type} (count : Z) (value : A) (v : list A)
    : option (list A) :=
  if count <? 0 then None
  else Some (take (Z.to_nat count) v
             ++ replicate (Z.to_nat count - length v)%nat value).

(** How a member function that may throw leaves its object. *)
Inductive outcome (A : Type) : Type :=
  | Returns (this : A)
  | Throws (this : A).
Arguments Returns {A} this.
Arguments Throws {A} this.

Definition object_of {A : Type} (o : outcome A) : A :=
  match o with Returns this | Throws this => this end.

Module Animator.
Section Animator.
Context `{Glm}.

(** The clips the application keeps alive for the animator. *)
Variable deref : addr → Animation.t.

Record t := {
  finalBoneMatrices : list mat4;
  boneOverrides : gmap Z mat4;
  layers : gmap AnimationLayer LayerInfo.t;
  currentAnimation : option addr;
  currentTime : float;
  deltaTime : float;
}.

Definition set_finalBoneMatrices (v : list mat4) (this : t) : t :=
  {| finalBoneMatrices := v;
     boneOverrides := boneOverrides this;
     layers := layers this;
     currentAnimation := currentAnimation this;
     currentTime := currentTime this;
     deltaTime := deltaTime this |}.

Definition set_boneOverrides (o : gmap Z mat4) (this : t) : t :=
  {| finalBoneMatrices := finalBoneMatrices this;
     boneOverrides := o;
     layers := layers this;
     currentAnimation := currentAnimation this;
     currentTime := currentTime this;
     deltaTime := deltaTime this |}.

Definition set_layers (l : gmap AnimationLayer LayerInfo.t) (this : t) : t :=
  {| finalBoneMatrices := finalBoneMatrices this;
     boneOverrides := boneOverrides this;
     layers := l;
     currentAnimation := currentAnimation this;
     currentTime := currentTime this;
     deltaTime := deltaTime this |}.

Definition set_currentAnimation (a : option addr) (this : t) : t :=
  {| finalBoneMatrices := finalBoneMatrices this;
     boneOverrides := boneOverrides this;
     layers := layers this;
     currentAnimation := a;
     currentTime := currentTime this;
     deltaTime := deltaTime this |}.

Definition set_currentTime (x : float) (this : t) : t :=
  {| finalBoneMatrices := finalBoneMatrices this;
     boneOverrides := boneOverrides this;
     layers := layers this;
     currentAnimation := currentAnimation this;
     currentTime := x;
     deltaTime := deltaTime this |}.

Definition set_deltaTime (x : float) (this : t) : t :=
  {| finalBoneMatrices := finalBoneMatrices this;
     boneOverrides := boneOverrides this;
     layers := layers this;
     currentAnimation := currentAnimation this;
     currentTime := currentTime this;
     deltaTime := x |}.

(** [Animator::Animator]; [None] when [resize] throws. *)
Definition Animator (animation : option addr) : option t :=
  let boneCount :=
    match animation with
    | Some a => Animation.GetBoneCount (deref a)
    | None => Config.MAX_BONES
    end in
  v ← vector_resize boneCount mat4_identity [];
  Some {| finalBoneMatrices := v;
          boneOverrides := ∅;
          layers := ∅;
          currentAnimation := animation;
          currentTime := Float32.zero;
          deltaTime := Float32.zero |}.

(** [boneName.find(filter) != std::string::npos] *)
Definition contains (boneName filter : string) : bool :=
  bool_decide (is_Some (String.index 0 filter boneName)).

Definition IsHeadBone (boneName : string) : bool :=
  existsb (contains boneName) Config.HEAD_BONE_FILTERS.

Definition IsTailBone (boneName : string) : bool :=
  existsb (contains boneName) Config.TAIL_BONE_FILTERS.

Definition GetBoneLayer (boneName : string) : AnimationLayer :=
  if IsHeadBone boneName then HEAD
  else if IsTailBone boneName then TAIL
  else LOCOMOTION.

(** [Animator::PlayAnimation] *)
Definition PlayAnimation (this : t) (animation : option addr) : outcome t :=
  if bool_decide (currentAnimation this ≠ animation) then
    let this := set_currentAnimation animation this in
    let this := set_currentTime Float32.zero this in
    match animation with
    | Some a =>
        let boneCount := Animation.GetBoneCount (deref a) in
        match vector_resize boneCount mat4_identity (finalBoneMatrices this) with
        | Some v => Returns (set_finalBoneMatrices v this)
        | None => Throws this
        end
    | None => Returns this
    end
  else Returns this.

(** [this->layers[layer]]: the entry, default-constructed when absent. *)
Definition layers_at (this : t) (layer : AnimationLayer) : LayerInfo.t :=
  default LayerInfo.init (layers this !! layer).

(** [Animator::PlayAnimationOnLayer(animation, layer)] *)
Definition PlayAnimationOnLayer (this : t) (animation : option addr)
    (layer : AnimationLayer) : t :=
  let info := layers_at this layer in
  set_layers
    (<[layer := {| LayerInfo.animation := animation;
                   LayerInfo.currentTime := Float32.zero;
                   LayerInfo.active := bool_decide (animation ≠ None);
                   LayerInfo.looping := LayerInfo.looping info |}]>
       (layers this))
    this.

(** [Animator::PlayAnimationOnLayer(animation, layer, looping)] *)
Definition PlayAnimationOnLayer_looping (this : t) (animation : option addr)
    (layer : AnimationLayer) (looping : bool) : t :=
  set_layers
    (<[layer := {| LayerInfo.animation := animation;
                   LayerInfo.currentTime := Float32.zero;
                   LayerInfo.active := bool_decide (animation ≠ None);
                   LayerInfo.looping := looping |}]>
       (layers this))
    this.

Definition StopLayer (this : t) (layer : AnimationLayer) : t :=
  PlayAnimationOnLayer this None layer.

Definition GetFinalBoneMatrices (this : t) : list mat4 :=
  finalBoneMatrices this.

Definition GetCurrentAnimation (this : t) : option addr :=
  currentAnimation this.

Definition SetBoneOverride (this : t) (boneID : Z) (overrideTransform : mat4)
    : t :=
  set_boneOverrides (<[boneID := overrideTransform]> (boneOverrides this)) this.

Definition ClearBoneOverride (this : t) (boneID : Z) : t :=
  set_boneOverrides (delete boneID (boneOverrides this)) this.

(** [index >= 0 && index < v.size()] *)
Definition in_range {A : Type} (index : Z) (v : list A) : bool :=
  (0 <=? index) && (index <? Z.of_nat (length v)).

(** [Animator::CalculateBoneTransform] *)
Fixpoint CalculateBoneTransform (this : t) (node : Animation.AssimpNodeData)
    (parentTransform : mat4) {struct node} : option t :=
  match node with
  | Animation.Node transformation nodeName childrenCount children =>
      anim ← currentAnimation this;
      nodeTransform ←
        match Animation.FindBone (deref anim) nodeName with
        | Some bone => Bone.Update bone (currentTime this)
        | None => Some transformation
        end;
      let boneInfoMap := Animation.GetBoneIDMap (deref anim) in
      let it := boneInfoMap !! nodeName in
      let nodeTransform :=
        match it with
        | Some info =>
            let index := AnimatedModel.id info in
            if in_range index (finalBoneMatrices this) then
              match boneOverrides this !! index with
              | Some overrideTransform => overrideTransform × nodeTransform
              | None => nodeTransform
              end
            else nodeTransform
        | None => nodeTransform
        end in
      let globalTransformation := parentTransform × nodeTransform in
      let this :=
        match it with
        | Some info =>
            let index := AnimatedModel.id info in
            if in_range index (finalBoneMatrices this) then
              set_finalBoneMatrices
                (<[Z.to_nat index :=
                     globalTransformation × AnimatedModel.offset info]>
                   (finalBoneMatrices this))
                this
            else this
        | None => this
        end in
      (fix recurse (i : nat) (children : list Animation.AssimpNodeData)
           (this : t) {struct children} : option t :=
         match i with
         | O => Some this
         | S i =>
             match children with
             | [] => None
             | child :: children =>
                 this ← CalculateBoneTransform this child globalTransformation;
                 recurse i children this
             end
         end) (Z.to_nat childrenCount) children this
  end.

(** [Animator::CalculateLayerBoneTransform] *)
Fixpoint CalculateLayerBoneTransform (this : t)
    (node : Animation.AssimpNodeData) (parentTransform : mat4)
    (layer : AnimationLayer) (layerMatrices : list mat4) {struct node}
    : option (list mat4) :=
  match node with
  | Animation.Node transformation nodeName childrenCount children =>
      info ← layers this !! layer;
      anim ← LayerInfo.animation info;
      nodeTransform ←
        match Animation.FindBone (deref anim) nodeName with
        | Some bone => Bone.Update bone (LayerInfo.currentTime info)
        | None => Some transformation
        end;
      let globalTransformation := parentTransform × nodeTransform in
      let boneInfoMap := Animation.GetBoneIDMap (deref anim) in
      let layerMatrices :=
        match boneInfoMap !! nodeName with
        | Some it =>
            if bool_decide (GetBoneLayer nodeName = layer) then
              let index := AnimatedModel.id it in
              if in_range index layerMatrices then
                <[Z.to_nat index :=
                    globalTransformation × AnimatedModel.offset it]>
                  layerMatrices
              else layerMatrices
            else layerMatrices
        | None => layerMatrices
        end in
      (fix recurse (i : nat) (children : list Animation.AssimpNodeData)
           (layerMatrices : list mat4) {struct children}
           : option (list mat4) :=
         match i with
         | O => Some layerMatrices
         | S i =>
             match children with
             | [] => None
             | child :: children =>
                 layerMatrices ←
                   CalculateLayerBoneTransform this child globalTransformation
                                               layer layerMatrices;
                 recurse i children layerMatrices
             end
         end) (Z.to_nat childrenCount) children layerMatrices
  end.

(** The first loop over the layers of [UpdateAnimation], on one entry. *)
Definition advance_layer (dt : float) (info : LayerInfo.t) : LayerInfo.t :=
  match LayerInfo.animation info with
  | Some anim =>
      if LayerInfo.active info then
        let currentTime :=
          Float32.add (LayerInfo.currentTime info)
                      (Float32.mul (Animation.GetTicksPerSecond (deref anim)) dt)
        in
        if negb (LayerInfo.looping info)
           && Float32.geb currentTime (Animation.GetDuration (deref anim))
        then
          {| LayerInfo.animation := None;
             LayerInfo.currentTime := Float32.zero;
             LayerInfo.active := false;
             LayerInfo.looping := LayerInfo.looping info |}
        else if LayerInfo.looping info then
          {| LayerInfo.animation := LayerInfo.animation info;
             LayerInfo.currentTime :=
               Float32.fmod currentTime (Animation.GetDuration (deref anim));
             LayerInfo.active := LayerInfo.active info;
             LayerInfo.looping := LayerInfo.looping info |}
        else
          {| LayerInfo.animation := LayerInfo.animation info;
             LayerInfo.currentTime := currentTime;
             LayerInfo.active := LayerInfo.active info;
             LayerInfo.looping := LayerInfo.looping info |}
      else info
  | None => info
  end.

(** The inner loop of the second pass: one entry of the layer clip's bone
    table. *)
Definition apply_layer_bone (layer : AnimationLayer)
    (layerMatrices : list mat4) (finalBoneMatrices : list mat4)
    (entry : string * AnimatedModel.BoneInfo) : option (list mat4) :=
  let '(boneName, boneInfo) := entry in
  if bool_decide (GetBoneLayer boneName = layer)
     && in_range (AnimatedModel.id boneInfo) finalBoneMatrices
  then
    m ← at_index layerMatrices (AnimatedModel.id boneInfo);
    Some (<[Z.to_nat (AnimatedModel.id boneInfo) := m]> finalBoneMatrices)
  else Some finalBoneMatrices.

(** The second loop over the layers of [UpdateAnimation], on one key.
    The bone table is visited through [map_to_list]: every write stores
    [layerMatrices[id]] at [id], whatever the order of the visits. *)
Definition apply_layer (this : t) (layer : AnimationLayer) : option t :=
  match layers this !! layer with
  | Some info =>
      match LayerInfo.animation info with
      | Some anim =>
          if LayerInfo.active info then
            let layerMatrices :=
              replicate (length (finalBoneMatrices this)) mat4_identity in
            layerMatrices ←
              CalculateLayerBoneTransform this
                (Animation.GetRootNode (deref anim)) mat4_identity layer
                layerMatrices;
            let boneInfoMap := Animation.GetBoneIDMap (deref anim) in
            final ← fold_defined (apply_layer_bone layer layerMatrices)
                      (map_to_list boneInfoMap) (finalBoneMatrices this);
            Some (set_finalBoneMatrices final this)
          else Some this
      | None => Some this
      end
  | None => Some this
  end.

(** The state of [UpdateAnimation] once both clocks have advanced. *)
Definition advance_time (this : t) (dt : float) : t :=
  let this := set_deltaTime dt this in
  let this :=
    match currentAnimation this with
    | Some anim =>
        let currentTime :=
          Float32.add (currentTime this)
                      (Float32.mul (Animation.GetTicksPerSecond (deref anim)) dt)
        in
        set_currentTime
          (Float32.fmod currentTime (Animation.GetDuration (deref anim))) this
    | None => this
    end in
  set_layers (advance_layer dt <$> layers this) this.

(** The state of [UpdateAnimation] after the walk of the main clip. *)
Definition primary_pass (this : t) : option t :=
  let this :=
    set_finalBoneMatrices
      (replicate (length (finalBoneMatrices this)) mat4_identity) this in
  match currentAnimation this with
  | Some anim =>
      CalculateBoneTransform this (Animation.GetRootNode (deref anim))
                             mat4_identity
  | None => Some this
  end.

(** [Animator::UpdateAnimation].  The debugging frame counter is a local
    static that nothing reads. *)
Definition UpdateAnimation (this : t) (dt : float) : option t :=
  this ← primary_pass (advance_time this dt);
  fold_defined apply_layer layer_order this.

(** The loop over the children at the end of [CalculateBoneTransform], by
    itself: the first [i] children in turn. *)
Fixpoint CalculateBoneTransform_children (i : nat)
    (children : list Animation.AssimpNodeData) (globalTransformation : mat4)
    (this : t) : option t :=
  match i with
  | O => Some this
  | S i =>
      match children with
      | [] => None
      | child :: children =>
          this ← CalculateBoneTransform this child globalTransformation;
          CalculateBoneTransform_children i children globalTransformation this
      end
  end.

(** The loop over the children at the end of
    [CalculateLayerBoneTransform]. *)
Fixpoint CalculateLayerBoneTransform_children (this : t) (i : nat)
    (children : list Animation.AssimpNodeData) (globalTransformation : mat4)
    (layer : AnimationLayer) (layerMatrices : list mat4)
    : option (list mat4) :=
  match i with
  | O => Some layerMatrices
  | S i =>
      match children with
      | [] => None
      | child :: children =>
          layerMatrices ←
            CalculateLayerBoneTransform this child globalTransformation layer
                                        layerMatrices;
          CalculateLayerBoneTransform_children this i children
            globalTransformation layer layerMatrices
      end
  end.

(** The local transform of a node before any override: the bone of that
    name interpolated at [time], or the node's own transformation. *)
Definition animated_local (clip : Animation.t) (time : float)
    (transformation : mat4) (nodeName : string) : option mat4 :=
  match Animation.FindBone clip nodeName with
  | Some bone => Bone.Update bone time
  | None => Some transformation
  end.

(** The override step of [CalculateBoneTransform] on a local transform. *)
Definition overridden (this : t) (clip : Animation.t) (nodeName : string)
    (nodeTransform : mat4) : mat4 :=
  match Animation.GetBoneIDMap clip !! nodeName with
  | Some info =>
      if in_range (AnimatedModel.id info) (finalBoneMatrices this) then
        match boneOverrides this !! AnimatedModel.id info with
        | Some overrideTransform => overrideTransform × nodeTransform
        | None => nodeTransform
        end
      else nodeTransform
  | None => nodeTransform
  end.

(** The write of [CalculateBoneTransform] into the output array. *)
Definition write_final (this : t) (clip : Animation.t) (nodeName : string)
    (globalTransformation : mat4) : t :=
  match Animation.GetBoneIDMap clip !! nodeName with
  | Some info =>
      if in_range (AnimatedModel.id info) (finalBoneMatrices this) then
        set_finalBoneMatrices
          (<[Z.to_nat (AnimatedModel.id info) :=
               globalTransformation × AnimatedModel.offset info]>
             (finalBoneMatrices this))
          this
      else this
  | None => this
  end.

(** The write of [CalculateLayerBoneTransform] into the layer's array. *)
Definition write_layer (clip : Animation.t) (nodeName : string)
    (layer : AnimationLayer) (globalTransformation : mat4)
    (layerMatrices : list mat4) : list mat4 :=
  match Animation.GetBoneIDMap clip !! nodeName with
  | Some it =>
      if bool_decide (GetBoneLayer nodeName = layer) then
        if in_range (AnimatedModel.id it) layerMatrices then
          <[Z.to_nat (AnimatedModel.id it) :=
              globalTransformation × AnimatedModel.offset it]> layerMatrices
        else layerMatrices
      else layerMatrices
  | None => layerMatrices
  end.

(** [this'] is [this] but for the entries of the output array. *)
Definition frames (this this' : t) : Prop :=
  this' = set_finalBoneMatrices (finalBoneMatrices this') this
  ∧ length (finalBoneMatrices this') = length (finalBoneMatrices this).

(** Two override maps give the same answer wherever the walk of a
    hierarchy with these [names] can ask, on an output array of [len]
    entries. *)
Definition agree_on (clip : Animation.t) (names : list string) (len : nat)
    (o o' : gmap Z mat4) : Prop :=
  ∀ name info,
    name ∈ names →
    Animation.GetBoneIDMap clip !! name = Some info →
    0 ≤ AnimatedModel.id info < Z.of_nat len →
    o !! AnimatedModel.id info = o' !! AnimatedModel.id info.

(** Consecutive calls of [UpdateAnimation], one per frame time. *)
Definition ticks (this : t) (dts : list float) : option t :=
  fold_defined UpdateAnimation dts this.

(** The names of the nodes of a hierarchy. *)
Fixpoint node_names (node : Animation.AssimpNodeData) : list string :=
  match node with
  | Animation.Node _ name _ children => name :: flat_map node_names children
  end.

(** The bone identifiers that the walk of the main clip can look up in
    the override map: those that a node of the clip's hierarchy resolves
    to and that index the output array. *)
Definition consulted (this : t) (boneID : Z) : Prop :=
  ∃ anim name info,
    currentAnimation this = Some anim
    ∧ name ∈ node_names (Animation.GetRootNode (deref anim))
    ∧ Animation.GetBoneIDMap (deref anim) !! name = Some info
    ∧ AnimatedModel.id info = boneID
    ∧ in_range boneID (finalBoneMatrices this) = true.

(** The clock of a one-shot layer after the frame times [dts]: no wrap. *)
Definition accumulate (ticksPerSecond : float) (t0 : float)
    (dts : list float) : float :=
  foldl (λ acc dt, Float32.add acc (Float32.mul ticksPerSecond dt)) t0 dts.

(** The clock of a looping layer after the frame times [dts]. *)
Definition accumulate_wrapped (ticksPerSecond duration : float) (t0 : float)
    (dts : list float) : float :=
  foldl (λ acc dt,
           Float32.fmod (Float32.add acc (Float32.mul ticksPerSecond dt))
                        duration) t0 dts.

(** The node name [nodeName] has a local transform in [clip] at [time]:
    the bone [FindBone] answers, when it answers one, can be interpolated
    on its three tracks. *)
Definition posed (clip : Animation.t) (time : float) (nodeName : string)
    : bool :=
  match Animation.FindBone clip nodeName with
  | Some bone =>
      match Bone.Update bone time with Some _ => true | None => false end
  | None => true
  end.

(** Every node of the hierarchy of [clip] has a local transform at
    [time]. *)
Definition poses (clip : Animation.t) (time : float) : bool :=
  forallb (posed clip time) (node_names (Animation.GetRootNode clip)).
End Animator.
End Animator.

(** ** The calls an application makes on an animator *)

Module Session.
Section Session.
Context `{Glm}.
Variable deref : addr → Animation.t.

(** A call of a member function of the animator by the application. *)
Inductive call : Type :=
  | PlayAnimation (animation : option addr)
  | PlayAnimationOnLayer (animation : option addr) (layer : AnimationLayer)
  | PlayAnimationOnLayer_looping (animation : option addr)
      (layer : AnimationLayer) (looping : bool)
  | StopLayer (layer : AnimationLayer)
  | SetBoneOverride (boneID : Z) (overrideTransform : mat4)
  | ClearBoneOverride (boneID : Z)
  | UpdateAnimation (dt : float).

(** The animator after the call; [None] when the call throws or is
    undefined. *)
Definition perform (this : Animator.t) (c : call) : option Animator.t :=
  match c with
  | PlayAnimation animation =>
      match Animator.PlayAnimation deref this animation with
      | Returns this => Some this
      | Throws _ => None
      end
  | PlayAnimationOnLayer animation layer =>
      Some (Animator.PlayAnimationOnLayer this animation layer)
  | PlayAnimationOnLayer_looping animation layer looping =>
      Some (Animator.PlayAnimationOnLayer_looping this animation layer looping)
  | StopLayer layer => Some (Animator.StopLayer this layer)
  | SetBoneOverride boneID overrideTransform =>
      Some (Animator.SetBoneOverride this boneID overrideTransform)
  | ClearBoneOverride boneID => Some (Animator.ClearBoneOverride this boneID)
  | UpdateAnimation dt => Animator.UpdateAnimation deref this dt
  end.

(** The calls of a session, in turn, on an animator as its constructor
    leaves it. *)
Definition run (animation : option addr) (calls : list call)
    : option Animator.t :=
  this ← Animator.Animator deref animation;
  fold_defined perform calls this.
End Session.
End Session.

(** ** scene.hpp, scene.cpp: the animated objects of the scene *)

Module Scene.
Section Scene.
Context `{Glm}.
Variable deref : addr → Animation.t.

(** [AnimatedObject], its clips as the addresses their [unique_ptr]s hold
    and its animator as the object the [unique_ptr] owns, [None] for an
    empty pointer.  The model is left out. *)
Record AnimatedObject := {
  idleAnimation : option addr;
  walkAnimation : option addr;
  runAnimation : option addr;
  animator : option Animator.t;
}.

Definition set_animator (this : Animator.t) (obj : AnimatedObject)
    : AnimatedObject :=
  {| idleAnimation := idleAnimation obj;
     walkAnimation := walkAnimation obj;
     runAnimation := runAnimation obj;
     animator := Some this |}.


(** One turn of the loop over the animated objects that ends
    [Scene::Update]. *)
Definition Update_object (deltaTime : float) (obj : AnimatedObject)
    : option (outcome AnimatedObject) :=
  match animator obj with
  | None => Some (Returns obj)
  | Some this =>
      this ← Animator.UpdateAnimation deref this deltaTime;
      match Animator.GetCurrentAnimation this, idleAnimation obj with
      | None, Some idle =>
          match Animator.PlayAnimation deref this (Some idle) with
          | Returns this => Some (Returns (set_animator this obj))
          | Throws this => Some (Throws (set_animator this obj))
          end
      | _, _ => Some (Returns (set_animator this obj))
      end
  end.

(** The loop: an exception leaves the objects not yet visited as they
    were. *)
Fixpoint Update_objects (deltaTime : float)
    (animatedObjects : list AnimatedObject)
    : option (outcome (list AnimatedObject)) :=
  match animatedObjects with
  | [] => Some (Returns [])
  | obj :: rest =>
      o ← Update_object deltaTime obj;
      match o with
      | Returns obj =>
          o ← Update_objects deltaTime rest;
          match o with
          | Returns rest => Some (Returns (obj :: rest))
          | Throws rest => Some (Throws (obj :: rest))
          end
      | Throws obj => Some (Throws (obj :: rest))
      end
  end.
End Scene.
End Scene.

(** ** Notions of the hierarchy, the channels and the filters *)

(** The names of the nodes of an Assimp hierarchy, parents first. *)
Fixpoint ai_node_names (node : aiNode) : list string :=
  match node with
  | AiNode mName _ mChildren => mName :: flat_map ai_node_names mChildren
  end.

(** The names of the channels of an animation. *)
Definition channel_names (animation : aiAnimation) : list string :=
  mNodeName <$> mChannels animation.

(** One of the [filters] occurs somewhere in the name. *)
Definition some_filter_occurs (filters : list string) (boneName : string)
    : Prop :=
  ∃ filter pre post,
    filter ∈ filters ∧ boneName = (pre ++ filter ++ post)%string.

(** ** GLM left uninterpreted

    An instance of [Glm] in which every operation builds the expression
    it stands for.  It serves to run the embedding on concrete clips. *)

Module Symbolic.
Inductive svec3 : Type :=
  | V3 (x y z : float)
  | Mix (a b : svec3) (f : float).

Inductive squat : Type :=
  | Q (w x y z : float)
  | Slerp (a b : squat) (f : float)
  | Normalize (q : squat).

Inductive smat4 : Type :=
  | Identity
  | Entries (columns : list (list float))
  | Mul (a b : smat4)
  | Translate (m : smat4) (v : svec3)
  | Scale (m : smat4) (v : svec3)
  | Cast (q : squat).

#[global] Instance glm : Glm := {|
  vec3 := svec3;
  quat := squat;
  mat4 := smat4;
  vec3_ctor := V3;
  quat_ctor := Q;
  mat4_entries := λ entry,
    Entries (map (λ c, map (entry c) (seq 0 4)) (seq 0 4));
  mat4_identity := Identity;
  mat4_mul := Mul;
  translate := Translate;
  scale := Scale;
  mat4_cast := Cast;
  normalize := Normalize;
  mix := Mix;
  slerp := Slerp;
|}.
End Symbolic.

(** ** Sample data *)

Module Sample.
Definition origin : aiVector3D :=
  {| v_x := Float32.zero; v_y := Float32.zero; v_z := Float32.zero |}.
Definition unit_scale : aiVector3D :=
  {| v_x := Float32.of_Z 1; v_y := Float32.of_Z 1; v_z := Float32.of_Z 1 |}.
Definition no_rotation : aiQuaternion :=
  {| q_w := Float32.of_Z 1; q_x := Float32.zero; q_y := Float32.zero;
     q_z := Float32.zero |}.

Definition vkey (time : Z) (value : aiVector3D) : aiVectorKey :=
  {| vk_mTime := Float64.of_Z time; vk_mValue := value |}.
Definition qkey (time : Z) (value : aiQuaternion) : aiQuatKey :=
  {| qk_mTime := Float64.of_Z time; qk_mValue := value |}.

(** A channel with position keys at ticks 0 and 10 and one key for the
    rotation and for the scaling. *)
Definition two_key_channel (nodeName : string) : aiNodeAnim :=
  {| mNodeName := nodeName;
     mPositionKeys := [vkey 0 origin; vkey 10 unit_scale];
     mRotationKeys := [qkey 0 no_rotation];
     mScalingKeys := [vkey 0 unit_scale] |}.

(** A channel with one key on each track. *)
Definition one_key_channel (nodeName : string) : aiNodeAnim :=
  {| mNodeName := nodeName;
     mPositionKeys := [vkey 0 origin];
     mRotationKeys := [qkey 0 no_rotation];
     mScalingKeys := [vkey 0 unit_scale] |}.

Definition identity_matrix : aiMatrix4x4 :=
  {| ai_entry := λ r c,
       if (r =? c)%nat then Float32.of_Z 1 else Float32.zero |}.

(** An armature: a spine carrying a head and a tail. *)
Definition root_node : aiNode :=
  AiNode "Armature" identity_matrix
    [AiNode "DEF-spine" identity_matrix
       [AiNode "DEF-head" identity_matrix [];
        AiNode "DEF-tail" identity_matrix []]].

Definition walk : aiAnimation :=
  {| mName := "Walk";
     mDuration := Float64.of_Z 40;
     mTicksPerSecond := Float64.of_Z 25;
     mChannels := [one_key_channel "DEF-spine"; one_key_channel "DEF-head";
                   one_key_channel "DEF-tail"] |}.

Definition head_up : aiAnimation :=
  {| mName := "HeadUp";
     mDuration := Float64.of_Z 10;
     mTicksPerSecond := Float64.of_Z 25;
     mChannels := [one_key_channel "DEF-head"; one_key_channel "DEF-jaw"] |}.

Definition cow_scene : aiScene :=
  {| mRootNode := root_node; mAnimations := [walk; head_up] |}.

Definition cow_path : string := "cow.glb".

(** An importer that reads the cow file, and one that reads nothing. *)
Definition disk (path : string) : option aiScene :=
  if bool_decide (path = cow_path) then Some cow_scene else None.
Definition unreadable (path : string) : option aiScene := None.

(** A clip of 40 ticks whose spine channel has its last position key at
    tick 10. *)
Definition sway : aiAnimation :=
  {| mName := "Sway";
     mDuration := Float64.of_Z 40;
     mTicksPerSecond := Float64.of_Z 25;
     mChannels := [two_key_channel "DEF-spine";
                   one_key_channel "DEF-head"] |}.

Definition sway_scene : aiScene :=
  {| mRootNode := root_node; mAnimations := [sway] |}.
End Sample.

(** ** Sequences of clip loads against one model *)

Section Loads.
Context `{Glm}.

(** A load request: the importer at the time of the call, the path and
    the index handed to the constructor of [Animation]. *)
Record request := {
  importer : string → option aiScene;
  path : string;
  clip_index : Z;
}.

(** The requests served in turn, each on the model the previous one left;
    the objects constructed, in order, and the model at the end. *)
Fixpoint load_all (reqs : list request) (model : AnimatedModel.t)
    : option (list Animation.object * AnimatedModel.t) :=
  match reqs with
  | [] => Some ([], model)
  | r :: rest =>
      '(obj, model) ←
        Animation.Animation (importer r) (path r) model (clip_index r);
      '(objs, model) ← load_all rest model;
      Some (obj :: objs, model)
  end.

(** The identifiers of a table are exactly [0 .. counter - 1], one name
    each. *)
Definition dense (table : gmap string AnimatedModel.BoneInfo) (counter : Z)
    : Prop :=
  0 ≤ counter
  ∧ (∀ name info, table !! name = Some info →
                  0 ≤ AnimatedModel.id info < counter)
  ∧ (∀ i, 0 ≤ i < counter →
          ∃ name info, table !! name = Some info ∧ AnimatedModel.id info = i)
  ∧ (∀ name1 name2 info1 info2,
       table !! name1 = Some info1 → table !! name2 = Some info2 →
       AnimatedModel.id info1 = AnimatedModel.id info2 → name1 = name2).

Definition dense_ids (model : AnimatedModel.t) : Prop :=
  dense (AnimatedModel.boneInfoMap model) (AnimatedModel.boneCounter model).

(** [table'] with [counter'] continues [table] with [counter]: every entry
    is kept as it is, and every further entry has the identity offset and
    an identifier allotted from [counter] on. *)
Definition continues (table : gmap string AnimatedModel.BoneInfo)
    (counter : Z) (table' : gmap string AnimatedModel.BoneInfo)
    (counter' : Z) : Prop :=
  table ⊆ table'
  ∧ counter ≤ counter'
  ∧ (∀ name info, table' !! name = Some info → table !! name = None →
                  AnimatedModel.offset info = mat4_identity
                  ∧ counter ≤ AnimatedModel.id info < counter').

(** The clips among the constructed objects. *)
Definition clips (objs : list Animation.object) : list Animation.t :=
  omap (λ o, match o with
             | Animation.Populated a => Some a
             | Animation.Unpopulated => None
             end) objs.
End Loads.

(** The walk clip and then the head clip, loaded from the cow file. *)
Definition two_loads : list request :=
  [ {| importer := Sample.disk; path := Sample.cow_path; clip_index := 0 |};
    {| importer := Sample.disk; path := Sample.cow_path; clip_index := 1 |} ].

(** ** A stage: two clips and an animator *)

Module Stage.
Definition blank_clip : Animation.t (H := Symbolic.glm) :=
  {| Animation.duration := Float32.zero;
     Animation.ticksPerSecond := 0;
     Animation.boneCount := 0;
     Animation.name := "";
     Animation.bones := [];
     Animation.rootNode := Animation.Node Symbolic.Identity "" 0 [];
     Animation.boneInfoMap := ∅ |}.

(** The clips of [two_loads] on a new model: the walk clip at address 0,
    the head clip at address 1. *)
Definition loaded_clips : list (Animation.t (H := Symbolic.glm)) :=
  match load_all two_loads AnimatedModel.AnimatedModel with
  | Some (objs, _) => clips objs
  | None => []
  end.

Definition store (a : addr) : Animation.t (H := Symbolic.glm) :=
  default blank_clip (loaded_clips !! N.to_nat a).

Definition walk_clip : addr := 0%N.
Definition head_clip : addr := 1%N.

(** An animator playing the walk clip, its output array sized for the
    three bones of that clip. *)
Definition walking : Animator.t (H := Symbolic.glm) :=
  {| Animator.finalBoneMatrices := replicate 3 Symbolic.Identity;
     Animator.boneOverrides := ∅;
     Animator.layers := ∅;
     Animator.currentAnimation := Some walk_clip;
     Animator.currentTime := Float32.zero;
     Animator.deltaTime := Float32.zero |}.

(** The same with the head clip as a one-shot on the head layer. *)
Definition nodding : Animator.t (H := Symbolic.glm) :=
  Animator.PlayAnimationOnLayer_looping walking (Some head_clip) HEAD false.

(** The same with the head clip looping on the head layer. *)
Definition nodding_on : Animator.t (H := Symbolic.glm) :=
  Animator.PlayAnimationOnLayer_looping walking (Some head_clip) HEAD true.

(** The bind transform of a node, here left as the identity. *)
Definition bind : mat4 (Glm := Symbolic.glm) := Symbolic.Identity.

(** A frame time of 0.8 s and one of 0.2 s. *)
Definition long_frame : float := Float32.of_frac 4 5.
Definition short_frame : float := Float32.of_frac 1 5.

(** The walking animator with the head bone pushed by a translation. *)
Definition push : mat4 (Glm := Symbolic.glm) :=
  Symbolic.Translate Symbolic.Identity
    (Symbolic.V3 (Float32.of_Z 1) (Float32.of_Z 1) (Float32.of_Z 1)).
Definition pushed : Animator.t (H := Symbolic.glm) :=
  Animator.SetBoneOverride walking 1 push.

(** The local transform of a bone of [Sample.one_key_channel]. *)
Definition one_key_local : mat4 (Glm := Symbolic.glm) :=
  Symbolic.Mul
    (Symbolic.Mul
       (Symbolic.Translate Symbolic.Identity
          (AssimpGLMHelpers.GetGLMVec Sample.origin))
       (Symbolic.Cast
          (Symbolic.Normalize
             (AssimpGLMHelpers.GetGLMQuat Sample.no_rotation))))
    (Symbolic.Scale Symbolic.Identity
       (AssimpGLMHelpers.GetGLMVec Sample.unit_scale)).

(** An animator playing the head clip alone, its output array sized for
    the four bones of the model. *)
Definition nod_only : Animator.t (H := Symbolic.glm) :=
  {| Animator.finalBoneMatrices := replicate 4 Symbolic.Identity;
     Animator.boneOverrides := ∅;
     Animator.layers := ∅;
     Animator.currentAnimation := Some head_clip;
     Animator.currentTime := Float32.zero;
     Animator.deltaTime := Float32.zero |}.

(** An animator with the output array of the walking one and no clip. *)
Definition resting : Animator.t (H := Symbolic.glm) :=
  {| Animator.finalBoneMatrices := replicate 3 Symbolic.Identity;
     Animator.boneOverrides := ∅;
     Animator.layers := ∅;
     Animator.currentAnimation := None;
     Animator.currentTime := Float32.zero;
     Animator.deltaTime := Float32.zero |}.

(** An object with the walk clip, the clip at address 1 as its idle clip,
    and an animator: walking, or without a clip. *)
Definition cow (this : Animator.t (H := Symbolic.glm))
    : Scene.AnimatedObject (H := Symbolic.glm) :=
  {| Scene.idleAnimation := Some head_clip;
     Scene.walkAnimation := Some walk_clip;
     Scene.runAnimation := None;
     Scene.animator := Some this |}.

(** A session: a head clip on its layer, a tick, a change of the main
    clip, a tick. *)
Definition session : list (Session.call (H := Symbolic.glm)) :=
  [Session.PlayAnimationOnLayer_looping (Some head_clip) HEAD false;
   Session.UpdateAnimation short_frame;
   Session.PlayAnimation (Some head_clip);
   Session.UpdateAnimation short_frame].

(** The sway clip, loaded on a new model, at every address of its own
    store. *)
Definition sway_store (a : addr) : Animation.t (H := Symbolic.glm) :=
  match Animation.Animation (λ _, Some Sample.sway_scene) "sway.glb"
          AnimatedModel.AnimatedModel 0 with
  | Some (Animation.Populated clip, _) => clip
  | _ => blank_clip
  end.

(** An animator playing the sway clip, with the same clip as a one-shot
    on the head layer. *)
Definition swaying : Animator.t (H := Symbolic.glm) :=
  {| Animator.finalBoneMatrices := replicate 2 Symbolic.Identity;
     Animator.boneOverrides := ∅;
     Animator.layers :=
       {[HEAD := {| LayerInfo.animation := Some 0%N;
                    LayerInfo.currentTime := Float32.zero;
                    LayerInfo.active := true;
                    LayerInfo.looping := false |}]};
     Animator.currentAnimation := Some 0%N;
     Animator.currentTime := Float32.zero;
     Animator.deltaTime := Float32.zero |}.
End Stage.

(** * Properties *)

(** ** Keyframe interpolation *)

Section BoneFacts.
Context `{Glm}.

Lemma at_index_nat {A : Type} (v : list A) (i : nat) :
  at_index v (Z.of_nat i) = v !! i.
Proof.
  unfold at_index. destruct (Z.ltb_spec (Z.of_nat i) 0); [lia|].
  by rewrite Nat2Z.id.
Qed.

Lemma at_index_past_end {A : Type} (v : list A) (i : Z) :
  Z.of_nat (length v) ≤ i → at_index v i = None.
Proof.
  intros Hi. unfold at_index. destruct (Z.ltb_spec i 0); [done|].
  apply lookup_ge_None. lia.
Qed.

Lemma at_index_Some_range {A : Type} (v : list A) (i : Z) (x : A) :
  at_index v i = Some x → 0 ≤ i < Z.of_nat (length v).
Proof.
  unfold at_index. destruct (Z.ltb_spec i 0); [done|].
  intros Hx%lookup_lt_Some. lia.
Qed.

Lemma at_index_in_range {A : Type} (v : list A) (i : Z) :
  0 ≤ i < Z.of_nat (length v) → is_Some (at_index v i).
Proof.
  intros Hi. unfold at_index. destruct (Z.ltb_spec i 0); [lia|].
  apply lookup_lt_is_Some_2. lia.
Qed.

(** When no key after the first lies beyond the query time, the loop runs
    to its end and answers [n - 1]. *)
Lemma scan_exhausted {K : Type} (stamp : K → float) (v : list K)
    (t : float) (n : Z) (idxs : list Z) :
  (∀ i, i ∈ idxs → 0 ≤ i ∧ i + 1 < Z.of_nat (length v)) →
  (∀ (i : nat) k, (1 ≤ i)%nat → v !! i = Some k → ltb t (stamp k) = false) →
  Bone.scan stamp v t idxs n = Some (n - 1).
Proof.
  intros Hidx Hlate. induction idxs as [|i rest IH]; [done|].
  destruct (Hidx i) as [Hi0 Hi1]; [by left|].
  cbn [Bone.scan].
  destruct (lookup_lt_is_Some_2 v (Z.to_nat (i + 1))) as [k Hk]; [lia|].
  assert (at_index v (i + 1) = Some k) as ->.
  { unfold at_index. destruct (Z.ltb_spec (i + 1) 0); [lia|done]. }
  cbn. rewrite (Hlate (Z.to_nat (i + 1)) k); [|lia|done].
  apply IH. intros j Hj. apply Hidx. by right.
Qed.

(** The answer of the loop is one of the indices it visits or [n - 1]. *)
Lemma scan_result {K : Type} (stamp : K → float) (v : list K)
    (t : float) (n : Z) (idxs : list Z) (i : Z) :
  Bone.scan stamp v t idxs n = Some i →
  (i ∈ idxs ∧ ∃ k, at_index v (i + 1) = Some k ∧ ltb t (stamp k) = true)
  ∨ i = n - 1.
Proof.
  induction idxs as [|j rest IH]; cbn [Bone.scan].
  - intros [= <-]. by right.
  - destruct (at_index v (j + 1)) as [k|] eqn:Hk; [|done]. cbn.
    destruct (ltb t (stamp k)) eqn:Hlt.
    + intros [= <-]. left. split; [by left|eauto].
    + intros [[Hin Hex]| ->]%IH; [left|by right].
      split; [by right|done].
Qed.

Lemma seqZ_range (n i : Z) : i ∈ seqZ 0 (n - 1) → 0 ≤ i ∧ i + 1 < n.
Proof. rewrite elem_of_seqZ. lia. Qed.
End BoneFacts.

Section Interpolation.
Context `{Glm}.

Lemma positions_lookup (nm : string) (id : Z) (ch : aiNodeAnim) (i : nat) :
  Bone.positions (Bone.Bone nm id ch) !! i
  = (λ k, {| Bone.position := AssimpGLMHelpers.GetGLMVec (vk_mValue k);
             Bone.kp_timeStamp := to_float (vk_mTime k) |})
    <$> mPositionKeys ch !! i.
Proof. cbn. by rewrite list_lookup_fmap. Qed.

Lemma rotations_lookup (nm : string) (id : Z) (ch : aiNodeAnim) (i : nat) :
  Bone.rotations (Bone.Bone nm id ch) !! i
  = (λ k, {| Bone.orientation := AssimpGLMHelpers.GetGLMQuat (qk_mValue k);
             Bone.kr_timeStamp := to_float (qk_mTime k) |})
    <$> mRotationKeys ch !! i.
Proof. cbn. by rewrite list_lookup_fmap. Qed.

Lemma scales_lookup (nm : string) (id : Z) (ch : aiNodeAnim) (i : nat) :
  Bone.scales (Bone.Bone nm id ch) !! i
  = (λ k, {| Bone.kscale := AssimpGLMHelpers.GetGLMVec (vk_mValue k);
             Bone.ks_timeStamp := to_float (vk_mTime k) |})
    <$> mScalingKeys ch !! i.
Proof. cbn. by rewrite list_lookup_fmap. Qed.

(** C1. Bone::GetPositionIndex answers [n - 1] when the query time is not
    below any time stamp after the first, so that on a channel of [n >= 2]
    position keys Bone::InterpolatePosition brackets with the pair
    [(n - 1, n)]: the second read, at index [n], is outside [0, n) and the
    interpolation is undefined.  The final pair [(n - 2, n - 1)] that the
    specification names is not the pair the code reads. *)
Theorem position_past_last_key_reads_out_of_range
    (nm : string) (id : Z) (ch : aiNodeAnim) (t : float) :
  2 ≤ mNumPositionKeys ch →
  (∀ (i : nat) k, (1 ≤ i)%nat → mPositionKeys ch !! i = Some k →
                  ltb t (to_float (vk_mTime k)) = false) →
  let b := Bone.Bone nm id ch in
  let n := mNumPositionKeys ch in
  Bone.GetPositionIndex b t = Some (n - 1)
  ∧ at_index (Bone.positions b) (n - 1 + 1) = None
  ∧ Bone.InterpolatePosition b t = None
  ∧ Bone.Update b t = None.
Proof.
  intros Hn Hlate b n.
  assert (Z.of_nat (length (Bone.positions b)) = n) as Hlen.
  { subst b n. cbn. by rewrite length_map. }
  assert (Bone.GetPositionIndex b t = Some (n - 1)) as Hidx.
  { unfold Bone.GetPositionIndex. apply scan_exhausted.
    - intros i Hi%seqZ_range. subst b; cbn in *. rewrite length_map.
      unfold mNumPositionKeys in *. lia.
    - intros i k Hi. subst b. rewrite positions_lookup.
      destruct (mPositionKeys ch !! i) as [k'|] eqn:Hk; [|done].
      intros [= <-]. cbn. by eapply Hlate. }
  assert (at_index (Bone.positions b) (n - 1 + 1) = None) as Hpast.
  { apply at_index_past_end. lia. }
  assert (Bone.InterpolatePosition b t = None) as Hpos.
  { unfold Bone.InterpolatePosition.
    replace (Bone.numPositions b) with n by done.
    destruct (Z.eqb_spec n 1); [lia|].
    rewrite Hidx. clearbody n b. cbn. rewrite Hpast.
    by destruct (at_index (Bone.positions b) (n - 1)). }
  repeat split; try done.
  unfold Bone.Update. by rewrite Hpos.
Qed.

(** The same loop serves the rotation and the scaling track. *)
Lemma rotation_past_last_key_reads_out_of_range
    (nm : string) (id : Z) (ch : aiNodeAnim) (t : float) :
  2 ≤ mNumRotationKeys ch →
  (∀ (i : nat) k, (1 ≤ i)%nat → mRotationKeys ch !! i = Some k →
                  ltb t (to_float (qk_mTime k)) = false) →
  let b := Bone.Bone nm id ch in
  Bone.GetRotationIndex b t = Some (mNumRotationKeys ch - 1)
  ∧ Bone.InterpolateRotation b t = None.
Proof.
  intros Hn Hlate b. set (n := mNumRotationKeys ch) in *.
  assert (Z.of_nat (length (Bone.rotations b)) = n) as Hlen.
  { subst b n. cbn. by rewrite length_map. }
  assert (Bone.GetRotationIndex b t = Some (n - 1)) as Hidx.
  { unfold Bone.GetRotationIndex. apply scan_exhausted.
    - intros i Hi%seqZ_range. subst b; cbn in *. rewrite length_map.
      unfold n, mNumRotationKeys in *. lia.
    - intros i k Hi. subst b. rewrite rotations_lookup.
      destruct (mRotationKeys ch !! i) as [k'|] eqn:Hk; [|done].
      intros [= <-]. cbn. by eapply Hlate. }
  split; [done|].
  unfold Bone.InterpolateRotation.
  replace (Bone.numRotations b) with n by done.
  destruct (Z.eqb_spec n 1); [lia|].
  rewrite Hidx. clearbody n b. cbn.
  rewrite (at_index_past_end (Bone.rotations b) (n - 1 + 1)); [|lia].
  by destruct (at_index (Bone.rotations b) (n - 1)).
Qed.

Lemma scaling_past_last_key_reads_out_of_range
    (nm : string) (id : Z) (ch : aiNodeAnim) (t : float) :
  2 ≤ mNumScalingKeys ch →
  (∀ (i : nat) k, (1 ≤ i)%nat → mScalingKeys ch !! i = Some k →
                  ltb t (to_float (vk_mTime k)) = false) →
  let b := Bone.Bone nm id ch in
  Bone.GetScaleIndex b t = Some (mNumScalingKeys ch - 1)
  ∧ Bone.InterpolateScaling b t = None.
Proof.
  intros Hn Hlate b. set (n := mNumScalingKeys ch) in *.
  assert (Z.of_nat (length (Bone.scales b)) = n) as Hlen.
  { subst b n. cbn. by rewrite length_map. }
  assert (Bone.GetScaleIndex b t = Some (n - 1)) as Hidx.
  { unfold Bone.GetScaleIndex. apply scan_exhausted.
    - intros i Hi%seqZ_range. subst b; cbn in *. rewrite length_map.
      unfold n, mNumScalingKeys in *. lia.
    - intros i k Hi. subst b. rewrite scales_lookup.
      destruct (mScalingKeys ch !! i) as [k'|] eqn:Hk; [|done].
      intros [= <-]. cbn. by eapply Hlate. }
  split; [done|].
  unfold Bone.InterpolateScaling.
  replace (Bone.numScalings b) with n by done.
  destruct (Z.eqb_spec n 1); [lia|].
  rewrite Hidx. clearbody n b. cbn.
  rewrite (at_index_past_end (Bone.scales b) (n - 1 + 1)); [|lia].
  by destruct (at_index (Bone.scales b) (n - 1)).
Qed.

(** When some key after the first lies beyond the query time, the search
    stops on a pair [(i, i + 1)] inside the track and the interpolation is
    defined. *)
Lemma position_bracket_found
    (nm : string) (id : Z) (ch : aiNodeAnim) (t : float) (j : nat) k :
  (1 ≤ j)%nat → mPositionKeys ch !! j = Some k →
  ltb t (to_float (vk_mTime k)) = true →
  let b := Bone.Bone nm id ch in
  ∃ i, Bone.GetPositionIndex b t = Some i
       ∧ 0 ≤ i ∧ i + 1 < mNumPositionKeys ch
       ∧ is_Some (Bone.InterpolatePosition b t).
Proof.
  intros Hj Hk Hlt b.
  pose proof (lookup_lt_Some _ _ _ Hk) as Hjn.
  assert (Z.of_nat (length (Bone.positions b)) = mNumPositionKeys ch) as Hlen.
  { subst b. cbn. by rewrite length_map. }
  assert (∀ idxs : list Z,
            (∀ i, i ∈ idxs → 0 ≤ i ∧ i + 1 < mNumPositionKeys ch) →
            Z.of_nat j - 1 ∈ idxs →
            ∃ i, Bone.scan Bone.kp_timeStamp (Bone.positions b) t idxs
                           (Bone.numPositions b) = Some i ∧ i ∈ idxs) as Hscan.
  { induction idxs as [|i rest IH]; intros Hr Hin; [by inversion Hin|].
    destruct (Hr i) as [Hi0 Hi1]; [by left|]. cbn [Bone.scan].
    destruct (lookup_lt_is_Some_2 (Bone.positions b) (Z.to_nat (i + 1)))
      as [ki Hki]; [lia|].
    assert (at_index (Bone.positions b) (i + 1) = Some ki) as ->.
    { unfold at_index. destruct (Z.ltb_spec (i + 1) 0); [lia|done]. }
    cbn. destruct (ltb t (Bone.kp_timeStamp ki)) eqn:Hlti.
    - exists i. split; [done|by left].
    - apply elem_of_cons in Hin as [Heq|Hin].
      + exfalso. subst i. replace (Z.to_nat (Z.of_nat j - 1 + 1)) with j in Hki
          by lia.
        subst b. rewrite positions_lookup, Hk in Hki. injection Hki as <-.
        cbn in Hlti. congruence.
      + destruct IH as (i' & Hi' & Hin'); [intros; apply Hr; by right|done|].
        exists i'. split; [done|by right]. }
  destruct (Hscan (seqZ 0 (mNumPositionKeys ch - 1))) as (i & Hi & Hin).
  { intros i. apply seqZ_range. }
  { apply elem_of_seqZ. unfold mNumPositionKeys. lia. }
  apply seqZ_range in Hin as [Hi0 Hi1].
  assert (Bone.GetPositionIndex b t = Some i) as Hidx by exact Hi.
  exists i. repeat split; try done.
  unfold Bone.InterpolatePosition.
  replace (Bone.numPositions b) with (mNumPositionKeys ch) by done.
  destruct (Z.eqb_spec (mNumPositionKeys ch) 1); [lia|].
  rewrite Hidx. clearbody b. cbn.
  destruct (lookup_lt_is_Some_2 (Bone.positions b) (Z.to_nat i))
    as [ki Hki]; [lia|].
  destruct (lookup_lt_is_Some_2 (Bone.positions b) (Z.to_nat (i + 1)))
    as [kj Hkj]; [lia|].
  unfold at_index.
  destruct (Z.ltb_spec i 0); [lia|]. destruct (Z.ltb_spec (i + 1) 0); [lia|].
  rewrite Hki, Hkj. by eexists.
Qed.

(** C9. On a track with exactly one key the interpolation returns that
    key's value as a transform, for every query time: the translation by
    the position, the rotation matrix of the (normalised) orientation, the
    scaling by the scale. *)
Theorem single_key_ignores_time
    (nm nodeName : string) (id : Z) (pk sk : aiVectorKey) (rk : aiQuatKey)
    (pks sks : list aiVectorKey) (rks : list aiQuatKey) (t : float) :
  Bone.InterpolatePosition
    (Bone.Bone nm id {| mNodeName := nodeName; mPositionKeys := [pk];
                        mRotationKeys := rks; mScalingKeys := sks |}) t
  = Some (translate mat4_identity (AssimpGLMHelpers.GetGLMVec (vk_mValue pk)))
  ∧ Bone.InterpolateRotation
      (Bone.Bone nm id {| mNodeName := nodeName; mPositionKeys := pks;
                          mRotationKeys := [rk]; mScalingKeys := sks |}) t
    = Some (mat4_cast
              (normalize (AssimpGLMHelpers.GetGLMQuat (qk_mValue rk))))
  ∧ Bone.InterpolateScaling
      (Bone.Bone nm id {| mNodeName := nodeName; mPositionKeys := pks;
                          mRotationKeys := rks; mScalingKeys := [sk] |}) t
    = Some (scale mat4_identity (AssimpGLMHelpers.GetGLMVec (vk_mValue sk))).
Proof. done. Qed.

(** With one key on each track the local transform is the same product at
    every time. *)
Lemma single_key_Update
    (nm nodeName : string) (id : Z) (pk sk : aiVectorKey) (rk : aiQuatKey)
    (t : float) :
  Bone.Update
    (Bone.Bone nm id {| mNodeName := nodeName; mPositionKeys := [pk];
                        mRotationKeys := [rk]; mScalingKeys := [sk] |}) t
  = Some (translate mat4_identity (AssimpGLMHelpers.GetGLMVec (vk_mValue pk))
          × mat4_cast (normalize (AssimpGLMHelpers.GetGLMQuat (qk_mValue rk)))
          × scale mat4_identity (AssimpGLMHelpers.GetGLMVec (vk_mValue sk))).
Proof. done. Qed.
End Interpolation.

Lemma position_past_last_key_reads_out_of_range_witness :
  2 ≤ mNumPositionKeys (Sample.two_key_channel "DEF-spine")
  ∧ Bone.GetPositionIndex
      (Bone.Bone "DEF-spine" 0 (Sample.two_key_channel "DEF-spine"))
      (Float32.of_Z 10) = Some 1
  ∧ Bone.InterpolatePosition
      (Bone.Bone "DEF-spine" 0 (Sample.two_key_channel "DEF-spine"))
      (Float32.of_Z 10) = @None (@mat4 Symbolic.glm).
Proof.
  split; [by vm_compute|].
  destruct (position_past_last_key_reads_out_of_range
              (H := Symbolic.glm)
              "DEF-spine" 0 (Sample.two_key_channel "DEF-spine")
              (Float32.of_Z 10)) as (Hidx & _ & Hpos & _).
  - by vm_compute.
  - intros [|[|[|i]]] k Hi; [lia| | |]; intros [= <-]; reflexivity.
  - split; [exact Hidx|exact Hpos].
Defined.

(** ** Clip loading *)

Section LoaderFacts.
Context `{Glm}.

Lemma Animation_unreadable (ReadFile : string → option aiScene)
    (animationPath : string) (model : AnimatedModel.t) (animationIndex : Z) :
  ReadFile animationPath = None →
  Animation.Animation ReadFile animationPath model animationIndex
  = Some (Animation.Unpopulated, model).
Proof. intros Hr. unfold Animation.Animation. by rewrite Hr. Qed.

Lemma Animation_rejected (ReadFile : string → option aiScene)
    (animationPath : string) (model : AnimatedModel.t) (animationIndex : Z)
    (scene : aiScene) :
  ReadFile animationPath = Some scene →
  HasAnimations scene = false
  ∨ mNumAnimations scene ≤ to_unsigned animationIndex →
  Animation.Animation ReadFile animationPath model animationIndex
  = Some (Animation.Unpopulated, model).
Proof.
  intros Hr Hbad. unfold Animation.Animation. rewrite Hr.
  destruct Hbad as [->|Hle]; [done|].
  apply Z.leb_le in Hle. rewrite Hle. by rewrite orb_true_r.
Qed.

(** A name that the catalog does not hold yields [nullptr]. *)
Lemma LoadAnimation_unknown_name (ReadFile : string → option aiScene)
    (this : AnimationLoader.t) (model : AnimatedModel.t) (name : string) :
  AnimationLoader.FindAnimationIndex this name = -1 →
  AnimationLoader.LoadAnimation ReadFile this model name = Some (None, model).
Proof. intros Hi. unfold AnimationLoader.LoadAnimation. by rewrite Hi. Qed.

(** C2. When the catalog holds the name and the load behind it fails (the
    file cannot be read, holds no animation, or the index is out of
    range), AnimationLoader::LoadAnimation does not return [nullptr]: it
    returns the object that the constructor of [Animation] left at its
    early [return], none of whose members was assigned. *)
Theorem LoadAnimation_failed_load_is_not_null
    (ReadFile : string → option aiScene) (this : AnimationLoader.t)
    (model : AnimatedModel.t) (name : string) :
  AnimationLoader.FindAnimationIndex this name ≠ -1 →
  (ReadFile (AnimationLoader.modelPath this) = None
   ∨ ∃ scene, ReadFile (AnimationLoader.modelPath this) = Some scene
              ∧ (HasAnimations scene = false
                 ∨ mNumAnimations scene
                   ≤ to_unsigned (AnimationLoader.FindAnimationIndex this name)))
  →
  AnimationLoader.LoadAnimation ReadFile this model name
  = Some (Some Animation.Unpopulated, model).
Proof.
  intros Hfound Hfail. unfold AnimationLoader.LoadAnimation.
  destruct (Z.eqb_spec (AnimationLoader.FindAnimationIndex this name) (-1));
    [done|].
  destruct Hfail as [Hr|(scene & Hr & Hbad)].
  - by rewrite Animation_unreadable.
  - by erewrite Animation_rejected.
Qed.
End LoaderFacts.

Lemma LoadAnimation_failed_load_is_not_null_witness :
  AnimationLoader.LoadAnimation (H := Symbolic.glm) Sample.unreadable
    (AnimationLoader.AnimationLoader Sample.disk Sample.cow_path)
    AnimatedModel.AnimatedModel "Walk"
  = Some (Some Animation.Unpopulated, AnimatedModel.AnimatedModel).
Proof.
  apply (LoadAnimation_failed_load_is_not_null (H := Symbolic.glm)).
  - by vm_compute.
  - by left.
Defined.

(** ** The bone table under clip loads *)

Section TableFacts.
Context `{Glm}.

Lemma continues_refl (table : gmap string AnimatedModel.BoneInfo)
    (counter : Z) :
  continues table counter table counter.
Proof.
  split; [done|]. split; [lia|]. intros name info H1 H2. congruence.
Qed.

Lemma continues_trans (t1 t2 t3 : gmap string AnimatedModel.BoneInfo)
    (c1 c2 c3 : Z) :
  continues t1 c1 t2 c2 → continues t2 c2 t3 c3 → continues t1 c1 t3 c3.
Proof.
  intros (Hs12 & Hc12 & Hn12) (Hs23 & Hc23 & Hn23).
  split; [by etrans|]. split; [lia|].
  intros name info H3 H1.
  destruct (t2 !! name) as [info2|] eqn:H2.
  - pose proof (lookup_weaken _ _ _ _ H2 Hs23) as H3'.
    assert (info2 = info) as -> by congruence.
    destruct (Hn12 name info H2 H1). split; [done|lia].
  - destruct (Hn23 name info H3 H2). split; [done|lia].
Qed.

(** A channel whose bone the table lacks: the bone enters with the
    counter as its identifier and the identity as its offset, and the
    counter moves on by one. *)
Lemma ReadMissingBones_step_absent
    (table : gmap string AnimatedModel.BoneInfo) (counter : Z)
    (bones : list Bone.t) (channel : aiNodeAnim) :
  table !! mNodeName channel = None → counter < INT_MAX →
  Animation.ReadMissingBones_step (table, counter, bones) channel
  = Some (<[mNodeName channel :=
              {| AnimatedModel.id := counter;
                 AnimatedModel.offset := mat4_identity |}]> table,
          counter + 1,
          bones ++ [Bone.Bone (mNodeName channel) counter channel]).
Proof.
  intros Hnone Hlt. unfold Animation.ReadMissingBones_step. rewrite Hnone.
  destruct (Z.ltb_spec counter INT_MAX); [|lia].
  cbn. by rewrite lookup_insert_eq.
Qed.

(** A channel whose bone the table holds: table and counter stay, the
    bone object takes the identifier on record. *)
Lemma ReadMissingBones_step_present
    (table : gmap string AnimatedModel.BoneInfo) (counter : Z)
    (bones : list Bone.t) (channel : aiNodeAnim)
    (info : AnimatedModel.BoneInfo) :
  table !! mNodeName channel = Some info →
  Animation.ReadMissingBones_step (table, counter, bones) channel
  = Some (table, counter,
          bones ++ [Bone.Bone (mNodeName channel) (AnimatedModel.id info)
                              channel]).
Proof.
  intros Hsome. unfold Animation.ReadMissingBones_step. rewrite Hsome.
  cbn. by rewrite Hsome.
Qed.

Lemma insert_fresh_continues
    (table : gmap string AnimatedModel.BoneInfo) (counter : Z)
    (name : string) :
  table !! name = None →
  continues table counter
    (<[name := {| AnimatedModel.id := counter;
                  AnimatedModel.offset := mat4_identity |}]> table)
    (counter + 1).
Proof.
  intros Hnone. split; [by apply insert_subseteq|]. split; [lia|].
  intros name' info Hl Hn.
  destruct (decide (name = name')) as [<-|Hne].
  - rewrite lookup_insert_eq in Hl. injection Hl as <-. cbn. split; [done|lia].
  - rewrite lookup_insert_ne in Hl by done. congruence.
Qed.

Lemma insert_fresh_dense
    (table : gmap string AnimatedModel.BoneInfo) (counter : Z)
    (name : string) (offset : mat4) :
  table !! name = None →
  dense table counter →
  dense (<[name := {| AnimatedModel.id := counter;
                      AnimatedModel.offset := offset |}]> table)
        (counter + 1).
Proof.
  intros Hnone (Hpos & Hrange & Hall & Hinj).
  split; [lia|]. split; [|split].
  - intros name' info Hl.
    destruct (decide (name = name')) as [<-|Hne].
    + rewrite lookup_insert_eq in Hl. injection Hl as <-. cbn. lia.
    + rewrite lookup_insert_ne in Hl by done.
      apply Hrange in Hl. lia.
  - intros i Hi. destruct (decide (i = counter)) as [->|Hne].
    + eexists name, _. by rewrite lookup_insert_eq.
    + destruct (Hall i) as (name' & info & Hl & Hid); [lia|].
      exists name', info. split; [|done].
      rewrite lookup_insert_ne; [done|]. intros <-. congruence.
  - intros n1 n2 i1 i2 H1 H2 Heq.
    destruct (decide (name = n1)) as [<-|Hne1];
      destruct (decide (name = n2)) as [<-|Hne2]; [done| | |].
    + rewrite lookup_insert_eq in H1. injection H1 as <-.
      rewrite lookup_insert_ne in H2 by done.
      apply Hrange in H2. cbn in Heq. lia.
    + rewrite lookup_insert_eq in H2. injection H2 as <-.
      rewrite lookup_insert_ne in H1 by done.
      apply Hrange in H1. cbn in Heq. lia.
    + rewrite lookup_insert_ne in H1, H2 by done. by eapply Hinj.
Qed.

Lemma ReadMissingBones_step_continues
    (table table' : gmap string AnimatedModel.BoneInfo) (counter counter' : Z)
    (bones bones' : list Bone.t) (channel : aiNodeAnim) :
  Animation.ReadMissingBones_step (table, counter, bones) channel
  = Some (table', counter', bones') →
  continues table counter table' counter'
  ∧ (dense table counter → dense table' counter').
Proof.
  destruct (table !! mNodeName channel) as [info|] eqn:Hl.
  - rewrite (ReadMissingBones_step_present _ _ _ _ _ Hl).
    intros [= <- <- <-]. split; [apply continues_refl|done].
  - unfold Animation.ReadMissingBones_step. rewrite Hl.
    destruct (Z.ltb_spec counter INT_MAX); [|done].
    cbn. rewrite lookup_insert_eq. cbn.
    intros [= <- <- <-].
    split; [by apply insert_fresh_continues|by apply insert_fresh_dense].
Qed.

Lemma ReadMissingBones_loop_continues (channels : list aiNodeAnim)
    (table table' : gmap string AnimatedModel.BoneInfo) (counter counter' : Z)
    (bones bones' : list Bone.t) :
  Animation.ReadMissingBones_loop channels (table, counter, bones)
  = Some (table', counter', bones') →
  continues table counter table' counter'
  ∧ (dense table counter → dense table' counter').
Proof.
  revert table counter bones.
  induction channels as [|channel rest IH]; intros table counter bones.
  - cbn. intros [= <- <- <-]. split; [apply continues_refl|done].
  - cbn [Animation.ReadMissingBones_loop].
    destruct (Animation.ReadMissingBones_step (table, counter, bones) channel)
      as [[[table1 counter1] bones1]|] eqn:Hstep; [|done].
    cbn. intros Hrest.
    apply ReadMissingBones_step_continues in Hstep as [Hc1 Hd1].
    apply IH in Hrest as [Hc2 Hd2].
    split; [by eapply continues_trans|auto].
Qed.

(** The loop is defined as long as the counter has room for one new bone
    per channel. *)
Lemma ReadMissingBones_loop_defined (channels : list aiNodeAnim)
    (table : gmap string AnimatedModel.BoneInfo) (counter : Z)
    (bones : list Bone.t) :
  counter + Z.of_nat (length channels) ≤ INT_MAX →
  is_Some (Animation.ReadMissingBones_loop channels (table, counter, bones)).
Proof.
  revert table counter bones.
  induction channels as [|channel rest IH]; intros table counter bones Hroom.
  - by eexists.
  - cbn [Animation.ReadMissingBones_loop]. cbn [length] in Hroom.
    destruct (table !! mNodeName channel) as [info|] eqn:Hl.
    + rewrite (ReadMissingBones_step_present _ _ _ _ _ Hl). cbn.
      apply IH. lia.
    + rewrite ReadMissingBones_step_absent by (done || lia). cbn.
      apply IH. lia.
Qed.

(** What one constructor call does to the model, and what the clip holds
    when the call gets past the validation. *)
Lemma Animation_continues (ReadFile : string → option aiScene)
    (animationPath : string) (model model' : AnimatedModel.t)
    (animationIndex : Z) (obj : Animation.object) :
  Animation.Animation ReadFile animationPath model animationIndex
  = Some (obj, model') →
  continues (AnimatedModel.boneInfoMap model) (AnimatedModel.boneCounter model)
            (AnimatedModel.boneInfoMap model')
            (AnimatedModel.boneCounter model')
  ∧ (dense_ids model → dense_ids model')
  ∧ (∀ a, obj = Animation.Populated a →
          Animation.boneInfoMap a = AnimatedModel.boneInfoMap model'
          ∧ Animation.boneCount a = AnimatedModel.boneCounter model').
Proof.
  unfold Animation.Animation.
  destruct (ReadFile animationPath) as [scene|].
  2:{ intros [= <- <-]. split; [apply continues_refl|]. split; [done|].
      by intros a. }
  destruct (negb (HasAnimations scene)
            || (mNumAnimations scene <=? to_unsigned animationIndex)).
  { intros [= <- <-]. split; [apply continues_refl|]. split; [done|].
    by intros a. }
  destruct (at_index (mAnimations scene) animationIndex) as [animation|];
    [|done].
  cbn [mbind option_bind].
  destruct (if negb (Float64.is_zero (mTicksPerSecond animation))
            then Float64.to_int (mTicksPerSecond animation)
            else Float32.to_int Config.DEFAULT_TICKS_PER_SECOND) as [tps|];
    [|done].
  cbn [mbind option_bind]. unfold Animation.ReadMissingBones.
  destruct (Animation.ReadMissingBones_loop (mChannels animation)
              (AnimatedModel.boneInfoMap model,
               AnimatedModel.boneCounter model, []))
    as [[[table' counter'] bones']|] eqn:Hloop; [|done].
  cbn. intros [= <- <-]. cbn.
  apply ReadMissingBones_loop_continues in Hloop as [Hc Hd].
  split; [done|]. split; [done|].
  by intros a [= <-].
Qed.

Lemma load_all_continues (reqs : list request)
    (model model' : AnimatedModel.t) (objs : list Animation.object) :
  load_all reqs model = Some (objs, model') →
  continues (AnimatedModel.boneInfoMap model) (AnimatedModel.boneCounter model)
            (AnimatedModel.boneInfoMap model')
            (AnimatedModel.boneCounter model')
  ∧ (dense_ids model → dense_ids model')
  ∧ (∀ a, a ∈ clips objs →
          Animation.boneInfoMap a ⊆ AnimatedModel.boneInfoMap model').
Proof.
  revert model objs.
  induction reqs as [|r rest IH]; intros model objs.
  - cbn. intros [= <- <-]. split; [apply continues_refl|]. split; [done|].
    intros a Ha. by apply elem_of_nil in Ha.
  - cbn [load_all].
    destruct (Animation.Animation (importer r) (path r) model (clip_index r))
      as [[obj model1]|] eqn:Hone; [|done].
    cbn [mbind option_bind].
    destruct (load_all rest model1) as [[objs1 model2]|] eqn:Hrest; [|done].
    cbn. intros [= <- <-].
    apply Animation_continues in Hone as (Hc1 & Hd1 & Hsnap).
    apply IH in Hrest as (Hc2 & Hd2 & Hin).
    split; [by eapply continues_trans|]. split; [auto|].
    intros a Ha. unfold clips in Ha. destruct obj as [a0|]; cbn in Ha.
    + apply elem_of_cons in Ha as [->|Ha]; [|by apply Hin].
      destruct (Hsnap a0 eq_refl) as [-> _]. apply Hc2.
    + by apply Hin.
Qed.

(** Every bone the loop appends is on record in the table the loop leaves,
    under the identifier the bone object carries, and every channel gets
    its bone. *)
Lemma ReadMissingBones_loop_registered (channels : list aiNodeAnim)
    (table table' : gmap string AnimatedModel.BoneInfo) (counter counter' : Z)
    (bones bones' : list Bone.t) :
  Animation.ReadMissingBones_loop channels (table, counter, bones)
  = Some (table', counter', bones') →
  (∀ bone, bone ∈ bones →
           ∃ info, table !! Bone.GetBoneName bone = Some info
                   ∧ AnimatedModel.id info = Bone.GetBoneID bone) →
  (∀ bone, bone ∈ bones' →
           ∃ info, table' !! Bone.GetBoneName bone = Some info
                   ∧ AnimatedModel.id info = Bone.GetBoneID bone)
  ∧ (∀ channel, channel ∈ channels →
                ∃ bone, bone ∈ bones'
                        ∧ Bone.GetBoneName bone = mNodeName channel)
  ∧ (∀ bone, bone ∈ bones → bone ∈ bones').
Proof.
  revert table counter bones.
  induction channels as [|channel rest IH]; intros table counter bones.
  - cbn. intros [= <- <- <-] Hreg. split; [done|]. split; [|done].
    intros channel Hin. by apply elem_of_nil in Hin.
  - cbn [Animation.ReadMissingBones_loop].
    destruct (Animation.ReadMissingBones_step (table, counter, bones) channel)
      as [[[table1 counter1] bones1]|] eqn:Hstep; [|done].
    cbn [mbind option_bind]. intros Hrest Hreg.
    pose proof (ReadMissingBones_step_continues _ _ _ _ _ _ _ Hstep)
      as [(Hsub & _ & _) _].
    assert (∃ info, table1 !! mNodeName channel = Some info
                    ∧ bones1 = bones ++ [Bone.Bone (mNodeName channel)
                                           (AnimatedModel.id info) channel])
      as (info & Hinfo & ->).
    { revert Hstep. unfold Animation.ReadMissingBones_step.
      destruct (table !! mNodeName channel) as [info0|] eqn:Hl.
      - cbn [mbind option_bind]. rewrite Hl. cbn [mbind option_bind].
        intros [= <- _ <-]. by exists info0.
      - destruct (counter <? INT_MAX); [|done]. cbn [mbind option_bind].
        rewrite lookup_insert_eq. cbn [mbind option_bind].
        intros [= <- _ <-]. eexists. split; [apply lookup_insert_eq|done]. }
    destruct (IH _ _ _ Hrest) as (Hreg' & Hchan & Hkeep).
    { intros bone [Hin|Hin]%elem_of_app.
      - destruct (Hreg bone Hin) as (info0 & Hl0 & Hid0).
        exists info0. split; [by eapply lookup_weaken|done].
      - apply list_elem_of_singleton in Hin as ->. by exists info. }
    split; [done|]. split.
    + intros channel' [->|Hin]%elem_of_cons; [|by apply Hchan].
      eexists. split; [apply Hkeep, elem_of_app; right; by left|done].
    + intros bone Hin. apply Hkeep, elem_of_app. by left.
Qed.

(** A populated clip references its bones through its own snapshot: every
    bone object is on record there under its identifier, and every channel
    of the source animation has its bone. *)
Lemma Animation_registered (ReadFile : string → option aiScene)
    (animationPath : string) (model model' : AnimatedModel.t)
    (animationIndex : Z) (a : Animation.t) :
  Animation.Animation ReadFile animationPath model animationIndex
  = Some (Animation.Populated a, model') →
  (∀ bone, bone ∈ Animation.bones a →
           ∃ info, Animation.boneInfoMap a !! Bone.GetBoneName bone
                   = Some info
                   ∧ AnimatedModel.id info = Bone.GetBoneID bone)
  ∧ (∀ scene animation channel,
       ReadFile animationPath = Some scene →
       at_index (mAnimations scene) animationIndex = Some animation →
       channel ∈ mChannels animation →
       ∃ bone, bone ∈ Animation.bones a
               ∧ Bone.GetBoneName bone = mNodeName channel).
Proof.
  unfold Animation.Animation.
  destruct (ReadFile animationPath) as [scene|] eqn:Hr; [|done].
  destruct (negb (HasAnimations scene) || _); [done|].
  destruct (at_index (mAnimations scene) animationIndex) as [animation|]
    eqn:Hat; [|done].
  cbn [mbind option_bind].
  destruct (if negb (Float64.is_zero (mTicksPerSecond animation))
            then Float64.to_int (mTicksPerSecond animation)
            else Float32.to_int Config.DEFAULT_TICKS_PER_SECOND)
    as [tps|]; [|done].
  cbn [mbind option_bind]. unfold Animation.ReadMissingBones.
  destruct (Animation.ReadMissingBones_loop (mChannels animation)
              (AnimatedModel.boneInfoMap model,
               AnimatedModel.boneCounter model, []))
    as [[[table' counter'] bones']|] eqn:Hloop; [|done].
  cbn. intros [= <- <-]. cbn.
  apply ReadMissingBones_loop_registered in Hloop as (Hreg & Hchan & _).
  - split; [done|]. intros scene' animation' channel [= <-] Hat'.
    rewrite Hat in Hat'. injection Hat' as <-. apply Hchan.
  - intros bone Hin. by apply elem_of_nil in Hin.
Qed.

(** The load that constructed the object at a given place of the
    sequence: the requests before it, its own constructor call, and the
    requests after it. *)
Lemma load_all_lookup (reqs : list request)
    (model model' : AnimatedModel.t) (objs : list Animation.object)
    (i : nat) (obj : Animation.object) :
  load_all reqs model = Some (objs, model') →
  objs !! i = Some obj →
  ∃ r before after,
    reqs !! i = Some r
    ∧ load_all (take i reqs) model = Some (take i objs, before)
    ∧ Animation.Animation (importer r) (path r) before (clip_index r)
      = Some (obj, after)
    ∧ load_all (drop (S i) reqs) after = Some (drop (S i) objs, model').
Proof.
  revert model objs i.
  induction reqs as [|r rest IH]; intros model objs i.
  - cbn. intros [= <- <-] Hi. by rewrite lookup_nil in Hi.
  - cbn [load_all].
    destruct (Animation.Animation (importer r) (path r) model (clip_index r))
      as [[obj0 model1]|] eqn:Hone; [|done].
    cbn [mbind option_bind].
    destruct (load_all rest model1) as [[objs1 model2]|] eqn:Hrest; [|done].
    cbn. intros [= <- <-]. destruct i as [|i]; cbn.
    + intros [= <-]. exists r, model, model1. rewrite !drop_0. by repeat split.
    + intros Hi.
      destruct (IH _ _ _ Hrest Hi)
        as (r' & before & after & Hr & Hpre & Hc & Hpost).
      exists r', before, after. split; [done|]. split; [|done].
      rewrite Hone. cbn. by rewrite Hpre.
Qed.

Lemma clips_lookup (objs : list Animation.object) (a : Animation.t) :
  a ∈ clips objs ↔ ∃ i, objs !! i = Some (Animation.Populated a).
Proof.
  unfold clips. rewrite list_elem_of_omap. split.
  - intros (obj & Hin & Hobj). destruct obj as [a0|]; [|done].
    injection Hobj as ->. by apply list_elem_of_lookup in Hin.
  - intros [i Hi]. exists (Animation.Populated a).
    split; [by eapply list_elem_of_lookup_2|done].
Qed.

(** C6. Under any sequence of clip loads against one model whose table is
    dense, the table only grows: every entry is kept with its identifier
    and offset and none is removed, every further bone has the identity
    offset and an identifier allotted from the old counter on, and the
    identifiers are again exactly [0, boneCounter).  A channel whose bone
    is absent inserts it with the counter as its identifier, and the
    counter moves on by one.  The snapshot of each clip is the table and
    the counter as the clip's own load left them: it is dense, it holds
    the table the sequence started from and the bone of every channel of
    the clip, and the final table holds it.  So two clips that both have a
    bone of some name hold one and the same entry for it, the entry of the
    final table, and both bone objects carry its identifier. *)
Theorem bone_table_grows_densely (reqs : list request)
    (model model' : AnimatedModel.t) (objs : list Animation.object) :
  dense_ids model →
  load_all reqs model = Some (objs, model') →
  (∀ name info, AnimatedModel.boneInfoMap model !! name = Some info →
                AnimatedModel.boneInfoMap model' !! name = Some info)
  ∧ (∀ name info, AnimatedModel.boneInfoMap model' !! name = Some info →
                  AnimatedModel.boneInfoMap model !! name = None →
                  AnimatedModel.offset info = mat4_identity
                  ∧ AnimatedModel.boneCounter model ≤ AnimatedModel.id info
                    < AnimatedModel.boneCounter model')
  ∧ dense_ids model'
  ∧ (∀ a b name ia ib,
       a ∈ clips objs → b ∈ clips objs →
       Animation.boneInfoMap a !! name = Some ia →
       Animation.boneInfoMap b !! name = Some ib →
       ia = ib)
  ∧ (∀ table counter bones channel,
       table !! mNodeName channel = None → counter < INT_MAX →
       Animation.ReadMissingBones_step (table, counter, bones) channel
       = Some (<[mNodeName channel :=
                   {| AnimatedModel.id := counter;
                      AnimatedModel.offset := mat4_identity |}]> table,
               counter + 1,
               bones ++ [Bone.Bone (mNodeName channel) counter channel]))
  ∧ (∀ i a,
       objs !! i = Some (Animation.Populated a) →
       ∃ r before after,
         reqs !! i = Some r
         ∧ load_all (take i reqs) model = Some (take i objs, before)
         ∧ Animation.Animation (importer r) (path r) before (clip_index r)
           = Some (Animation.Populated a, after)
         ∧ load_all (drop (S i) reqs) after = Some (drop (S i) objs, model')
         ∧ Animation.boneInfoMap a = AnimatedModel.boneInfoMap after
         ∧ Animation.boneCount a = AnimatedModel.boneCounter after
         ∧ dense (Animation.boneInfoMap a) (Animation.boneCount a)
         ∧ AnimatedModel.boneInfoMap model ⊆ Animation.boneInfoMap a
         ∧ Animation.boneInfoMap a ⊆ AnimatedModel.boneInfoMap model'
         ∧ (∀ scene animation channel,
              importer r (path r) = Some scene →
              at_index (mAnimations scene) (clip_index r) = Some animation →
              channel ∈ mChannels animation →
              is_Some (Animation.boneInfoMap a !! mNodeName channel)))
  ∧ (∀ a b bone_a bone_b,
       a ∈ clips objs → b ∈ clips objs →
       bone_a ∈ Animation.bones a → bone_b ∈ Animation.bones b →
       Bone.GetBoneName bone_a = Bone.GetBoneName bone_b →
       ∃ info,
         Animation.boneInfoMap a !! Bone.GetBoneName bone_a = Some info
         ∧ Animation.boneInfoMap b !! Bone.GetBoneName bone_a = Some info
         ∧ AnimatedModel.boneInfoMap model' !! Bone.GetBoneName bone_a
           = Some info
         ∧ Bone.GetBoneID bone_a = AnimatedModel.id info
         ∧ Bone.GetBoneID bone_b = AnimatedModel.id info).
Proof.
  intros Hdense Hload.
  pose proof (load_all_continues _ _ _ _ Hload)
    as ((Hsub & Hcnt & Hnew) & Hd & Hsnap).
  split; [intros name info Hl; by eapply lookup_weaken|].
  split; [done|]. split; [auto|]. split.
  { intros a b name ia ib Ha Hb Hia Hib.
    pose proof (lookup_weaken _ _ _ _ Hia (Hsnap a Ha)).
    pose proof (lookup_weaken _ _ _ _ Hib (Hsnap b Hb)).
    congruence. }
  split; [apply ReadMissingBones_step_absent|].
  assert (∀ i a,
            objs !! i = Some (Animation.Populated a) →
            ∃ r before after,
              reqs !! i = Some r
              ∧ load_all (take i reqs) model = Some (take i objs, before)
              ∧ Animation.Animation (importer r) (path r) before (clip_index r)
                = Some (Animation.Populated a, after)
              ∧ load_all (drop (S i) reqs) after
                = Some (drop (S i) objs, model')
              ∧ Animation.boneInfoMap a = AnimatedModel.boneInfoMap after
              ∧ Animation.boneCount a = AnimatedModel.boneCounter after
              ∧ dense (Animation.boneInfoMap a) (Animation.boneCount a)
              ∧ AnimatedModel.boneInfoMap model ⊆ Animation.boneInfoMap a
              ∧ Animation.boneInfoMap a ⊆ AnimatedModel.boneInfoMap model')
    as Hplace.
  { intros i a Hi.
    destruct (load_all_lookup _ _ _ _ _ _ Hload Hi)
      as (r & before & after & Hr & Hpre & Hcall & Hpost).
    exists r, before, after. do 4 (split; [done|]).
    pose proof (load_all_continues _ _ _ _ Hpre) as ((Hs0 & _) & Hd0 & _).
    pose proof (Animation_continues _ _ _ _ _ _ Hcall)
      as ((Hs1 & _) & Hd1 & Heq).
    pose proof (load_all_continues _ _ _ _ Hpost) as ((Hs2 & _) & _ & _).
    destruct (Heq a eq_refl) as [Hmap Hcount].
    split; [done|]. split; [done|]. rewrite Hmap, Hcount.
    split; [apply Hd1, Hd0, Hdense|]. split; [by etrans|done]. }
  split.
  - intros i a Hi.
    destruct (Hplace i a Hi)
      as (r & before & after & Hr & Hpre & Hcall & Hpost & Hmap & Hcount
          & Hda & Hlow & Hhigh).
    exists r, before, after. do 9 (split; [done|]).
    intros scene animation channel Hscene Hanim Hin.
    destruct (Animation_registered _ _ _ _ _ _ Hcall) as [Hreg Hchan].
    destruct (Hchan scene animation channel Hscene Hanim Hin)
      as (bone & Hbone & <-).
    destruct (Hreg bone Hbone) as (info & Hl & _). by eexists.
  - intros a b bone_a bone_b [i Hi]%clips_lookup [j Hj]%clips_lookup
      Hba Hbb Hname.
    destruct (Hplace i a Hi)
      as (ra & before_a & after_a & _ & _ & Hcall_a & _ & _ & _ & _ & _
          & Hhigh_a).
    destruct (Hplace j b Hj)
      as (rb & before_b & after_b & _ & _ & Hcall_b & _ & _ & _ & _ & _
          & Hhigh_b).
    destruct (Animation_registered _ _ _ _ _ _ Hcall_a) as [Hreg_a _].
    destruct (Animation_registered _ _ _ _ _ _ Hcall_b) as [Hreg_b _].
    destruct (Hreg_a bone_a Hba) as (info_a & Hla & Hida).
    destruct (Hreg_b bone_b Hbb) as (info_b & Hlb & Hidb).
    rewrite <- Hname in Hlb.
    pose proof (lookup_weaken _ _ _ _ Hla Hhigh_a) as Hfa.
    pose proof (lookup_weaken _ _ _ _ Hlb Hhigh_b) as Hfb.
    assert (info_b = info_a) as -> by congruence.
    exists info_a. by repeat split.
Qed.

(** The bones of the meshes enter the table the same way. *)
Lemma ExtractBoneWeightForVertices_dense (mBones : list aiBone)
    (this this' : AnimatedModel.t) :
  dense_ids this →
  AnimatedModel.ExtractBoneWeightForVertices this mBones = Some this' →
  dense_ids this'.
Proof.
  unfold AnimatedModel.ExtractBoneWeightForVertices. revert this.
  induction mBones as [|bone rest IH]; intros this Hdense;
    cbn [fold_defined].
  - by intros [= <-].
  - destruct (AnimatedModel.ExtractBoneWeightForVertices_step this bone)
      as [this1|] eqn:Hstep; [|done].
    cbn [mbind option_bind]. apply IH.
    unfold AnimatedModel.ExtractBoneWeightForVertices_step in Hstep.
    destruct (AnimatedModel.allowed (bone_mName bone));
      [|by injection Hstep as <-].
    destruct (AnimatedModel.boneInfoMap this !! bone_mName bone) eqn:Hl;
      [by injection Hstep as <-|].
    destruct (AnimatedModel.boneCounter this <? INT_MAX); [|done].
    injection Hstep as <-. by apply insert_fresh_dense.
Qed.

Lemma ReadHierarchyData_counted (src : aiNode) :
  Animation.counted (Animation.ReadHierarchyData src) = true.
Proof.
  revert src. fix IH 1. intros [mName mTransformation mChildren].
  cbn [Animation.ReadHierarchyData Animation.counted].
  rewrite length_map, Z.eqb_refl. cbn [andb].
  induction mChildren as [|child rest IHrest]; [reflexivity|].
  cbn [map forallb]. by rewrite IH, IHrest.
Qed.

(** A clip that gets past the validation has a counted hierarchy. *)
Lemma Animation_counted (ReadFile : string → option aiScene)
    (animationPath : string) (model model' : AnimatedModel.t)
    (animationIndex : Z) (a : Animation.t) :
  Animation.Animation ReadFile animationPath model animationIndex
  = Some (Animation.Populated a, model') →
  Animation.counted (Animation.GetRootNode a) = true.
Proof.
  unfold Animation.Animation.
  destruct (ReadFile animationPath) as [scene|]; [|done].
  destruct (negb (HasAnimations scene) || _); [done|].
  destruct (at_index (mAnimations scene) animationIndex) as [animation|];
    [|done].
  cbn [mbind option_bind].
  destruct (if negb (Float64.is_zero (mTicksPerSecond animation))
            then Float64.to_int (mTicksPerSecond animation)
            else Float32.to_int Config.DEFAULT_TICKS_PER_SECOND) as [tps|];
    [|done].
  cbn [mbind option_bind].
  destruct (Animation.ReadMissingBones animation model)
    as [[[[bones table] counter] model1]|]; [|done].
  cbn. intros [= <- _]. cbn. apply ReadHierarchyData_counted.
Qed.

(** A model as its constructor leaves it has a dense table. *)
Lemma fresh_model_dense : dense_ids AnimatedModel.AnimatedModel.
Proof.
  unfold dense_ids. cbn.
  split; [done|]. split; [|split].
  - intros name info Hl. by rewrite lookup_empty in Hl.
  - lia.
  - intros n1 n2 i1 i2 Hl. by rewrite lookup_empty in Hl.
Qed.
End TableFacts.

Lemma bone_table_grows_densely_witness :
  ∃ objs model' walk head,
    load_all (H := Symbolic.glm) two_loads AnimatedModel.AnimatedModel
    = Some (objs, model')
    ∧ objs = [Animation.Populated walk; Animation.Populated head]
    ∧ dense_ids model'
    ∧ AnimatedModel.boneCounter model' = 4
    ∧ Animation.boneCount walk = 3
    ∧ Animation.boneCount head = 4
    ∧ Animation.boneInfoMap walk !! "DEF-head"
      = Some {| AnimatedModel.id := 1;
                AnimatedModel.offset := mat4_identity |}
    ∧ Animation.boneInfoMap head !! "DEF-head"
      = Some {| AnimatedModel.id := 1;
                AnimatedModel.offset := mat4_identity |}
    ∧ Animation.boneInfoMap walk !! "DEF-jaw" = None
    ∧ Animation.boneInfoMap head !! "DEF-jaw"
      = Some {| AnimatedModel.id := 3;
                AnimatedModel.offset := mat4_identity |}
    ∧ ∀ a b name ia ib,
        a ∈ clips objs → b ∈ clips objs →
        Animation.boneInfoMap a !! name = Some ia →
        Animation.boneInfoMap b !! name = Some ib →
        ia = ib.
Proof.
  destruct (load_all (H := Symbolic.glm) two_loads AnimatedModel.AnimatedModel)
    as [[objs model']|] eqn:Hload; [|by vm_compute in Hload].
  destruct (bone_table_grows_densely two_loads AnimatedModel.AnimatedModel
              model' objs fresh_model_dense Hload)
    as (_ & Hnew & Hdense & Hsame & _ & Hplace & Hshared).
  assert (∃ walk head bone_a bone_b,
            objs = [Animation.Populated walk; Animation.Populated head]
            ∧ AnimatedModel.boneCounter model' = 4
            ∧ Animation.bones walk !! 1%nat = Some bone_a
            ∧ Animation.bones head !! 0%nat = Some bone_b
            ∧ Bone.GetBoneName bone_a = "DEF-head"
            ∧ Bone.GetBoneName bone_b = "DEF-head"
            ∧ Bone.GetBoneID bone_a = 1
            ∧ Animation.boneCount walk = 3
            ∧ Animation.boneCount head = 4
            ∧ Animation.boneInfoMap walk !! "DEF-jaw" = None
            ∧ Animation.boneInfoMap head !! "DEF-jaw"
              = Some {| AnimatedModel.id := 3;
                        AnimatedModel.offset := mat4_identity |})
    as (walk & head & bone_a & bone_b & -> & Hcounter & Hba & Hbb & Hna & Hnb
        & Hida & Hcw & Hch & Hjw & Hjh).
  { clear -Hload. vm_compute in Hload. injection Hload as <- <-.
    eexists _, _, _, _. split; [reflexivity|].
    split; [reflexivity|]. split; [reflexivity|]. split; [reflexivity|].
    split; [reflexivity|]. split; [reflexivity|]. split; [reflexivity|].
    split; [reflexivity|]. split; [reflexivity|].
    split; vm_compute; reflexivity. }
  exists [Animation.Populated walk; Animation.Populated head], model',
    walk, head.
  split; [reflexivity|]. split; [reflexivity|]. split; [exact Hdense|].
  split; [exact Hcounter|]. split; [exact Hcw|]. split; [exact Hch|].
  destruct (Hshared walk head bone_a bone_b)
    as (info & Hla & Hlb & Hlm & Hia & _).
  { apply list_elem_of_here. }
  { apply list_elem_of_further, list_elem_of_here. }
  { by eapply list_elem_of_lookup_2. }
  { by eapply list_elem_of_lookup_2. }
  { by rewrite Hna, Hnb. }
  destruct (Hnew _ _ Hlm (lookup_empty _)) as [Hoff _].
  rewrite Hna in Hla, Hlb. rewrite Hida in Hia.
  assert (info = {| AnimatedModel.id := 1;
                    AnimatedModel.offset := mat4_identity |}) as ->.
  { destruct info as [id offset]. cbn in Hoff, Hia. by rewrite Hoff, <- Hia. }
  split; [exact Hla|]. split; [exact Hlb|]. split; [exact Hjw|].
  split; [exact Hjh|]. exact Hsame.
Defined.

(** ** The hierarchy walks *)

Section WalkFacts.
Context `{Glm}.
Variable deref : addr → Animation.t.

(** Induction on a hierarchy, with the children as a list. *)
Lemma AssimpNodeData_tree_ind (P : Animation.AssimpNodeData → Prop) :
  (∀ transformation name childrenCount children,
     Forall P children →
     P (Animation.Node transformation name childrenCount children)) →
  ∀ node, P node.
Proof.
  intros Hnode. fix IH 1. intros [transformation name childrenCount children].
  apply Hnode. induction children as [|child rest IHrest]; constructor.
  - apply IH.
  - apply IHrest.
Qed.

Lemma CalculateBoneTransform_loop (globalTransformation : mat4)
    (children : list Animation.AssimpNodeData) (i : nat) (this : Animator.t) :
  (fix recurse (i : nat) (children : list Animation.AssimpNodeData)
       (this : Animator.t) {struct children} : option Animator.t :=
     match i with
     | O => Some this
     | S i =>
         match children with
         | [] => None
         | child :: children =>
             this ← Animator.CalculateBoneTransform deref this child
                      globalTransformation;
             recurse i children this
         end
     end) i children this
  = Animator.CalculateBoneTransform_children deref i children
      globalTransformation this.
Proof.
  revert i this. induction children as [|child rest IH]; intros [|i] this;
    try reflexivity.
  cbn [Animator.CalculateBoneTransform_children].
  destruct (Animator.CalculateBoneTransform deref this child
              globalTransformation) as [this'|]; [|reflexivity].
  cbn [mbind option_bind]. apply IH.
Qed.

Lemma CalculateLayerBoneTransform_loop (this : Animator.t)
    (globalTransformation : mat4) (layer : AnimationLayer)
    (children : list Animation.AssimpNodeData) (i : nat)
    (layerMatrices : list mat4) :
  (fix recurse (i : nat) (children : list Animation.AssimpNodeData)
       (layerMatrices : list mat4) {struct children} : option (list mat4) :=
     match i with
     | O => Some layerMatrices
     | S i =>
         match children with
         | [] => None
         | child :: children =>
             layerMatrices ←
               Animator.CalculateLayerBoneTransform deref this child
                 globalTransformation layer layerMatrices;
             recurse i children layerMatrices
         end
     end) i children layerMatrices
  = Animator.CalculateLayerBoneTransform_children deref this i children
      globalTransformation layer layerMatrices.
Proof.
  revert i layerMatrices.
  induction children as [|child rest IH]; intros [|i] layerMatrices;
    try reflexivity.
  cbn [Animator.CalculateLayerBoneTransform_children].
  destruct (Animator.CalculateLayerBoneTransform deref this child
              globalTransformation layer layerMatrices) as [m|];
    [|reflexivity].
  cbn [mbind option_bind]. apply IH.
Qed.

Lemma CalculateBoneTransform_node (this : Animator.t)
    (transformation : mat4) (nodeName : string) (childrenCount : Z)
    (children : list Animation.AssimpNodeData) (parentTransform : mat4) :
  Animator.CalculateBoneTransform deref this
    (Animation.Node transformation nodeName childrenCount children)
    parentTransform
  = anim ← Animator.currentAnimation this;
    nodeTransform ←
      Animator.animated_local (deref anim) (Animator.currentTime this)
                              transformation nodeName;
    let globalTransformation :=
      parentTransform
      × Animator.overridden this (deref anim) nodeName nodeTransform in
    Animator.CalculateBoneTransform_children deref
      (Z.to_nat childrenCount) children globalTransformation
      (Animator.write_final this (deref anim) nodeName globalTransformation).
Proof.
  cbn [Animator.CalculateBoneTransform].
  destruct (Animator.currentAnimation this) as [anim|]; [|reflexivity].
  cbn [mbind option_bind]. unfold Animator.animated_local.
  destruct (match Animation.FindBone (deref anim) nodeName with
            | Some bone => Bone.Update bone (Animator.currentTime this)
            | None => Some transformation
            end) as [nodeTransform|]; [|reflexivity].
  cbn [mbind option_bind]. cbv zeta.
  rewrite CalculateBoneTransform_loop. reflexivity.
Qed.

Lemma CalculateLayerBoneTransform_node (this : Animator.t)
    (transformation : mat4) (nodeName : string) (childrenCount : Z)
    (children : list Animation.AssimpNodeData) (parentTransform : mat4)
    (layer : AnimationLayer) (layerMatrices : list mat4) :
  Animator.CalculateLayerBoneTransform deref this
    (Animation.Node transformation nodeName childrenCount children)
    parentTransform layer layerMatrices
  = info ← Animator.layers this !! layer;
    anim ← LayerInfo.animation info;
    nodeTransform ←
      Animator.animated_local (deref anim) (LayerInfo.currentTime info)
                              transformation nodeName;
    let globalTransformation := parentTransform × nodeTransform in
    Animator.CalculateLayerBoneTransform_children deref this
      (Z.to_nat childrenCount) children globalTransformation layer
      (Animator.write_layer (deref anim) nodeName layer globalTransformation
                            layerMatrices).
Proof.
  cbn [Animator.CalculateLayerBoneTransform].
  destruct (Animator.layers this !! layer) as [info|]; [|reflexivity].
  cbn [mbind option_bind].
  destruct (LayerInfo.animation info) as [anim|]; [|reflexivity].
  cbn [mbind option_bind]. unfold Animator.animated_local.
  destruct (match Animation.FindBone (deref anim) nodeName with
            | Some bone => Bone.Update bone (LayerInfo.currentTime info)
            | None => Some transformation
            end) as [nodeTransform|]; [|reflexivity].
  cbn [mbind option_bind]. cbv zeta.
  rewrite CalculateLayerBoneTransform_loop. reflexivity.
Qed.

Lemma frames_refl (this : Animator.t) : Animator.frames this this.
Proof. split; [by destruct this|done]. Qed.

Lemma frames_trans (this1 this2 this3 : Animator.t) :
  Animator.frames this1 this2 → Animator.frames this2 this3 →
  Animator.frames this1 this3.
Proof.
  intros [H12 L12] [H23 L23]. split; [|congruence].
  rewrite H23 at 1. rewrite H12 at 1. reflexivity.
Qed.

Lemma frames_set (this : Animator.t) (v : list mat4) :
  length v = length (Animator.finalBoneMatrices this) →
  Animator.frames this (Animator.set_finalBoneMatrices v this).
Proof. intros Hlen. split; [reflexivity|exact Hlen]. Qed.

Lemma frames_fields (this this' : Animator.t) :
  Animator.frames this this' →
  Animator.boneOverrides this' = Animator.boneOverrides this
  ∧ Animator.layers this' = Animator.layers this
  ∧ Animator.currentAnimation this' = Animator.currentAnimation this
  ∧ Animator.currentTime this' = Animator.currentTime this
  ∧ Animator.deltaTime this' = Animator.deltaTime this.
Proof. intros [-> _]. by repeat split. Qed.

Lemma write_final_frames (this : Animator.t) (clip : Animation.t)
    (nodeName : string) (globalTransformation : mat4) :
  Animator.frames this
    (Animator.write_final this clip nodeName globalTransformation).
Proof.
  unfold Animator.write_final.
  destruct (Animation.GetBoneIDMap clip !! nodeName) as [info|];
    [|apply frames_refl].
  destruct (Animator.in_range (AnimatedModel.id info)
                              (Animator.finalBoneMatrices this));
    [|apply frames_refl].
  apply frames_set. apply length_insert.
Qed.

Lemma CalculateBoneTransform_children_frames
    (children : list Animation.AssimpNodeData) :
  Forall (λ node, ∀ this parentTransform this',
            Animator.CalculateBoneTransform deref this node parentTransform
            = Some this' → Animator.frames this this') children →
  ∀ i globalTransformation this this',
    Animator.CalculateBoneTransform_children deref i children
      globalTransformation this = Some this' →
    Animator.frames this this'.
Proof.
  induction 1 as [|child rest Hchild _ IH]; intros [|i] g this this'; cbn.
  - intros [= <-]. apply frames_refl.
  - done.
  - intros [= <-]. apply frames_refl.
  - destruct (Animator.CalculateBoneTransform deref this child g)
      as [this1|] eqn:H1; [|done].
    cbn. intros H2. eapply frames_trans; [by eapply Hchild|by eapply IH].
Qed.

(** The walk of the main clip writes entries of the output array and
    nothing else. *)
Lemma CalculateBoneTransform_frames (node : Animation.AssimpNodeData) :
  ∀ this parentTransform this',
    Animator.CalculateBoneTransform deref this node parentTransform
    = Some this' →
    Animator.frames this this'.
Proof.
  induction node as [transformation nodeName childrenCount children IH]
    using AssimpNodeData_tree_ind.
  intros this parentTransform this'. rewrite CalculateBoneTransform_node.
  destruct (Animator.currentAnimation this) as [anim|]; [|done].
  cbn [mbind option_bind].
  destruct (Animator.animated_local (deref anim) (Animator.currentTime this)
              transformation nodeName) as [nodeTransform|]; [|done].
  cbn [mbind option_bind]. cbv zeta. intros Hloop.
  eapply frames_trans; [apply write_final_frames|].
  by eapply CalculateBoneTransform_children_frames.
Qed.

Lemma primary_pass_frames (this this' : Animator.t) :
  Animator.primary_pass deref this = Some this' → Animator.frames this this'.
Proof.
  unfold Animator.primary_pass. intros Hwalk.
  eapply frames_trans.
  { apply (frames_set this
             (replicate (length (Animator.finalBoneMatrices this))
                        mat4_identity)). apply length_replicate. }
  cbn [Animator.currentAnimation Animator.set_finalBoneMatrices] in Hwalk.
  destruct (Animator.currentAnimation this) as [anim|].
  - by eapply CalculateBoneTransform_frames.
  - injection Hwalk as <-. apply frames_refl.
Qed.

Lemma apply_layer_bone_length (layer : AnimationLayer)
    (layerMatrices final final' : list mat4)
    (entry : string * AnimatedModel.BoneInfo) :
  Animator.apply_layer_bone layer layerMatrices final entry = Some final' →
  length final' = length final.
Proof.
  destruct entry as [boneName boneInfo]. unfold Animator.apply_layer_bone.
  destruct (bool_decide (Animator.GetBoneLayer boneName = layer)
            && Animator.in_range (AnimatedModel.id boneInfo) final).
  - destruct (at_index layerMatrices (AnimatedModel.id boneInfo)); [|done].
    cbn. intros [= <-]. apply length_insert.
  - by intros [= <-].
Qed.

Lemma apply_layer_bones_length (layer : AnimationLayer)
    (layerMatrices : list mat4)
    (entries : list (string * AnimatedModel.BoneInfo))
    (final final' : list mat4) :
  fold_defined (Animator.apply_layer_bone layer layerMatrices) entries final
  = Some final' →
  length final' = length final.
Proof.
  revert final. induction entries as [|entry rest IH]; intros final; cbn.
  - by intros [= <-].
  - destruct (Animator.apply_layer_bone layer layerMatrices final entry)
      as [final1|] eqn:H1; [|done].
    cbn. intros H2%IH. apply apply_layer_bone_length in H1. congruence.
Qed.

Lemma apply_layer_frames (this this' : Animator.t) (layer : AnimationLayer) :
  Animator.apply_layer deref this layer = Some this' →
  Animator.frames this this'.
Proof.
  unfold Animator.apply_layer.
  destruct (Animator.layers this !! layer) as [info|];
    [|intros [= <-]; apply frames_refl].
  destruct (LayerInfo.animation info) as [anim|];
    [|intros [= <-]; apply frames_refl].
  destruct (LayerInfo.active info); [|intros [= <-]; apply frames_refl].
  destruct (Animator.CalculateLayerBoneTransform deref this _ _ _ _)
    as [layerMatrices|]; [|done].
  cbn [mbind option_bind].
  destruct (fold_defined _ _ _) as [final|] eqn:Hfold; [|done].
  cbn. intros [= <-]. apply frames_set.
  by eapply apply_layer_bones_length.
Qed.

Lemma apply_layers_frames (order : list AnimationLayer)
    (this this' : Animator.t) :
  fold_defined (Animator.apply_layer deref) order this = Some this' →
  Animator.frames this this'.
Proof.
  revert this. induction order as [|layer rest IH]; intros this; cbn.
  - intros [= <-]. apply frames_refl.
  - destruct (Animator.apply_layer deref this layer) as [this1|] eqn:H1;
      [|done].
    cbn. intros H2%IH. apply apply_layer_frames in H1.
    by eapply frames_trans.
Qed.

(** After the clocks have advanced, a tick changes only entries of the
    output array. *)
Lemma UpdateAnimation_frames (this this' : Animator.t) (dt : float) :
  Animator.UpdateAnimation deref this dt = Some this' →
  Animator.frames (Animator.advance_time deref this dt) this'.
Proof.
  unfold Animator.UpdateAnimation.
  destruct (Animator.primary_pass deref _) as [this1|] eqn:H1; [|done].
  cbn [mbind option_bind].
  intros H2%apply_layers_frames. apply primary_pass_frames in H1.
  by eapply frames_trans.
Qed.
End WalkFacts.

(** ** Playback state *)

Section PlaybackFacts.
Context `{Glm}.
Variable deref : addr → Animation.t.

Lemma fold_defined_app {A B : Type} (body : A → B → option A)
    (xs ys : list B) (acc : A) :
  fold_defined body (xs ++ ys) acc
  = acc' ← fold_defined body xs acc; fold_defined body ys acc'.
Proof.
  revert acc. induction xs as [|x rest IH]; intros acc; [done|].
  cbn. destruct (body acc x) as [acc1|]; [|done]. cbn. apply IH.
Qed.

Lemma PlayAnimation_sets_pointer (this : Animator.t) (animation : option addr) :
  Animator.currentAnimation
    (object_of (Animator.PlayAnimation deref this animation)) = animation.
Proof.
  unfold Animator.PlayAnimation. case_bool_decide as Hne.
  - destruct animation as [a|]; [|done].
    by destruct (vector_resize _ _ _).
  - done.
Qed.

Lemma PlayAnimation_same (this : Animator.t) (animation : option addr) :
  Animator.currentAnimation this = animation →
  Animator.PlayAnimation deref this animation = Returns this.
Proof.
  intros Heq. unfold Animator.PlayAnimation.
  by rewrite bool_decide_eq_false_2 by (by intros ?).
Qed.

Lemma PlayAnimation_other (this : Animator.t) (animation : option addr) :
  Animator.currentAnimation this ≠ animation →
  Animator.currentTime
    (object_of (Animator.PlayAnimation deref this animation)) = Float32.zero.
Proof.
  intros Hne. unfold Animator.PlayAnimation.
  rewrite bool_decide_eq_true_2 by done.
  destruct animation as [a|]; [|done].
  by destruct (vector_resize _ _ _).
Qed.

(** C4.  Assigning to the main layer the clip it is playing changes
    nothing, so two such calls in a row leave the clock where it was;
    assigning any other pointer puts the clock at 0.  Every
    PlayAnimationOnLayer call stores the pointer, puts the layer's clock at
    0 and sets the active flag to whether the pointer is non-null:
    assigning a clip restarts and activates the layer from every state,
    also when that very clip is active on the layer with its clock under
    way. *)
Theorem reassignment_and_layer_restart
    (this : Animator.t) (animation : option addr) (layer : AnimationLayer)
    (looping : bool) :
  let this1 := object_of (Animator.PlayAnimation deref this animation) in
  Animator.PlayAnimation deref this1 animation = Returns this1
  ∧ (Animator.currentAnimation this = animation →
     Animator.PlayAnimation deref this animation = Returns this)
  ∧ (Animator.currentAnimation this ≠ animation →
     Animator.currentTime this1 = Float32.zero)
  ∧ Animator.layers
      (Animator.PlayAnimationOnLayer_looping this animation layer looping)
    !! layer
    = Some {| LayerInfo.animation := animation;
              LayerInfo.currentTime := Float32.zero;
              LayerInfo.active :=
                match animation with Some _ => true | None => false end;
              LayerInfo.looping := looping |}
  ∧ Animator.layers (Animator.PlayAnimationOnLayer this animation layer)
    !! layer
    = Some {| LayerInfo.animation := animation;
              LayerInfo.currentTime := Float32.zero;
              LayerInfo.active :=
                match animation with Some _ => true | None => false end;
              LayerInfo.looping :=
                LayerInfo.looping (Animator.layers_at this layer) |}
  ∧ (∀ a : addr,
       let restarted :=
         Animator.layers_at
           (Animator.PlayAnimationOnLayer this (Some a) layer) layer in
       let restarted_looping :=
         Animator.layers_at
           (Animator.PlayAnimationOnLayer_looping this (Some a) layer looping)
           layer in
       LayerInfo.animation restarted = Some a
       ∧ LayerInfo.currentTime restarted = Float32.zero
       ∧ LayerInfo.active restarted = true
       ∧ LayerInfo.animation restarted_looping = Some a
       ∧ LayerInfo.currentTime restarted_looping = Float32.zero
       ∧ LayerInfo.active restarted_looping = true)
  ∧ (∀ (a : addr) (time : float),
       Animator.layers this !! layer
       = Some {| LayerInfo.animation := Some a;
                 LayerInfo.currentTime := time;
                 LayerInfo.active := true;
                 LayerInfo.looping := looping |} →
       Animator.layers (Animator.PlayAnimationOnLayer this (Some a) layer)
       !! layer
       = Some {| LayerInfo.animation := Some a;
                 LayerInfo.currentTime := Float32.zero;
                 LayerInfo.active := true;
                 LayerInfo.looping := looping |}
       ∧ Animator.layers
           (Animator.PlayAnimationOnLayer_looping this (Some a) layer looping)
         !! layer
         = Some {| LayerInfo.animation := Some a;
                   LayerInfo.currentTime := Float32.zero;
                   LayerInfo.active := true;
                   LayerInfo.looping := looping |}).
Proof.
  intros this1. split.
  { apply PlayAnimation_same. apply PlayAnimation_sets_pointer. }
  split; [apply PlayAnimation_same|].
  split; [apply PlayAnimation_other|].
  split; [cbn; rewrite lookup_insert_eq; by destruct animation|].
  split; [cbn; rewrite lookup_insert_eq; by destruct animation|].
  split.
  - intros a restarted restarted_looping.
    subst restarted restarted_looping. unfold Animator.layers_at. cbn.
    by rewrite !lookup_insert_eq.
  - intros a time Hl. unfold Animator.PlayAnimationOnLayer, Animator.layers_at.
    rewrite Hl. cbn. by rewrite !lookup_insert_eq.
Qed.

(** C10.  PlayAnimation(nullptr) on an animator that plays a clip clears
    the pointer and puts the clock at 0 and leaves the output array as it
    was, entry for entry; the array changes under PlayAnimation only when a
    non-null pointer other than the current one is assigned, and then its
    size becomes the bone count of that clip. *)
Theorem PlayAnimation_null_keeps_matrices (this : Animator.t) (anim : addr) :
  Animator.currentAnimation this = Some anim →
  (∃ this', Animator.PlayAnimation deref this None = Returns this'
            ∧ Animator.currentAnimation this' = None
            ∧ Animator.currentTime this' = Float32.zero
            ∧ Animator.finalBoneMatrices this'
              = Animator.finalBoneMatrices this)
  ∧ (∀ this0 animation,
       Animator.finalBoneMatrices
         (object_of (Animator.PlayAnimation deref this0 animation))
       ≠ Animator.finalBoneMatrices this0 →
       ∃ a, animation = Some a
            ∧ Animator.currentAnimation this0 ≠ Some a
            ∧ Z.of_nat (length (Animator.finalBoneMatrices
                (object_of (Animator.PlayAnimation deref this0 animation))))
              = Animation.GetBoneCount (deref a)).
Proof.
  intros Hcur. split.
  - unfold Animator.PlayAnimation. rewrite Hcur.
    rewrite bool_decide_eq_true_2 by done.
    eexists. by repeat split.
  - intros this0 animation. unfold Animator.PlayAnimation.
    case_bool_decide as Hne; [|done].
    destruct animation as [a|]; [|done].
    unfold vector_resize.
    destruct (Z.ltb_spec (Animation.GetBoneCount (deref a)) 0); [done|].
    cbn. intros _. exists a. repeat split; [done|].
    rewrite length_app, length_take, length_replicate. lia.
Qed.

Lemma UpdateAnimation_layers (this this' : Animator.t) (dt : float) :
  Animator.UpdateAnimation deref this dt = Some this' →
  Animator.layers this'
  = Animator.advance_layer deref dt <$> Animator.layers this.
Proof.
  intros Hup%UpdateAnimation_frames.
  apply frames_fields in Hup as (_ & -> & _).
  unfold Animator.advance_time. cbn.
  by destruct (Animator.currentAnimation this).
Qed.

Lemma UpdateAnimation_clock (this this' : Animator.t) (dt : float)
    (anim : addr) :
  Animator.currentAnimation this = Some anim →
  Animator.UpdateAnimation deref this dt = Some this' →
  Animator.currentAnimation this' = Some anim
  ∧ Animator.currentTime this'
    = Float32.fmod
        (Float32.add (Animator.currentTime this)
                     (Float32.mul (Animation.GetTicksPerSecond (deref anim))
                                  dt))
        (Animation.GetDuration (deref anim)).
Proof.
  intros Hcur Hup%UpdateAnimation_frames.
  apply frames_fields in Hup as (_ & _ & -> & -> & _).
  unfold Animator.advance_time. cbn. by rewrite Hcur.
Qed.

(** C8.  A tick with a main clip moves the main clock to
    [fmod(currentTime + ticksPerSecond * dt, duration)].  With duration 40
    and 25 ticks per second, from clock 0, a tick of 0.8 s gives 20 and a
    second one gives 0. *)
Theorem primary_clock_advances_and_wraps
    (this this' : Animator.t) (dt : float) (anim : addr) :
  Animator.currentAnimation this = Some anim →
  Animator.UpdateAnimation deref this dt = Some this' →
  Animator.currentTime this'
  = Float32.fmod
      (Float32.add (Animator.currentTime this)
                   (Float32.mul (Animation.GetTicksPerSecond (deref anim)) dt))
      (Animation.GetDuration (deref anim))
  ∧ (Animation.GetDuration (deref anim) = Float32.of_Z 40 →
     Animation.ticksPerSecond (deref anim) = 25 →
     Animator.currentTime this = Float32.zero →
     dt = Float32.of_frac 4 5 →
     Animator.currentTime this' = Float32.of_Z 20
     ∧ ∀ this'', Animator.UpdateAnimation deref this' dt = Some this'' →
                 Animator.currentTime this'' = Float32.zero).
Proof.
  intros Hcur Hup.
  destruct (UpdateAnimation_clock _ _ _ _ Hcur Hup) as [Hcur' Htime].
  split; [done|].
  intros HD HR H0 ->.
  assert (Animator.currentTime this' = Float32.of_Z 20) as H20.
  { rewrite Htime, HD, H0. unfold Animation.GetTicksPerSecond. rewrite HR.
    by vm_compute. }
  split; [done|].
  intros this'' Hup'.
  destruct (UpdateAnimation_clock _ _ _ _ Hcur' Hup') as [_ ->].
  rewrite H20, HD. unfold Animation.GetTicksPerSecond. rewrite HR.
  by vm_compute.
Qed.
End PlaybackFacts.

(** ** One-shot and looping layers *)

Section LayerClockFacts.
Context `{Glm}.
Variable deref : addr → Animation.t.

Lemma ticks_layers (dts : list float) (this this' : Animator.t) :
  Animator.ticks deref this dts = Some this' →
  Animator.layers this'
  = (λ info, foldl (λ info dt, Animator.advance_layer deref dt info) info dts)
    <$> Animator.layers this.
Proof.
  unfold Animator.ticks. revert this.
  induction dts as [|dt rest IH]; intros this; cbn [fold_defined foldl].
  - intros [= <-]. by rewrite map_fmap_id.
  - destruct (Animator.UpdateAnimation deref this dt) as [this1|] eqn:H1;
      [|done].
    cbn [mbind option_bind]. intros H2%IH.
    rewrite H2, (UpdateAnimation_layers deref _ _ _ H1).
    by rewrite <- map_fmap_compose.
Qed.

Lemma accumulate_snoc (ticksPerSecond t0 : float) (pre : list float)
    (dt : float) :
  Animator.accumulate ticksPerSecond t0 (pre ++ [dt])
  = Float32.add (Animator.accumulate ticksPerSecond t0 pre)
                (Float32.mul ticksPerSecond dt).
Proof. unfold Animator.accumulate. by rewrite foldl_snoc. Qed.

Lemma one_shot_below_duration (anim : addr) (dts : list float) (t0 : float) :
  (∀ k, (1 ≤ k ≤ length dts)%nat →
        Float32.geb
          (Animator.accumulate (Animation.GetTicksPerSecond (deref anim)) t0
                               (take k dts))
          (Animation.GetDuration (deref anim)) = false) →
  foldl (λ info dt, Animator.advance_layer deref dt info)
        {| LayerInfo.animation := Some anim; LayerInfo.currentTime := t0;
           LayerInfo.active := true; LayerInfo.looping := false |} dts
  = {| LayerInfo.animation := Some anim;
       LayerInfo.currentTime :=
         Animator.accumulate (Animation.GetTicksPerSecond (deref anim)) t0 dts;
       LayerInfo.active := true; LayerInfo.looping := false |}.
Proof.
  revert t0. induction dts as [|dt rest IH]; intros t0 Hbelow; [done|].
  cbn [foldl]. unfold Animator.advance_layer at 2. cbn.
  pose proof (Hbelow 1%nat ltac:(cbn; lia)) as H1.
  cbn [take] in H1. rewrite take_0 in H1. cbn in H1. rewrite H1.
  rewrite IH; [done|].
  intros k Hk. apply (Hbelow (S k)). cbn. lia.
Qed.

Lemma looping_wraps (anim : addr) (dts : list float) (t0 : float) :
  foldl (λ info dt, Animator.advance_layer deref dt info)
        {| LayerInfo.animation := Some anim; LayerInfo.currentTime := t0;
           LayerInfo.active := true; LayerInfo.looping := true |} dts
  = {| LayerInfo.animation := Some anim;
       LayerInfo.currentTime :=
         Animator.accumulate_wrapped
           (Animation.GetTicksPerSecond (deref anim))
           (Animation.GetDuration (deref anim)) t0 dts;
       LayerInfo.active := true; LayerInfo.looping := true |}.
Proof.
  revert t0. induction dts as [|dt rest IH]; intros t0; [done|].
  cbn [foldl]. unfold Animator.advance_layer at 2. cbn. by rewrite IH.
Qed.

(** C5.  A layer that plays a clip as a one-shot keeps playing, its clock
    adding up without wrap, through the ticks [pre] that leave the clock
    below the duration; on the next tick it goes idle (inactive, clip
    pointer null, clock 0) if the clock then reaches the duration and
    keeps playing if it does not.  A looping layer is still active on its
    clip after any ticks, its clock wrapped by [fmod] on each. *)
Theorem one_shot_ends_when_clock_reaches_duration
    (this this' : Animator.t) (layer : AnimationLayer) (anim : addr)
    (t0 : float) (looping : bool) (pre : list float) (dt : float) :
  Animator.layers this !! layer
  = Some {| LayerInfo.animation := Some anim; LayerInfo.currentTime := t0;
            LayerInfo.active := true; LayerInfo.looping := looping |} →
  Animator.ticks deref this (pre ++ [dt]) = Some this' →
  let D := Animation.GetDuration (deref anim) in
  let R := Animation.GetTicksPerSecond (deref anim) in
  (looping = false →
   (∀ k, (1 ≤ k ≤ length pre)%nat →
         Float32.geb (Animator.accumulate R t0 (take k pre)) D = false) →
   (∃ this1,
      Animator.ticks deref this pre = Some this1
      ∧ Animator.layers this1 !! layer
        = Some {| LayerInfo.animation := Some anim;
                  LayerInfo.currentTime := Animator.accumulate R t0 pre;
                  LayerInfo.active := true; LayerInfo.looping := false |})
   ∧ Animator.layers this' !! layer
     = Some (if Float32.geb (Animator.accumulate R t0 (pre ++ [dt])) D
             then {| LayerInfo.animation := None;
                     LayerInfo.currentTime := Float32.zero;
                     LayerInfo.active := false; LayerInfo.looping := false |}
             else {| LayerInfo.animation := Some anim;
                     LayerInfo.currentTime :=
                       Animator.accumulate R t0 (pre ++ [dt]);
                     LayerInfo.active := true; LayerInfo.looping := false |}))
  ∧ (looping = true →
     Animator.layers this' !! layer
     = Some {| LayerInfo.animation := Some anim;
               LayerInfo.currentTime :=
                 Animator.accumulate_wrapped R D t0 (pre ++ [dt]);
               LayerInfo.active := true; LayerInfo.looping := true |}).
Proof.
  intros Hlayer Hticks D R. split.
  - intros -> Hbelow.
    pose proof Hticks as Hsplit. unfold Animator.ticks in Hsplit.
    rewrite fold_defined_app in Hsplit.
    destruct (fold_defined (Animator.UpdateAnimation deref) pre this)
      as [this1|] eqn:Hpre; [|done].
    assert (Animator.layers this1 !! layer
            = Some {| LayerInfo.animation := Some anim;
                      LayerInfo.currentTime := Animator.accumulate R t0 pre;
                      LayerInfo.active := true;
                      LayerInfo.looping := false |}) as Hl1.
    { rewrite (ticks_layers pre this this1 Hpre), lookup_fmap, Hlayer. cbn.
      by rewrite one_shot_below_duration. }
    split; [by exists this1|].
    cbn in Hsplit.
    destruct (Animator.UpdateAnimation deref this1 dt) as [this2|] eqn:Hlast;
      [|done].
    injection Hsplit as ->.
    rewrite (UpdateAnimation_layers deref _ _ _ Hlast), lookup_fmap, Hl1.
    cbn. unfold Animator.advance_layer. cbn.
    rewrite !accumulate_snoc. subst D R.
    by destruct (Float32.geb _ _).
  - intros ->.
    rewrite (ticks_layers _ _ _ Hticks), lookup_fmap, Hlayer. cbn.
    by rewrite looping_wraps.
Qed.
End LayerClockFacts.

(** ** Layer isolation *)

Section LayerFacts.
Context `{Glm}.
Variable deref : addr → Animation.t.

Lemma apply_layer_bones_untouched (layer : AnimationLayer)
    (layerMatrices : list mat4)
    (entries : list (string * AnimatedModel.BoneInfo))
    (final final' : list mat4) (i : nat) :
  fold_defined (Animator.apply_layer_bone layer layerMatrices) entries final
  = Some final' →
  (∀ name info, (name, info) ∈ entries →
                AnimatedModel.id info = Z.of_nat i →
                Animator.GetBoneLayer name ≠ layer) →
  final' !! i = final !! i.
Proof.
  revert final. induction entries as [|[name info] rest IH]; intros final.
  - by intros [= <-].
  - cbn [fold_defined]. intros Hfold Hother.
    destruct (Animator.apply_layer_bone layer layerMatrices final (name, info))
      as [final1|] eqn:H1; [|done].
    cbn [mbind option_bind] in Hfold.
    rewrite (IH final1 Hfold); [|intros ? ? ?; apply Hother; by right].
    unfold Animator.apply_layer_bone in H1.
    case_bool_decide as Hlayer; cbn [andb] in H1; [|by injection H1 as <-].
    destruct (Animator.in_range (AnimatedModel.id info) final) eqn:Hrange;
      [|by injection H1 as <-].
    destruct (at_index layerMatrices (AnimatedModel.id info)); [|done].
    injection H1 as <-.
    apply list_lookup_insert_ne. intros Heq.
    apply (Hother name info); [by left| |done].
    unfold Animator.in_range in Hrange. apply andb_true_iff in Hrange as [H0 _].
    apply Z.leb_le in H0. lia.
Qed.

(** The pass of one layer leaves alone every entry of the output array
    that no bone name of the layer's clip classified into that layer maps
    to. *)
Lemma apply_layer_untouched (this this' : Animator.t)
    (layer : AnimationLayer) (i : nat) :
  Animator.apply_layer deref this layer = Some this' →
  (∀ info anim name bone,
     Animator.layers this !! layer = Some info →
     LayerInfo.active info = true →
     LayerInfo.animation info = Some anim →
     Animation.GetBoneIDMap (deref anim) !! name = Some bone →
     AnimatedModel.id bone = Z.of_nat i →
     Animator.GetBoneLayer name ≠ layer) →
  Animator.finalBoneMatrices this' !! i = Animator.finalBoneMatrices this !! i.
Proof.
  unfold Animator.apply_layer. intros Hpass Hother.
  destruct (Animator.layers this !! layer) as [info|];
    [|by injection Hpass as <-].
  destruct (LayerInfo.animation info) as [anim|] eqn:Hanim;
    [|by injection Hpass as <-].
  destruct (LayerInfo.active info) eqn:Hactive; [|by injection Hpass as <-].
  destruct (Animator.CalculateLayerBoneTransform deref this _ _ _ _)
    as [layerMatrices|]; [|done].
  cbn [mbind option_bind] in Hpass.
  destruct (fold_defined _ _ _) as [final|] eqn:Hfold; [|done].
  injection Hpass as <-. cbn.
  eapply apply_layer_bones_untouched; [exact Hfold|].
  intros name bone Hin%elem_of_map_to_list. by eapply Hother.
Qed.

Lemma apply_layers_untouched (order : list AnimationLayer)
    (this this' : Animator.t) (i : nat) :
  fold_defined (Animator.apply_layer deref) order this = Some this' →
  (∀ layer info anim name bone,
     Animator.layers this !! layer = Some info →
     LayerInfo.active info = true →
     LayerInfo.animation info = Some anim →
     Animation.GetBoneIDMap (deref anim) !! name = Some bone →
     AnimatedModel.id bone = Z.of_nat i →
     Animator.GetBoneLayer name ≠ layer) →
  Animator.finalBoneMatrices this' !! i = Animator.finalBoneMatrices this !! i.
Proof.
  revert this. induction order as [|layer rest IH]; intros this.
  - by intros [= <-].
  - cbn [fold_defined]. intros Hfold Hother.
    destruct (Animator.apply_layer deref this layer) as [this1|] eqn:H1;
      [|done].
    cbn [mbind option_bind] in Hfold.
    pose proof (apply_layer_frames deref _ _ _ H1) as Hframes.
    apply frames_fields in Hframes as (_ & Hlayers & _).
    rewrite (IH this1 Hfold).
    + eapply apply_layer_untouched; [exact H1|]. intros; by eapply Hother.
    + intros layer' info anim name bone Hl. rewrite Hlayers in Hl.
      by eapply Hother.
Qed.

(** C3.  In a tick, the passes of the active layers change, of the output
    array that the walk of the main clip produced, only entries whose
    identifier belongs to a bone name that classifies into one of those
    layers: an entry whose identifier every active layer's clip gives only
    to names of other layers keeps the value of the main walk. *)
Theorem layer_pass_leaves_other_layers
    (this this' : Animator.t) (dt : float) :
  Animator.UpdateAnimation deref this dt = Some this' →
  ∃ primary,
    Animator.primary_pass deref (Animator.advance_time deref this dt)
    = Some primary
    ∧ ∀ i : nat,
        (∀ layer info anim name bone,
           Animator.layers (Animator.advance_time deref this dt) !! layer
           = Some info →
           LayerInfo.active info = true →
           LayerInfo.animation info = Some anim →
           Animation.GetBoneIDMap (deref anim) !! name = Some bone →
           AnimatedModel.id bone = Z.of_nat i →
           Animator.GetBoneLayer name ≠ layer) →
        Animator.finalBoneMatrices this' !! i
        = Animator.finalBoneMatrices primary !! i.
Proof.
  unfold Animator.UpdateAnimation. intros Hup.
  destruct (Animator.primary_pass deref _) as [primary|] eqn:Hprimary;
    [|done].
  cbn [mbind option_bind] in Hup. exists primary. split; [done|].
  intros i Hother. eapply apply_layers_untouched; [exact Hup|].
  pose proof (primary_pass_frames deref _ _ Hprimary) as Hframes.
  apply frames_fields in Hframes as (_ & Hlayers & _).
  intros layer info anim name bone Hl. rewrite Hlayers in Hl.
  by eapply Hother.
Qed.
End LayerFacts.

(** ** Manual bone overrides *)

Section OverrideFacts.
Context `{Glm}.
Variable deref : addr → Animation.t.

Lemma in_range_spec {A : Type} (index : Z) (v : list A) :
  Animator.in_range index v = true ↔ 0 ≤ index < Z.of_nat (length v).
Proof. unfold Animator.in_range. rewrite andb_true_iff. lia. Qed.

Lemma in_range_length {A : Type} (index : Z) (v w : list A) :
  length v = length w → Animator.in_range index v = Animator.in_range index w.
Proof. unfold Animator.in_range. by intros ->. Qed.

Lemma overridden_agree (this : Animator.t) (o' : gmap Z mat4)
    (clip : Animation.t) (names : list string) (nodeName : string)
    (nodeTransform : mat4) :
  nodeName ∈ names →
  Animator.agree_on clip names (length (Animator.finalBoneMatrices this))
                    (Animator.boneOverrides this) o' →
  Animator.overridden (Animator.set_boneOverrides o' this) clip nodeName
                      nodeTransform
  = Animator.overridden this clip nodeName nodeTransform.
Proof.
  intros Hin Hagree. unfold Animator.overridden. cbn.
  destruct (Animation.GetBoneIDMap clip !! nodeName) as [info|] eqn:Hinfo;
    [|done].
  destruct (Animator.in_range _ _) eqn:Hrange; [|done].
  apply in_range_spec in Hrange.
  by rewrite (Hagree nodeName info Hin Hinfo Hrange).
Qed.

Lemma write_final_set_boneOverrides (this : Animator.t) (o' : gmap Z mat4)
    (clip : Animation.t) (nodeName : string) (globalTransformation : mat4) :
  Animator.write_final (Animator.set_boneOverrides o' this) clip nodeName
                       globalTransformation
  = Animator.set_boneOverrides o'
      (Animator.write_final this clip nodeName globalTransformation).
Proof.
  unfold Animator.write_final. cbn.
  destruct (Animation.GetBoneIDMap clip !! nodeName) as [info|]; [|done].
  by destruct (Animator.in_range _ _).
Qed.

Lemma agree_on_subset (clip : Animation.t) (names names' : list string)
    (len : nat) (o o' : gmap Z mat4) :
  names' ⊆ names →
  Animator.agree_on clip names len o o' →
  Animator.agree_on clip names' len o o'.
Proof. intros Hsub Hagree name info Hin. apply Hagree. by apply Hsub. Qed.

Lemma CalculateBoneTransform_children_agree (o' : gmap Z mat4)
    (children : list Animation.AssimpNodeData) :
  Forall (λ node, ∀ this anim parentTransform,
            Animator.currentAnimation this = Some anim →
            Animator.agree_on (deref anim) (Animator.node_names node)
              (length (Animator.finalBoneMatrices this))
              (Animator.boneOverrides this) o' →
            Animator.CalculateBoneTransform deref
              (Animator.set_boneOverrides o' this) node parentTransform
            = Animator.set_boneOverrides o'
              <$> Animator.CalculateBoneTransform deref this node
                    parentTransform) children →
  ∀ i globalTransformation this anim,
    Animator.currentAnimation this = Some anim →
    Animator.agree_on (deref anim) (flat_map Animator.node_names children)
      (length (Animator.finalBoneMatrices this))
      (Animator.boneOverrides this) o' →
    Animator.CalculateBoneTransform_children deref i children
      globalTransformation (Animator.set_boneOverrides o' this)
    = Animator.set_boneOverrides o'
      <$> Animator.CalculateBoneTransform_children deref i children
            globalTransformation this.
Proof.
  induction 1 as [|child rest Hchild _ IH]; intros [|i] g this anim Hcur Hagree;
    try reflexivity.
  cbn [Animator.CalculateBoneTransform_children].
  rewrite (Hchild this anim g Hcur).
  2:{ eapply agree_on_subset; [|exact Hagree].
      cbn [flat_map]. intros name Hname. apply elem_of_app. by left. }
  destruct (Animator.CalculateBoneTransform deref this child g)
    as [this1|] eqn:H1; [|reflexivity].
  cbn [fmap option_fmap option_map mbind option_bind].
  pose proof (CalculateBoneTransform_frames deref _ _ _ _ H1) as Hframes.
  pose proof Hframes as [_ Hlen].
  apply frames_fields in Hframes as (Hbo & _ & Hcur1 & _).
  apply (IH i g this1 anim); [congruence|].
  rewrite Hlen, Hbo.
  eapply agree_on_subset; [|exact Hagree].
  cbn [flat_map]. intros name Hname. apply elem_of_app. by right.
Qed.

(** The walk of the main clip gives the same output under two override
    maps that agree on the identifiers its nodes resolve to within the
    output array. *)
Lemma CalculateBoneTransform_agree (o' : gmap Z mat4)
    (node : Animation.AssimpNodeData) :
  ∀ this anim parentTransform,
    Animator.currentAnimation this = Some anim →
    Animator.agree_on (deref anim) (Animator.node_names node)
      (length (Animator.finalBoneMatrices this))
      (Animator.boneOverrides this) o' →
    Animator.CalculateBoneTransform deref
      (Animator.set_boneOverrides o' this) node parentTransform
    = Animator.set_boneOverrides o'
      <$> Animator.CalculateBoneTransform deref this node parentTransform.
Proof.
  induction node as [transformation nodeName childrenCount children IH]
    using AssimpNodeData_tree_ind.
  intros this anim parentTransform Hcur Hagree.
  rewrite !CalculateBoneTransform_node.
  cbn [Animator.currentAnimation Animator.currentTime
       Animator.set_boneOverrides].
  rewrite Hcur. cbn [mbind option_bind].
  destruct (Animator.animated_local (deref anim) (Animator.currentTime this)
              transformation nodeName) as [nodeTransform|]; [|reflexivity].
  cbn [mbind option_bind]. cbv zeta.
  rewrite (overridden_agree this o' (deref anim)
             (Animator.node_names
                (Animation.Node transformation nodeName childrenCount
                                children)));
    [|by left|done].
  rewrite write_final_set_boneOverrides.
  pose proof (write_final_frames this (deref anim) nodeName
                (parentTransform
                 × Animator.overridden this (deref anim) nodeName
                                       nodeTransform)) as Hframes.
  pose proof Hframes as [_ Hlen].
  apply frames_fields in Hframes as (Hbo & _ & Hcur1 & _).
  apply (CalculateBoneTransform_children_agree o' children IH _ _ _ anim);
    [congruence|].
  rewrite Hlen, Hbo.
  eapply agree_on_subset; [|exact Hagree].
  intros name Hname. by right.
Qed.

Lemma CalculateLayerBoneTransform_children_layers
    (this1 this2 : Animator.t) (children : list Animation.AssimpNodeData) :
  Forall (λ node, ∀ parentTransform layer layerMatrices,
            Animator.CalculateLayerBoneTransform deref this1 node
              parentTransform layer layerMatrices
            = Animator.CalculateLayerBoneTransform deref this2 node
                parentTransform layer layerMatrices) children →
  ∀ i globalTransformation layer layerMatrices,
    Animator.CalculateLayerBoneTransform_children deref this1 i children
      globalTransformation layer layerMatrices
    = Animator.CalculateLayerBoneTransform_children deref this2 i children
        globalTransformation layer layerMatrices.
Proof.
  induction 1 as [|child rest Hchild _ IH]; intros [|i] g layer m;
    try reflexivity.
  cbn [Animator.CalculateLayerBoneTransform_children]. rewrite Hchild.
  destruct (Animator.CalculateLayerBoneTransform deref this2 child g layer m);
    [|reflexivity].
  cbn [mbind option_bind]. apply IH.
Qed.

(** The walk of a layer reads, of the animator, the layer map alone. *)
Lemma CalculateLayerBoneTransform_layers (this1 this2 : Animator.t)
    (node : Animation.AssimpNodeData) :
  Animator.layers this1 = Animator.layers this2 →
  ∀ parentTransform layer layerMatrices,
    Animator.CalculateLayerBoneTransform deref this1 node parentTransform
      layer layerMatrices
    = Animator.CalculateLayerBoneTransform deref this2 node parentTransform
        layer layerMatrices.
Proof.
  intros Hlayers.
  induction node as [transformation nodeName childrenCount children IH]
    using AssimpNodeData_tree_ind.
  intros parentTransform layer layerMatrices.
  rewrite !CalculateLayerBoneTransform_node, Hlayers.
  destruct (Animator.layers this2 !! layer) as [info|]; [|reflexivity].
  cbn [mbind option_bind].
  destruct (LayerInfo.animation info) as [anim|]; [|reflexivity].
  cbn [mbind option_bind].
  destruct (Animator.animated_local _ _ _ _) as [nodeTransform|];
    [|reflexivity].
  cbn [mbind option_bind]. cbv zeta.
  by apply CalculateLayerBoneTransform_children_layers.
Qed.

Lemma advance_time_set_boneOverrides (this : Animator.t) (o' : gmap Z mat4)
    (dt : float) :
  Animator.advance_time deref (Animator.set_boneOverrides o' this) dt
  = Animator.set_boneOverrides o' (Animator.advance_time deref this dt).
Proof.
  unfold Animator.advance_time. cbn.
  by destruct (Animator.currentAnimation this).
Qed.

Lemma advance_time_fields (this : Animator.t) (dt : float) :
  Animator.currentAnimation (Animator.advance_time deref this dt)
  = Animator.currentAnimation this
  ∧ Animator.finalBoneMatrices (Animator.advance_time deref this dt)
    = Animator.finalBoneMatrices this
  ∧ Animator.boneOverrides (Animator.advance_time deref this dt)
    = Animator.boneOverrides this.
Proof.
  unfold Animator.advance_time. cbn.
  by destruct (Animator.currentAnimation this) eqn:Hcur.
Qed.

Lemma primary_pass_agree (this : Animator.t) (o' : gmap Z mat4) :
  (∀ anim, Animator.currentAnimation this = Some anim →
           Animator.agree_on (deref anim)
             (Animator.node_names (Animation.GetRootNode (deref anim)))
             (length (Animator.finalBoneMatrices this))
             (Animator.boneOverrides this) o') →
  Animator.primary_pass deref (Animator.set_boneOverrides o' this)
  = Animator.set_boneOverrides o' <$> Animator.primary_pass deref this.
Proof.
  intros Hagree. unfold Animator.primary_pass. cbn.
  destruct (Animator.currentAnimation this) as [anim|] eqn:Hcur;
    [|reflexivity].
  apply (CalculateBoneTransform_agree o' _
           (Animator.set_finalBoneMatrices _ this) anim); [done|].
  cbn. rewrite length_replicate. by apply Hagree.
Qed.

Lemma apply_layer_set_boneOverrides (this : Animator.t) (o' : gmap Z mat4)
    (layer : AnimationLayer) :
  Animator.apply_layer deref (Animator.set_boneOverrides o' this) layer
  = Animator.set_boneOverrides o' <$> Animator.apply_layer deref this layer.
Proof.
  unfold Animator.apply_layer. cbn.
  destruct (Animator.layers this !! layer) as [info|]; [|reflexivity].
  destruct (LayerInfo.animation info) as [anim|]; [|reflexivity].
  destruct (LayerInfo.active info); [|reflexivity].
  rewrite (CalculateLayerBoneTransform_layers
             (Animator.set_boneOverrides o' this) this); [|reflexivity].
  destruct (Animator.CalculateLayerBoneTransform deref this _ _ _ _)
    as [layerMatrices|]; [|reflexivity].
  cbn [mbind option_bind].
  by destruct (fold_defined _ _ _).
Qed.

Lemma apply_layers_set_boneOverrides (order : list AnimationLayer)
    (this : Animator.t) (o' : gmap Z mat4) :
  fold_defined (Animator.apply_layer deref) order
               (Animator.set_boneOverrides o' this)
  = Animator.set_boneOverrides o'
    <$> fold_defined (Animator.apply_layer deref) order this.
Proof.
  revert this. induction order as [|layer rest IH]; intros this;
    [reflexivity|].
  cbn [fold_defined]. rewrite apply_layer_set_boneOverrides.
  destruct (Animator.apply_layer deref this layer) as [this1|];
    [|reflexivity].
  cbn [fmap option_fmap option_map mbind option_bind]. apply IH.
Qed.

(** A tick gives the same state, the override map apart, under two
    override maps that agree where the walk of the main clip can ask. *)
Lemma UpdateAnimation_agree (this : Animator.t) (o' : gmap Z mat4)
    (dt : float) :
  (∀ anim, Animator.currentAnimation this = Some anim →
           Animator.agree_on (deref anim)
             (Animator.node_names (Animation.GetRootNode (deref anim)))
             (length (Animator.finalBoneMatrices this))
             (Animator.boneOverrides this) o') →
  Animator.UpdateAnimation deref (Animator.set_boneOverrides o' this) dt
  = Animator.set_boneOverrides o' <$> Animator.UpdateAnimation deref this dt.
Proof.
  intros Hagree. unfold Animator.UpdateAnimation.
  rewrite advance_time_set_boneOverrides, primary_pass_agree.
  - destruct (Animator.primary_pass deref _) as [this1|]; [|reflexivity].
    cbn [fmap option_fmap option_map mbind option_bind].
    apply apply_layers_set_boneOverrides.
  - intros anim.
    destruct (advance_time_fields this dt) as (-> & -> & ->).
    apply Hagree.
Qed.

(** C7.  At a node of the main clip's hierarchy that resolves to a bone
    identifier within the output array for which an override is
    registered, the walk uses [override * local] as the local transform,
    for the node's global transform, for its output entry and for its
    children.  An override set for an identifier that no node resolves to,
    or that lies outside the output array, changes nothing in the result of
    a tick except the override map itself.  The walk of a layer does not
    depend on the override map. *)
Theorem overrides_premultiply_on_main_walk_only (this : Animator.t) :
  (∀ transformation nodeName childrenCount children parentTransform
     anim info overrideTransform nodeTransform,
     Animator.currentAnimation this = Some anim →
     Animator.animated_local (deref anim) (Animator.currentTime this)
                             transformation nodeName = Some nodeTransform →
     Animation.GetBoneIDMap (deref anim) !! nodeName = Some info →
     Animator.in_range (AnimatedModel.id info)
                       (Animator.finalBoneMatrices this) = true →
     Animator.boneOverrides this !! AnimatedModel.id info
     = Some overrideTransform →
     Animator.CalculateBoneTransform deref this
       (Animation.Node transformation nodeName childrenCount children)
       parentTransform
     = Animator.CalculateBoneTransform_children deref
         (Z.to_nat childrenCount) children
         (parentTransform × (overrideTransform × nodeTransform))
         (Animator.set_finalBoneMatrices
            (<[Z.to_nat (AnimatedModel.id info) :=
                 parentTransform × (overrideTransform × nodeTransform)
                 × AnimatedModel.offset info]>
               (Animator.finalBoneMatrices this))
            this))
  ∧ (∀ boneID overrideTransform dt,
       ¬ Animator.consulted deref this boneID →
       Animator.UpdateAnimation deref
         (Animator.SetBoneOverride this boneID overrideTransform) dt
       = (λ this', Animator.SetBoneOverride this' boneID overrideTransform)
         <$> Animator.UpdateAnimation deref this dt)
  ∧ (∀ o' node parentTransform layer layerMatrices,
       Animator.CalculateLayerBoneTransform deref
         (Animator.set_boneOverrides o' this) node parentTransform layer
         layerMatrices
       = Animator.CalculateLayerBoneTransform deref this node parentTransform
           layer layerMatrices).
Proof.
  split; [|split].
  - intros transformation nodeName childrenCount children parentTransform
      anim info overrideTransform nodeTransform Hcur Hlocal Hinfo Hrange Hov.
    rewrite CalculateBoneTransform_node, Hcur. cbn [mbind option_bind].
    rewrite Hlocal. cbn [mbind option_bind]. cbv zeta.
    unfold Animator.overridden, Animator.write_final.
    by rewrite Hinfo, Hrange, Hov.
  - intros boneID overrideTransform dt Hnot.
    unfold Animator.SetBoneOverride at 1.
    rewrite UpdateAnimation_agree.
    + destruct (Animator.UpdateAnimation deref this dt) as [this'|] eqn:Hup;
        [|reflexivity].
      cbn. f_equal. unfold Animator.SetBoneOverride.
      apply UpdateAnimation_frames, frames_fields in Hup as (Hbo & _).
      rewrite Hbo. unfold Animator.advance_time. cbn.
      by destruct (Animator.currentAnimation this).
    + intros anim Hcur name info Hin Hinfo Hrange.
      destruct (decide (boneID = AnimatedModel.id info)) as [->|Hne].
      * exfalso. apply Hnot. exists anim, name, info.
        repeat split; try done. by apply in_range_spec.
      * by rewrite lookup_insert_ne.
  - intros o' node parentTransform layer layerMatrices.
    by apply CalculateLayerBoneTransform_layers.
Qed.
End OverrideFacts.

(** ** A tick is defined on clips that can be interpolated *)

Section Definedness.
Context `{Glm}.
Variable deref : addr → Animation.t.

(** Every clip of the store has a counted hierarchy and gives every node
    a local transform at every time: no interpolation reads past its
    track. *)
Hypothesis store_counted :
  ∀ anim, Animation.counted (Animation.GetRootNode (deref anim)) = true.
Hypothesis store_interpolates :
  ∀ anim time transformation nodeName,
    is_Some (Animator.animated_local (deref anim) time transformation
                                     nodeName).

Lemma CalculateBoneTransform_defined (node : Animation.AssimpNodeData) :
  Animation.counted node = true →
  ∀ this parentTransform,
    is_Some (Animator.currentAnimation this) →
    is_Some (Animator.CalculateBoneTransform deref this node parentTransform).
Proof.
  induction node as [transformation nodeName childrenCount children IH]
    using AssimpNodeData_tree_ind.
  cbn [Animation.counted]. intros [Hcount Hchildren]%andb_true_iff.
  apply Z.eqb_eq in Hcount. intros this parentTransform [anim Hcur].
  rewrite CalculateBoneTransform_node, Hcur. cbn [mbind option_bind].
  destruct (store_interpolates anim (Animator.currentTime this)
              transformation nodeName) as [nodeTransform ->].
  cbn [mbind option_bind]. cbv zeta.
  rewrite Hcount, Nat2Z.id.
  set (g := parentTransform
            × Animator.overridden this (deref anim) nodeName nodeTransform).
  assert (is_Some (Animator.currentAnimation
                     (Animator.write_final this (deref anim) nodeName g)))
    as Hcur1.
  { pose proof (write_final_frames this (deref anim) nodeName g) as Hframes.
    apply frames_fields in Hframes as (_ & _ & -> & _). by eexists. }
  revert Hcur1.
  generalize (Animator.write_final this (deref anim) nodeName g).
  clear Hcount. clearbody g.
  induction children as [|child rest IHrest]; intros this1 Hcur1;
    [by eexists|].
  cbn [length Animator.CalculateBoneTransform_children].
  apply Forall_cons in IH as [IHchild IHtail].
  cbn [forallb] in Hchildren.
  apply andb_true_iff in Hchildren as [Hchild Hrest].
  destruct (IHchild Hchild this1 g Hcur1) as [this2 Hwalk].
  rewrite Hwalk. cbn [mbind option_bind].
  apply (IHrest IHtail Hrest).
  apply CalculateBoneTransform_frames, frames_fields in Hwalk
    as (_ & _ & -> & _).
  exact Hcur1.
Qed.

Lemma write_layer_length (clip : Animation.t) (nodeName : string)
    (layer : AnimationLayer) (globalTransformation : mat4)
    (layerMatrices : list mat4) :
  length (Animator.write_layer clip nodeName layer globalTransformation
                               layerMatrices)
  = length layerMatrices.
Proof.
  unfold Animator.write_layer.
  destruct (Animation.GetBoneIDMap clip !! nodeName) as [it|]; [|done].
  destruct (bool_decide _); [|done].
  destruct (Animator.in_range _ _); [|done].
  apply length_insert.
Qed.

Lemma CalculateLayerBoneTransform_defined (this : Animator.t)
    (layer : AnimationLayer) (info : LayerInfo.t) (anim : addr)
    (node : Animation.AssimpNodeData) :
  Animator.layers this !! layer = Some info →
  LayerInfo.animation info = Some anim →
  Animation.counted node = true →
  ∀ parentTransform layerMatrices,
    ∃ layerMatrices',
      Animator.CalculateLayerBoneTransform deref this node parentTransform
        layer layerMatrices = Some layerMatrices'
      ∧ length layerMatrices' = length layerMatrices.
Proof.
  intros Hlayer Hanim.
  induction node as [transformation nodeName childrenCount children IH]
    using AssimpNodeData_tree_ind.
  cbn [Animation.counted]. intros [Hcount Hchildren]%andb_true_iff.
  apply Z.eqb_eq in Hcount. intros parentTransform layerMatrices.
  rewrite CalculateLayerBoneTransform_node, Hlayer. cbn [mbind option_bind].
  rewrite Hanim. cbn [mbind option_bind].
  destruct (store_interpolates anim (LayerInfo.currentTime info)
              transformation nodeName) as [nodeTransform ->].
  cbn [mbind option_bind]. cbv zeta.
  rewrite Hcount, Nat2Z.id.
  rewrite <- (write_layer_length (deref anim) nodeName layer
                (parentTransform × nodeTransform) layerMatrices).
  generalize (Animator.write_layer (deref anim) nodeName layer
                (parentTransform × nodeTransform) layerMatrices).
  clear Hcount. intros m. revert m.
  induction children as [|child rest IHrest]; intros m; [by eexists|].
  cbn [length Animator.CalculateLayerBoneTransform_children].
  apply Forall_cons in IH as [IHchild IHtail].
  cbn [forallb] in Hchildren.
  apply andb_true_iff in Hchildren as [Hchild Hrest].
  destruct (IHchild Hchild (parentTransform × nodeTransform) m)
    as (m1 & -> & Hlen1).
  cbn [mbind option_bind].
  destruct (IHrest IHtail Hrest m1) as (m2 & Hloop & Hlen2).
  exists m2. split; [exact Hloop|congruence].
Qed.

Lemma apply_layer_bone_defined (layer : AnimationLayer)
    (layerMatrices final : list mat4)
    (entry : string * AnimatedModel.BoneInfo) :
  length layerMatrices = length final →
  is_Some (Animator.apply_layer_bone layer layerMatrices final entry).
Proof.
  intros Hlen. destruct entry as [name info].
  unfold Animator.apply_layer_bone.
  destruct (bool_decide (Animator.GetBoneLayer name = layer)
            && Animator.in_range (AnimatedModel.id info) final) eqn:Hcond;
    [|by eexists].
  apply andb_true_iff in Hcond as [_ Hrange]. apply in_range_spec in Hrange.
  destruct (at_index_in_range layerMatrices (AnimatedModel.id info))
    as [m ->]; [lia|].
  by eexists.
Qed.

Lemma apply_layer_bones_defined (layer : AnimationLayer)
    (layerMatrices : list mat4)
    (entries : list (string * AnimatedModel.BoneInfo)) (final : list mat4) :
  length layerMatrices = length final →
  is_Some (fold_defined (Animator.apply_layer_bone layer layerMatrices)
                        entries final).
Proof.
  revert final. induction entries as [|entry rest IH]; intros final Hlen;
    [by eexists|].
  cbn [fold_defined].
  destruct (apply_layer_bone_defined layer layerMatrices final entry Hlen)
    as [final1 Hstep].
  rewrite Hstep. cbn [mbind option_bind]. apply IH.
  apply apply_layer_bone_length in Hstep. congruence.
Qed.

Lemma apply_layer_defined (this : Animator.t) (layer : AnimationLayer) :
  is_Some (Animator.apply_layer deref this layer).
Proof.
  unfold Animator.apply_layer.
  destruct (Animator.layers this !! layer) as [info|] eqn:Hlayer;
    [|by eexists].
  destruct (LayerInfo.animation info) as [anim|] eqn:Hanim; [|by eexists].
  destruct (LayerInfo.active info); [|by eexists].
  destruct (CalculateLayerBoneTransform_defined this layer info anim
              (Animation.GetRootNode (deref anim)) Hlayer Hanim
              (store_counted anim) mat4_identity
              (replicate (length (Animator.finalBoneMatrices this))
                         mat4_identity)) as (m & -> & Hlen).
  cbn [mbind option_bind]. rewrite length_replicate in Hlen.
  destruct (apply_layer_bones_defined layer m
              (map_to_list (Animation.GetBoneIDMap (deref anim)))
              (Animator.finalBoneMatrices this) Hlen) as [final ->].
  by eexists.
Qed.

(** On such a store [UpdateAnimation] is defined in every state and for
    every frame time. *)
Lemma UpdateAnimation_defined (this : Animator.t) (dt : float) :
  is_Some (Animator.UpdateAnimation deref this dt).
Proof.
  unfold Animator.UpdateAnimation.
  assert (is_Some (Animator.primary_pass deref
                     (Animator.advance_time deref this dt)))
    as [this1 ->].
  { unfold Animator.primary_pass.
    cbn [Animator.currentAnimation Animator.set_finalBoneMatrices].
    destruct (Animator.currentAnimation _) as [anim|] eqn:Hcur; [|by eexists].
    apply CalculateBoneTransform_defined; [apply store_counted|].
    cbn. by eexists. }
  cbn [mbind option_bind]. generalize this1. clear this1.
  induction layer_order as [|layer rest IH]; intros this1; [by eexists|].
  cbn [fold_defined].
  destruct (apply_layer_defined this1 layer) as [this2 ->].
  cbn [mbind option_bind]. apply IH.
Qed.
End Definedness.

Section SingleKeyClips.
Context `{Glm}.

(** A bone built from a channel with one key on each track has a local
    transform at every time. *)
Lemma one_key_bone_interpolates (nm nodeName : string) (id : Z)
    (pk sk : aiVectorKey) (rk : aiQuatKey) (t : float) :
  is_Some (Bone.Update
             (Bone.Bone nm id {| mNodeName := nodeName; mPositionKeys := [pk];
                                 mRotationKeys := [rk];
                                 mScalingKeys := [sk] |}) t).
Proof. rewrite single_key_Update. by eexists. Qed.
End SingleKeyClips.

(** ** The properties on the stage *)

Lemma layer_pass_leaves_other_layers_witness :
  ∃ this' primary,
    Animator.UpdateAnimation Stage.store Stage.nodding Stage.short_frame
    = Some this'
    ∧ Animator.primary_pass Stage.store
        (Animator.advance_time Stage.store Stage.nodding Stage.short_frame)
      = Some primary
    ∧ Animator.finalBoneMatrices this' !! 0%nat
      = Animator.finalBoneMatrices primary !! 0%nat
    ∧ Animator.finalBoneMatrices this' !! 1%nat
      ≠ Animator.finalBoneMatrices primary !! 1%nat.
Proof.
  destruct (Animator.UpdateAnimation Stage.store Stage.nodding
              Stage.short_frame) as [this'|] eqn:Hup;
    [|vm_compute in Hup; discriminate Hup].
  destruct (layer_pass_leaves_other_layers Stage.store Stage.nodding this'
              Stage.short_frame Hup) as (primary & Hprimary & Hkeep).
  exists this', primary.
  split; [reflexivity|]. split; [exact Hprimary|]. split.
  - apply Hkeep. clear Hup Hprimary Hkeep.
    intros layer info anim name bone Hl Hact Hanim Hname Hid.
    destruct layer; vm_compute in Hl; try discriminate Hl.
    injection Hl as <-. injection Hanim as <-.
    apply elem_of_map_to_list in Hname. vm_compute in Hname.
    repeat (apply elem_of_cons in Hname as [Hname|Hname];
            [injection Hname as -> ->;
             try (vm_compute in Hid; discriminate Hid);
             vm_compute; intros Hne; discriminate Hne|]).
    by apply elem_of_nil in Hname.
  - clear Hkeep. vm_compute in Hup, Hprimary.
    injection Hup as <-. injection Hprimary as <-.
    vm_compute. intros Hne. discriminate Hne.
Defined.

Lemma reassignment_and_layer_restart_witness :
  Animator.PlayAnimation Stage.store Stage.walking (Some Stage.walk_clip)
  = Returns Stage.walking
  ∧ Animator.currentTime
      (object_of (Animator.PlayAnimation Stage.store Stage.walking
                    (Some Stage.head_clip))) = Float32.zero
  ∧ Animator.layers
      (Animator.PlayAnimationOnLayer_looping Stage.nodding
         (Some Stage.head_clip) HEAD false) !! HEAD
    = Some {| LayerInfo.animation := Some Stage.head_clip;
              LayerInfo.currentTime := Float32.zero;
              LayerInfo.active := true;
              LayerInfo.looping := false |}
  ∧ ∃ this1,
      Animator.UpdateAnimation Stage.store Stage.nodding Stage.short_frame
      = Some this1
      ∧ Animator.currentTime this1 = Float32.of_Z 5
      ∧ Animator.PlayAnimation Stage.store this1 (Some Stage.walk_clip)
        = Returns this1
      ∧ Animator.currentTime
          (object_of (Animator.PlayAnimation Stage.store this1
                        (Some Stage.head_clip))) = Float32.zero
      ∧ Animator.layers this1 !! HEAD
        = Some {| LayerInfo.animation := Some Stage.head_clip;
                  LayerInfo.currentTime := Float32.of_Z 5;
                  LayerInfo.active := true;
                  LayerInfo.looping := false |}
      ∧ Animator.layers
          (Animator.PlayAnimationOnLayer this1 (Some Stage.head_clip) HEAD)
        !! HEAD
        = Some {| LayerInfo.animation := Some Stage.head_clip;
                  LayerInfo.currentTime := Float32.zero;
                  LayerInfo.active := true;
                  LayerInfo.looping := false |}.
Proof.
  split; [|split; [|split]].
  - apply (reassignment_and_layer_restart Stage.store Stage.walking
             (Some Stage.walk_clip) HEAD false). reflexivity.
  - apply (reassignment_and_layer_restart Stage.store Stage.walking
             (Some Stage.head_clip) HEAD false). discriminate.
  - apply (reassignment_and_layer_restart Stage.store Stage.nodding
             (Some Stage.head_clip) HEAD false).
  - destruct (Animator.UpdateAnimation Stage.store Stage.nodding
                Stage.short_frame) as [this1|] eqn:Htick;
      [|vm_compute in Htick; discriminate Htick].
    assert (Animator.currentAnimation this1 = Some Stage.walk_clip
            ∧ Animator.currentTime this1 = Float32.of_Z 5
            ∧ Animator.layers this1 !! HEAD
              = Some {| LayerInfo.animation := Some Stage.head_clip;
                        LayerInfo.currentTime := Float32.of_Z 5;
                        LayerInfo.active := true;
                        LayerInfo.looping := false |})
      as (Hcur & Htime & Hlayer).
    { vm_compute in Htick. injection Htick as <-.
      split; [reflexivity|]. split; vm_compute; reflexivity. }
    clear Htick. exists this1. split; [reflexivity|]. split; [exact Htime|].
    destruct (reassignment_and_layer_restart Stage.store this1
                (Some Stage.walk_clip) HEAD false)
      as (_ & Hsame & _ & _ & _ & _ & Hrestart).
    split; [exact (Hsame Hcur)|].
    destruct (reassignment_and_layer_restart Stage.store this1
                (Some Stage.head_clip) HEAD false)
      as (_ & _ & Hother & _).
    split.
    { apply Hother. rewrite Hcur. discriminate. }
    split; [exact Hlayer|].
    exact (proj1 (Hrestart Stage.head_clip (Float32.of_Z 5) Hlayer)).
Defined.

(** Assigning a null pointer to a layer is how the layer is stopped, and
    what [StopLayer] does: the layer is left without a clip, inactive, its
    clock at 0. *)
Lemma PlayAnimationOnLayer_null_stops_the_layer :
  Animator.layers Stage.nodding !! HEAD
  = Some {| LayerInfo.animation := Some Stage.head_clip;
            LayerInfo.currentTime := Float32.zero;
            LayerInfo.active := true;
            LayerInfo.looping := false |}
  ∧ Animator.layers
      (Animator.PlayAnimationOnLayer_looping Stage.nodding None HEAD false)
    !! HEAD
    = Some {| LayerInfo.animation := None;
              LayerInfo.currentTime := Float32.zero;
              LayerInfo.active := false;
              LayerInfo.looping := false |}
  ∧ Animator.layers (Animator.StopLayer Stage.nodding HEAD) !! HEAD
    = Some {| LayerInfo.animation := None;
              LayerInfo.currentTime := Float32.zero;
              LayerInfo.active := false;
              LayerInfo.looping := false |}.
Proof. repeat split; vm_compute; reflexivity. Qed.

Lemma one_shot_ends_when_clock_reaches_duration_witness :
  ∃ this1 this2,
    Animator.ticks Stage.store Stage.nodding [Stage.short_frame] = Some this1
    ∧ Animator.layers this1 !! HEAD
      = Some {| LayerInfo.animation := Some Stage.head_clip;
                LayerInfo.currentTime := Float32.of_Z 5;
                LayerInfo.active := true;
                LayerInfo.looping := false |}
    ∧ Animator.ticks Stage.store Stage.nodding
        [Stage.short_frame; Stage.short_frame] = Some this2
    ∧ Animator.layers this2 !! HEAD
      = Some {| LayerInfo.animation := None;
                LayerInfo.currentTime := Float32.zero;
                LayerInfo.active := false;
                LayerInfo.looping := false |}.
Proof.
  destruct (Animator.ticks Stage.store Stage.nodding
              ([Stage.short_frame] ++ [Stage.short_frame]))
    as [this2|] eqn:Hticks; [|vm_compute in Hticks; discriminate Hticks].
  destruct (one_shot_ends_when_clock_reaches_duration Stage.store
              Stage.nodding this2 HEAD Stage.head_clip Float32.zero false
              [Stage.short_frame] Stage.short_frame)
    as [Hone _]; [vm_compute; reflexivity|exact Hticks|].
  destruct Hone as ((this1 & Hpre & Hl1) & Hl2); [reflexivity| |].
  { intros [|[|k]] Hk; cbn in Hk; try lia. vm_compute. reflexivity. }
  exists this1, this2. split; [exact Hpre|]. split; [exact Hl1|].
  split; [exact Hticks|exact Hl2].
Defined.

Lemma overrides_premultiply_on_main_walk_only_witness :
  (∀ parentTransform,
     Animator.CalculateBoneTransform Stage.store Stage.pushed
       (Animation.Node Stage.bind "DEF-head" 0 []) parentTransform
     = Some (Animator.set_finalBoneMatrices
               (<[1%nat :=
                    parentTransform × (Stage.push × Stage.one_key_local)
                    × mat4_identity]>
                  (Animator.finalBoneMatrices Stage.pushed))
               Stage.pushed))
  ∧ Animator.UpdateAnimation Stage.store
      (Animator.SetBoneOverride Stage.walking 7 Stage.push) Stage.short_frame
    = (λ this', Animator.SetBoneOverride this' 7 Stage.push)
      <$> Animator.UpdateAnimation Stage.store Stage.walking Stage.short_frame.
Proof.
  split.
  - intros parentTransform.
    apply (proj1 (overrides_premultiply_on_main_walk_only Stage.store
                    Stage.pushed)
             Stage.bind "DEF-head" 0 [] parentTransform Stage.walk_clip
             {| AnimatedModel.id := 1; AnimatedModel.offset := mat4_identity |}
             Stage.push Stage.one_key_local);
      vm_compute; reflexivity.
  - apply (overrides_premultiply_on_main_walk_only Stage.store Stage.walking).
    intros (anim & name & info & _ & _ & _ & _ & Hrange).
    vm_compute in Hrange. discriminate Hrange.
Defined.

Lemma primary_clock_advances_and_wraps_witness :
  ∃ this' this'',
    Animator.UpdateAnimation Stage.store Stage.walking Stage.long_frame
    = Some this'
    ∧ Animator.currentTime this' = Float32.of_Z 20
    ∧ Animator.UpdateAnimation Stage.store this' Stage.long_frame = Some this''
    ∧ Animator.currentTime this'' = Float32.zero.
Proof.
  destruct (Animator.UpdateAnimation Stage.store Stage.walking
              Stage.long_frame) as [this'|] eqn:Hup;
    [|vm_compute in Hup; discriminate Hup].
  destruct (primary_clock_advances_and_wraps Stage.store Stage.walking this'
              Stage.long_frame Stage.walk_clip eq_refl Hup) as [_ Hscenario].
  assert (Animation.GetDuration (Stage.store Stage.walk_clip)
          = Float32.of_Z 40) as HD by (vm_compute; reflexivity).
  assert (Animation.ticksPerSecond (Stage.store Stage.walk_clip) = 25) as HR
    by (vm_compute; reflexivity).
  destruct (Hscenario HD HR eq_refl eq_refl) as [H20 H0].
  destruct (Animator.UpdateAnimation Stage.store this' Stage.long_frame)
    as [this''|] eqn:Hup'.
  - exists this', this''. split; [reflexivity|]. split; [exact H20|].
    split; [exact Hup'|]. apply H0. reflexivity.
  - exfalso. vm_compute in Hup. injection Hup as <-.
    vm_compute in Hup'. discriminate Hup'.
Defined.

Lemma PlayAnimation_null_keeps_matrices_witness :
  ∃ this',
    Animator.PlayAnimation Stage.store Stage.walking None = Returns this'
    ∧ Animator.currentAnimation this' = None
    ∧ Animator.currentTime this' = Float32.zero
    ∧ length (Animator.finalBoneMatrices this') = 3%nat.
Proof.
  destruct (PlayAnimation_null_keeps_matrices Stage.store Stage.walking
              Stage.walk_clip eq_refl)
    as ((this' & Hplay & Hcur & Htime & Hfinal) & _).
  exists this'. split; [exact Hplay|]. split; [exact Hcur|].
  split; [exact Htime|]. rewrite Hfinal. reflexivity.
Defined.

(** ** When a bone has a local transform *)

Section TrackFacts.
Context `{Glm}.

(** The loop stops at the first index whose successor key lies beyond the
    query time. *)
Lemma scan_stops {K : Type} (stamp : K → float) (v : list K) (t : float)
    (n : Z) (before after : list Z) (i : Z) (k : K) :
  (∀ j, j ∈ before →
        ∃ k', at_index v (j + 1) = Some k' ∧ ltb t (stamp k') = false) →
  at_index v (i + 1) = Some k → ltb t (stamp k) = true →
  Bone.scan stamp v t (before ++ i :: after) n = Some i.
Proof.
  intros Hbefore Hk Hlt. induction before as [|j rest IH]; cbn [app Bone.scan].
  - rewrite Hk. cbn. by rewrite Hlt.
  - destruct (Hbefore j) as (k' & -> & Hk'); [by left|]. cbn. rewrite Hk'.
    apply IH. intros j' Hj'. apply Hbefore. by right.
Qed.

(** Among the keys after the first, the first one beyond the query time. *)
Lemma first_later_key {K : Type} (stamp : K → float) (v : list K) (t : float)
    (j : nat) (k : K) :
  (1 ≤ j)%nat → v !! j = Some k → ltb t (stamp k) = true →
  ∃ (i : nat) ki kj,
    (i < j)%nat ∧ v !! i = Some ki ∧ v !! S i = Some kj
    ∧ ltb t (stamp kj) = true
    ∧ ∀ (j' : nat) k', (1 ≤ j' ≤ i)%nat → v !! j' = Some k' →
                       ltb t (stamp k') = false.
Proof.
  intros Hj Hk Hlt.
  destruct (list_find_elem_of (λ k, ltb t (stamp k) = true) (drop 1 v) k)
    as [[m km] Hfind].
  { apply list_elem_of_lookup. exists (j - 1)%nat. rewrite lookup_drop.
    by replace (1 + (j - 1))%nat with j by lia. }
  { done. }
  apply list_find_Some in Hfind as (Hm & Hltm & Hfirst).
  rewrite lookup_drop in Hm. cbn in Hm.
  destruct (lookup_lt_is_Some_2 v m) as [ki Hki].
  { apply lookup_lt_Some in Hm. lia. }
  exists m, ki, km. repeat split; try done.
  - destruct (decide (m < j)%nat) as [|Hge]; [done|]. exfalso.
    destruct (decide (m = j - 1)%nat) as [->|]; [lia|].
    apply (Hfirst (j - 1)%nat k); [|lia|done].
    rewrite lookup_drop. by replace (1 + (j - 1))%nat with j by lia.
  - intros j' k' Hj' Hk'. specialize (Hfirst (j' - 1)%nat k').
    destruct (ltb t (stamp k')); [|done]. exfalso. apply Hfirst; [|lia|done].
    rewrite lookup_drop. by replace (1 + (j' - 1))%nat with j' by lia.
Qed.

(** The search on a whole track: it answers the first bracketing pair. *)
Lemma scan_first_bracket {K : Type} (stamp : K → float) (v : list K)
    (t : float) (i : nat) (kj : K) :
  v !! S i = Some kj → ltb t (stamp kj) = true →
  (∀ (j' : nat) k', (1 ≤ j' ≤ i)%nat → v !! j' = Some k' →
                    ltb t (stamp k') = false) →
  Bone.scan stamp v t (seqZ 0 (Z.of_nat (length v) - 1))
            (Z.of_nat (length v)) = Some (Z.of_nat i).
Proof.
  intros Hkj Hlt Hfirst. pose proof (lookup_lt_Some _ _ _ Hkj) as Hlen.
  replace (Z.of_nat (length v) - 1)
    with (Z.of_nat i + (Z.of_nat (length v) - 1 - Z.of_nat i)) by lia.
  rewrite seqZ_app by lia.
  rewrite (seqZ_cons (0 + Z.of_nat i)) by lia.
  apply (scan_stops _ _ _ _ _ _ _ kj).
  - intros j [Hj0 Hj1]%elem_of_seqZ.
    destruct (lookup_lt_is_Some_2 v (Z.to_nat (j + 1))) as [k' Hk']; [lia|].
    exists k'. split.
    + unfold at_index. destruct (Z.ltb_spec (j + 1) 0); [lia|done].
    + apply (Hfirst (Z.to_nat (j + 1))); [lia|done].
  - replace (0 + Z.of_nat i + 1) with (Z.of_nat (S i)) by lia.
    by rewrite at_index_nat.
  - done.
Qed.

(** A track of other than one key has its two reads in range exactly when
    a key after the first lies beyond the query time. *)
Lemma track_reads_defined {K : Type} (stamp : K → float) (v : list K)
    (t : float) :
  (∃ i ki kj,
     Bone.scan stamp v t (seqZ 0 (Z.of_nat (length v) - 1))
               (Z.of_nat (length v)) = Some i
     ∧ at_index v i = Some ki ∧ at_index v (i + 1) = Some kj)
  ↔ ∃ (j : nat) k, (1 ≤ j)%nat ∧ v !! j = Some k ∧ ltb t (stamp k) = true.
Proof.
  split.
  - intros (i & ki & kj & Hscan & Hki & Hkj).
    apply scan_result in Hscan as [[Hin (k & Hk & Hlt)]| ->].
    + apply seqZ_range in Hin as [Hi0 Hi1]. exists (Z.to_nat (i + 1)), k.
      split; [lia|]. split; [|done]. revert Hk. unfold at_index.
      by destruct (Z.ltb_spec (i + 1) 0); [lia|].
    + apply at_index_Some_range in Hkj. lia.
  - intros (j & k & Hj & Hk & Hlt).
    destruct (first_later_key stamp v t j k Hj Hk Hlt)
      as (i & ki & kj & Hij & Hki & Hkj & Hltj & Hfirst).
    exists (Z.of_nat i), ki, kj. split; [by eapply scan_first_bracket|].
    rewrite at_index_nat. split; [done|].
    replace (Z.of_nat i + 1) with (Z.of_nat (S i)) by lia.
    by rewrite at_index_nat.
Qed.

Lemma InterpolatePosition_defined (nm : string) (id : Z) (ch : aiNodeAnim)
    (t : float) :
  is_Some (Bone.InterpolatePosition (Bone.Bone nm id ch) t)
  ↔ mNumPositionKeys ch = 1
    ∨ ∃ (j : nat) k, (1 ≤ j)%nat ∧ mPositionKeys ch !! j = Some k
                     ∧ ltb t (to_float (vk_mTime k)) = true.
Proof.
  set (b := Bone.Bone nm id ch).
  assert (Z.of_nat (length (Bone.positions b)) = mNumPositionKeys ch) as Hlen.
  { subst b. cbn. by rewrite length_map. }
  assert ((∃ (j : nat) k, (1 ≤ j)%nat ∧ mPositionKeys ch !! j = Some k
                          ∧ ltb t (to_float (vk_mTime k)) = true)
          ↔ ∃ (j : nat) k, (1 ≤ j)%nat ∧ Bone.positions b !! j = Some k
                           ∧ ltb t (Bone.kp_timeStamp k) = true) as ->.
  { split; intros (j & k & Hj & Hk & Hlt).
    - eexists j, _. split; [done|]. subst b. rewrite positions_lookup, Hk.
      split; [reflexivity|done].
    - subst b. rewrite positions_lookup in Hk.
      destruct (mPositionKeys ch !! j) as [k0|] eqn:Hk0; [|done].
      injection Hk as <-. by exists j, k0. }
  rewrite <- track_reads_defined. unfold Bone.InterpolatePosition.
  unfold Bone.GetPositionIndex.
  replace (Bone.numPositions b) with (mNumPositionKeys ch) by done.
  rewrite Hlen. clearbody b.
  destruct (Z.eqb_spec (mNumPositionKeys ch) 1) as [Hone|Hmany].
  - split; [by left|]. intros _.
    destruct (at_index_in_range (Bone.positions b) 0) as [k ->]; [lia|].
    by eexists.
  - split.
    + intros [m Hm]. right.
      destruct (Bone.scan _ _ _ _ _) as [i|]; [|done]. cbn in Hm.
      destruct (at_index (Bone.positions b) i) as [ki|] eqn:Hki; [|done].
      destruct (at_index (Bone.positions b) (i + 1)) as [kj|] eqn:Hkj;
        [|done].
      by exists i, ki, kj.
    + intros [Hone|(i & ki & kj & -> & Hki & Hkj)]; [done|]. cbn.
      rewrite Hki, Hkj. by eexists.
Qed.
Lemma InterpolateRotation_defined (nm : string) (id : Z) (ch : aiNodeAnim)
    (t : float) :
  is_Some (Bone.InterpolateRotation (Bone.Bone nm id ch) t)
  ↔ mNumRotationKeys ch = 1
    ∨ ∃ (j : nat) k, (1 ≤ j)%nat ∧ mRotationKeys ch !! j = Some k
                     ∧ ltb t (to_float (qk_mTime k)) = true.
Proof.
  set (b := Bone.Bone nm id ch).
  assert (Z.of_nat (length (Bone.rotations b)) = mNumRotationKeys ch) as Hlen.
  { subst b. cbn. by rewrite length_map. }
  assert ((∃ (j : nat) k, (1 ≤ j)%nat ∧ mRotationKeys ch !! j = Some k
                          ∧ ltb t (to_float (qk_mTime k)) = true)
          ↔ ∃ (j : nat) k, (1 ≤ j)%nat ∧ Bone.rotations b !! j = Some k
                           ∧ ltb t (Bone.kr_timeStamp k) = true) as ->.
  { split; intros (j & k & Hj & Hk & Hlt).
    - eexists j, _. split; [done|]. subst b. rewrite rotations_lookup, Hk.
      split; [reflexivity|done].
    - subst b. rewrite rotations_lookup in Hk.
      destruct (mRotationKeys ch !! j) as [k0|] eqn:Hk0; [|done].
      injection Hk as <-. by exists j, k0. }
  rewrite <- track_reads_defined. unfold Bone.InterpolateRotation.
  unfold Bone.GetRotationIndex.
  replace (Bone.numRotations b) with (mNumRotationKeys ch) by done.
  rewrite Hlen. clearbody b.
  destruct (Z.eqb_spec (mNumRotationKeys ch) 1) as [Hone|Hmany].
  - split; [by left|]. intros _.
    destruct (at_index_in_range (Bone.rotations b) 0) as [k ->]; [lia|].
    by eexists.
  - split.
    + intros [m Hm]. right.
      destruct (Bone.scan _ _ _ _ _) as [i|]; [|done]. cbn in Hm.
      destruct (at_index (Bone.rotations b) i) as [ki|] eqn:Hki; [|done].
      destruct (at_index (Bone.rotations b) (i + 1)) as [kj|] eqn:Hkj;
        [|done].
      by exists i, ki, kj.
    + intros [Hone|(i & ki & kj & -> & Hki & Hkj)]; [done|]. cbn.
      rewrite Hki, Hkj. by eexists.
Qed.
Lemma InterpolateScaling_defined (nm : string) (id : Z) (ch : aiNodeAnim)
    (t : float) :
  is_Some (Bone.InterpolateScaling (Bone.Bone nm id ch) t)
  ↔ mNumScalingKeys ch = 1
    ∨ ∃ (j : nat) k, (1 ≤ j)%nat ∧ mScalingKeys ch !! j = Some k
                     ∧ ltb t (to_float (vk_mTime k)) = true.
Proof.
  set (b := Bone.Bone nm id ch).
  assert (Z.of_nat (length (Bone.scales b)) = mNumScalingKeys ch) as Hlen.
  { subst b. cbn. by rewrite length_map. }
  assert ((∃ (j : nat) k, (1 ≤ j)%nat ∧ mScalingKeys ch !! j = Some k
                          ∧ ltb t (to_float (vk_mTime k)) = true)
          ↔ ∃ (j : nat) k, (1 ≤ j)%nat ∧ Bone.scales b !! j = Some k
                           ∧ ltb t (Bone.ks_timeStamp k) = true) as ->.
  { split; intros (j & k & Hj & Hk & Hlt).
    - eexists j, _. split; [done|]. subst b. rewrite scales_lookup, Hk.
      split; [reflexivity|done].
    - subst b. rewrite scales_lookup in Hk.
      destruct (mScalingKeys ch !! j) as [k0|] eqn:Hk0; [|done].
      injection Hk as <-. by exists j, k0. }
  rewrite <- track_reads_defined. unfold Bone.InterpolateScaling.
  unfold Bone.GetScaleIndex.
  replace (Bone.numScalings b) with (mNumScalingKeys ch) by done.
  rewrite Hlen. clearbody b.
  destruct (Z.eqb_spec (mNumScalingKeys ch) 1) as [Hone|Hmany].
  - split; [by left|]. intros _.
    destruct (at_index_in_range (Bone.scales b) 0) as [k ->]; [lia|].
    by eexists.
  - split.
    + intros [m Hm]. right.
      destruct (Bone.scan _ _ _ _ _) as [i|]; [|done]. cbn in Hm.
      destruct (at_index (Bone.scales b) i) as [ki|] eqn:Hki; [|done].
      destruct (at_index (Bone.scales b) (i + 1)) as [kj|] eqn:Hkj;
        [|done].
      by exists i, ki, kj.
    + intros [Hone|(i & ki & kj & -> & Hki & Hkj)]; [done|]. cbn.
      rewrite Hki, Hkj. by eexists.
Qed.

(** X1. [Bone::Update] is defined exactly when each of the three tracks
    has one key, or has a key after its first whose time stamp lies
    beyond the query time.  A track without keys, and a track of several
    keys none of which lies beyond the query time, both make the
    interpolation read outside the track. *)
Theorem Update_defined_iff_every_track_brackets
    (nm : string) (id : Z) (ch : aiNodeAnim) (t : float) :
  is_Some (Bone.Update (Bone.Bone nm id ch) t)
  ↔ (mNumPositionKeys ch = 1
     ∨ ∃ (j : nat) k, (1 ≤ j)%nat ∧ mPositionKeys ch !! j = Some k
                      ∧ ltb t (to_float (vk_mTime k)) = true)
    ∧ (mNumRotationKeys ch = 1
       ∨ ∃ (j : nat) k, (1 ≤ j)%nat ∧ mRotationKeys ch !! j = Some k
                        ∧ ltb t (to_float (qk_mTime k)) = true)
    ∧ (mNumScalingKeys ch = 1
       ∨ ∃ (j : nat) k, (1 ≤ j)%nat ∧ mScalingKeys ch !! j = Some k
                        ∧ ltb t (to_float (vk_mTime k)) = true).
Proof.
  rewrite <- (InterpolatePosition_defined nm id ch t),
    <- (InterpolateRotation_defined nm id ch t),
    <- (InterpolateScaling_defined nm id ch t).
  unfold Bone.Update.
  destruct (Bone.InterpolatePosition _ t) as [T|]; cbn [mbind option_bind].
  - destruct (Bone.InterpolateRotation _ t) as [R|]; cbn [mbind option_bind].
    + destruct (Bone.InterpolateScaling _ t) as [S|]; cbn [mbind option_bind].
      * split; intros _; [|exact (mk_is_Some _ _ eq_refl)].
        split; [exact (mk_is_Some _ _ eq_refl)|].
        split; exact (mk_is_Some _ _ eq_refl).
      * split; [intros Hn; by apply is_Some_None in Hn|].
        intros (_ & _ & Hn). by apply is_Some_None in Hn.
    + split; [intros Hn; by apply is_Some_None in Hn|].
      intros (_ & Hn & _). by apply is_Some_None in Hn.
  - split; [intros Hn; by apply is_Some_None in Hn|].
    intros (Hn & _). by apply is_Some_None in Hn.
Qed.

(** X2. When some position key after the first lies beyond the query
    time, [GetPositionIndex] answers the first index [i] whose successor
    key does, and [InterpolatePosition] blends the keys [i] and [i + 1]
    with the factor [(t - t_i) / (t_(i+1) - t_i)], computed in binary32
    from the time stamps as they are.  The factor is not clamped: a query
    time before the first key uses the pair [(0, 1)] with a negative
    factor. *)
Theorem position_interpolates_first_bracket
    (nm : string) (id : Z) (ch : aiNodeAnim) (t : float) (j : nat)
    (k : aiVectorKey) :
  (1 ≤ j)%nat → mPositionKeys ch !! j = Some k →
  ltb t (to_float (vk_mTime k)) = true →
  ∃ (i : nat) ki kj,
    (i < j)%nat
    ∧ mPositionKeys ch !! i = Some ki ∧ mPositionKeys ch !! S i = Some kj
    ∧ ltb t (to_float (vk_mTime kj)) = true
    ∧ (∀ (j' : nat) k', (1 ≤ j' ≤ i)%nat → mPositionKeys ch !! j' = Some k' →
                        ltb t (to_float (vk_mTime k')) = false)
    ∧ Bone.GetPositionIndex (Bone.Bone nm id ch) t = Some (Z.of_nat i)
    ∧ Bone.InterpolatePosition (Bone.Bone nm id ch) t
      = Some (translate mat4_identity
                (mix (AssimpGLMHelpers.GetGLMVec (vk_mValue ki))
                     (AssimpGLMHelpers.GetGLMVec (vk_mValue kj))
                     (Float32.div
                        (Float32.sub t (to_float (vk_mTime ki)))
                        (Float32.sub (to_float (vk_mTime kj))
                                     (to_float (vk_mTime ki)))))).
Proof.
  intros Hj Hk Hlt.
  destruct (first_later_key (λ k, to_float (vk_mTime k)) (mPositionKeys ch)
              t j k Hj Hk Hlt)
    as (i & ki & kj & Hij & Hki & Hkj & Hltj & Hfirst).
  exists i, ki, kj. do 5 (split; [done|]).
  set (b := Bone.Bone nm id ch).
  assert (Z.of_nat (length (Bone.positions b)) = mNumPositionKeys ch) as Hlen.
  { subst b. cbn. by rewrite length_map. }
  assert (Bone.GetPositionIndex b t = Some (Z.of_nat i)) as Hidx.
  { unfold Bone.GetPositionIndex.
    replace (Bone.numPositions b) with (mNumPositionKeys ch) by done.
    rewrite <- Hlen.
    apply (scan_first_bracket Bone.kp_timeStamp (Bone.positions b) t i
             {| Bone.position := AssimpGLMHelpers.GetGLMVec (vk_mValue kj);
                Bone.kp_timeStamp := to_float (vk_mTime kj) |}).
    - subst b. by rewrite positions_lookup, Hkj.
    - done.
    - intros j' k' Hj' Hk'. subst b. rewrite positions_lookup in Hk'.
      destruct (mPositionKeys ch !! j') as [k0|] eqn:Hk0; [|done].
      injection Hk' as <-. cbn. by eapply Hfirst. }
  split; [done|].
  unfold Bone.InterpolatePosition.
  replace (Bone.numPositions b) with (mNumPositionKeys ch) by done.
  apply lookup_lt_Some in Hkj as Hn.
  destruct (Z.eqb_spec (mNumPositionKeys ch) 1) as [Hone|_].
  { unfold mNumPositionKeys in Hone. lia. }
  rewrite Hidx. cbn [mbind option_bind].
  replace (Z.of_nat i + 1) with (Z.of_nat (S i)) by lia.
  rewrite !at_index_nat. subst b. rewrite !positions_lookup, Hki, Hkj.
  reflexivity.
Qed.
End TrackFacts.

Lemma position_interpolates_first_bracket_witness :
  Bone.GetPositionIndex
    (Bone.Bone "DEF-spine" 0 (Sample.two_key_channel "DEF-spine"))
    (Float32.of_Z (-3)) = Some 0
  ∧ Bone.InterpolatePosition (H := Symbolic.glm)
      (Bone.Bone "DEF-spine" 0 (Sample.two_key_channel "DEF-spine"))
      (Float32.of_Z (-3))
    = Some (translate mat4_identity
              (mix (AssimpGLMHelpers.GetGLMVec Sample.origin)
                   (AssimpGLMHelpers.GetGLMVec Sample.unit_scale)
                   (Float32.of_frac (-3) 10)))
  ∧ ltb (Float32.of_frac (-3) 10) Float32.zero = true
  ∧ Bone.InterpolatePosition (H := Symbolic.glm)
      (Bone.Bone "DEF-spine" 0 (Sample.two_key_channel "DEF-spine"))
      (Float32.of_Z 5)
    = Some (translate mat4_identity
              (mix (AssimpGLMHelpers.GetGLMVec Sample.origin)
                   (AssimpGLMHelpers.GetGLMVec Sample.unit_scale)
                   (Float32.of_frac 1 2))).
Proof.
  destruct (position_interpolates_first_bracket (H := Symbolic.glm)
              "DEF-spine" 0 (Sample.two_key_channel "DEF-spine")
              (Float32.of_Z (-3)) 1 (Sample.vkey 10 Sample.unit_scale))
    as (i & ki & kj & Hij & Hki & Hkj & _ & _ & Hidx & Hpos);
    [lia|reflexivity|vm_compute; reflexivity|].
  destruct (position_interpolates_first_bracket (H := Symbolic.glm)
              "DEF-spine" 0 (Sample.two_key_channel "DEF-spine")
              (Float32.of_Z 5) 1 (Sample.vkey 10 Sample.unit_scale))
    as (i' & ki' & kj' & Hij' & Hki' & Hkj' & _ & _ & _ & Hpos');
    [lia|reflexivity|vm_compute; reflexivity|].
  assert (i = 0%nat) as -> by lia. assert (i' = 0%nat) as -> by lia.
  cbn in Hki, Hkj, Hki', Hkj'.
  injection Hki as <-. injection Hkj as <-.
  injection Hki' as <-. injection Hkj' as <-.
  split; [exact Hidx|]. split; [rewrite Hpos; vm_compute; reflexivity|].
  split; [vm_compute; reflexivity|].
  rewrite Hpos'. vm_compute. reflexivity.
Defined.

(** ** What a populated clip holds *)

Lemma difference_known_name (x : string) (X T : gset string) :
  x ∈ T → ({[x]} ∪ X) ∖ T = X ∖ T.
Proof.
  intros Hx. apply set_eq. intros y.
  rewrite !elem_of_difference, elem_of_union, elem_of_singleton.
  destruct (decide (y = x)) as [->|]; tauto.
Qed.

Lemma size_fresh_name (x : string) (X T : gset string) :
  x ∉ T → size (({[x]} ∪ X) ∖ T) = S (size (X ∖ ({[x]} ∪ T))).
Proof.
  intros Hx.
  replace (({[x]} ∪ X) ∖ T) with ({[x]} ∪ X ∖ ({[x]} ∪ T)).
  - rewrite size_union, size_singleton; [done|].
    apply disjoint_singleton_l.
    rewrite elem_of_difference, elem_of_union, elem_of_singleton. tauto.
  - apply set_eq. intros y.
    rewrite !elem_of_union, !elem_of_difference, !elem_of_union,
      !elem_of_singleton.
    destruct (decide (y = x)) as [->|]; tauto.
Qed.

Section ClipFacts.
Context `{Glm}.

Lemma ReadHierarchyData_names (src : aiNode) :
  Animator.node_names (Animation.ReadHierarchyData src) = ai_node_names src.
Proof.
  revert src. fix IH 1. intros [mName mTransformation mChildren].
  cbn [Animation.ReadHierarchyData Animator.node_names ai_node_names].
  f_equal. induction mChildren as [|child rest IHrest]; [reflexivity|].
  cbn [map flat_map]. by rewrite IH, IHrest.
Qed.

(** One turn of the channel loop: the name is in the table afterwards,
    and the bone carries the identifier the table gives it. *)
Lemma ReadMissingBones_step_spec
    (table table1 : gmap string AnimatedModel.BoneInfo) (counter counter1 : Z)
    (bones bones1 : list Bone.t) (channel : aiNodeAnim) :
  Animation.ReadMissingBones_step (table, counter, bones) channel
  = Some (table1, counter1, bones1) →
  ∃ info,
    table1 !! mNodeName channel = Some info
    ∧ bones1 = bones ++ [Bone.Bone (mNodeName channel)
                                   (AnimatedModel.id info) channel]
    ∧ ((table !! mNodeName channel = Some info
        ∧ table1 = table ∧ counter1 = counter)
       ∨ (table !! mNodeName channel = None
          ∧ table1 = <[mNodeName channel := info]> table
          ∧ counter1 = counter + 1)).
Proof.
  destruct (table !! mNodeName channel) as [info|] eqn:Hl.
  - rewrite (ReadMissingBones_step_present _ _ _ _ _ Hl).
    intros [= <- <- <-]. exists info. split; [done|]. split; [done|].
    left. done.
  - unfold Animation.ReadMissingBones_step. rewrite Hl.
    destruct (counter <? INT_MAX); [|done]. cbn [mbind option_bind].
    rewrite lookup_insert_eq. cbn [mbind option_bind].
    intros [= <- <- <-]. eexists. split; [apply lookup_insert_eq|].
    split; [done|]. right. done.
Qed.

Lemma ReadMissingBones_loop_spec (channels : list aiNodeAnim)
    (table table' : gmap string AnimatedModel.BoneInfo) (counter counter' : Z)
    (bones bones' : list Bone.t) :
  Animation.ReadMissingBones_loop channels (table, counter, bones)
  = Some (table', counter', bones') →
  bones'
  = bones ++ map (λ channel,
                    Bone.Bone (mNodeName channel)
                      (AnimatedModel.FindBoneID
                         {| AnimatedModel.boneCounter := counter';
                            AnimatedModel.boneInfoMap := table' |}
                         (mNodeName channel))
                      channel) channels
  ∧ (∀ name, is_Some (table' !! name)
             ↔ is_Some (table !! name) ∨ name ∈ mNodeName <$> channels)
  ∧ counter'
    = counter
      + Z.of_nat (size (list_to_set (C := gset string) (mNodeName <$> channels)
                        ∖ dom table)).
Proof.
  revert table counter bones.
  induction channels as [|channel rest IH]; intros table counter bones.
  - cbn. intros [= <- <- <-]. split; [by rewrite app_nil_r|]. split.
    + intros name. split; [by left|]. intros [|Hin]; [done|].
      by apply elem_of_nil in Hin.
    + cbn [list_to_set]. rewrite difference_disjoint_L by apply disjoint_empty_l.
      rewrite size_empty. lia.
  - cbn [Animation.ReadMissingBones_loop].
    destruct (Animation.ReadMissingBones_step (table, counter, bones) channel)
      as [[[table1 counter1] bones1]|] eqn:Hstep; [|done].
    cbn [mbind option_bind]. intros Hrest.
    pose proof (ReadMissingBones_loop_continues _ _ _ _ _ _ _ Hrest)
      as [(Hsub & _ & _) _].
    apply IH in Hrest as (Hbones & Hdom & Hcount).
    apply ReadMissingBones_step_spec in Hstep
      as (info & Hinfo & Hb1 & Hcase).
    split; [|split].
    + rewrite Hbones, Hb1, <- app_assoc. cbn [map app]. do 3 f_equal.
      unfold AnimatedModel.FindBoneID. cbn.
      by rewrite (lookup_weaken _ _ _ _ Hinfo Hsub).
    + intros name. rewrite Hdom, fmap_cons, elem_of_cons.
      destruct Hcase as [(Hl & -> & _)|(Hl & -> & _)].
      * split; [tauto|]. intros [?|[->|?]]; [tauto| |tauto].
        left. by eexists.
      * rewrite lookup_insert_is_Some.
        destruct (decide (mNodeName channel = name)) as [<-|Hne].
        -- split; [intros _; right; by left|]. intros _. left. by left.
        -- split.
           ++ intros [[?|[_ ?]]|?]; [done|tauto|tauto].
           ++ intros [?|[->|?]]; [|done|tauto]. left. right. done.
    + rewrite Hcount, fmap_cons. cbn [list_to_set].
      destruct Hcase as [(Hl & -> & ->)|(Hl & -> & ->)].
      * rewrite difference_known_name; [done|].
        apply elem_of_dom. by eexists.
      * rewrite dom_insert_L, size_fresh_name by (by apply not_elem_of_dom).
        lia.
Qed.

(** What the constructor did when it left a populated clip. *)
Lemma Animation_populated (ReadFile : string → option aiScene)
    (animationPath : string) (model model' : AnimatedModel.t)
    (animationIndex : Z) (a : Animation.t) :
  Animation.Animation ReadFile animationPath model animationIndex
  = Some (Animation.Populated a, model') →
  ∃ scene animation ticksPerSecond,
    ReadFile animationPath = Some scene
    ∧ at_index (mAnimations scene) animationIndex = Some animation
    ∧ (if negb (Float64.is_zero (mTicksPerSecond animation))
       then Float64.to_int (mTicksPerSecond animation)
       else Float32.to_int Config.DEFAULT_TICKS_PER_SECOND)
      = Some ticksPerSecond
    ∧ Animation.ReadMissingBones_loop (mChannels animation)
        (AnimatedModel.boneInfoMap model, AnimatedModel.boneCounter model, [])
      = Some (AnimatedModel.boneInfoMap model',
              AnimatedModel.boneCounter model', Animation.bones a)
    ∧ a = {| Animation.duration := Float64.to_float (mDuration animation);
             Animation.ticksPerSecond := ticksPerSecond;
             Animation.boneCount := AnimatedModel.boneCounter model';
             Animation.name := mName animation;
             Animation.bones := Animation.bones a;
             Animation.rootNode :=
               Animation.ReadHierarchyData (mRootNode scene);
             Animation.boneInfoMap := AnimatedModel.boneInfoMap model' |}.
Proof.
  unfold Animation.Animation.
  destruct (ReadFile animationPath) as [scene|] eqn:Hr; [|done].
  destruct (negb (HasAnimations scene) || _); [done|].
  destruct (at_index (mAnimations scene) animationIndex) as [animation|]
    eqn:Hat; [|done].
  cbn [mbind option_bind].
  destruct (if negb (Float64.is_zero (mTicksPerSecond animation))
            then Float64.to_int (mTicksPerSecond animation)
            else Float32.to_int Config.DEFAULT_TICKS_PER_SECOND)
    as [tps|] eqn:Htps; [|done].
  cbn [mbind option_bind]. unfold Animation.ReadMissingBones.
  destruct (Animation.ReadMissingBones_loop (mChannels animation)
              (AnimatedModel.boneInfoMap model,
               AnimatedModel.boneCounter model, []))
    as [[[table' counter'] bones']|] eqn:Hloop; [|done].
  cbn. intros [= <- <-]. cbn.
  exists scene, animation, tps. by repeat split.
Qed.

Lemma find_map {A B : Type} (p : B → bool) (f : A → B) (l : list A) :
  find p (map f l) = f <$> find (λ x, p (f x)) l.
Proof.
  induction l as [|x l IH]; [done|]. cbn. by destruct (p (f x)).
Qed.

(** X3. [ReadHierarchyData] copies the hierarchy node for node: the copy
    has the same names in the same order, parents first, and every node
    of the copy records as [childrenCount] the number of its children. *)
Theorem ReadHierarchyData_keeps_names_and_counts (src : aiNode) :
  Animator.node_names (Animation.ReadHierarchyData src) = ai_node_names src
  ∧ Animation.counted (Animation.ReadHierarchyData src) = true.
Proof. split; [apply ReadHierarchyData_names|apply ReadHierarchyData_counted]. Qed.

(** X4. A clip that the constructor populates holds one bone per channel
    of the animation, in the order of the channels; each bone has the
    name of its channel and, as its ID, the identifier that the model's
    table gives that name once the constructor has returned.  The clip's
    name, duration and hierarchy are those of the animation at the given
    index, and its copy of the table is the model's. *)
Theorem loaded_clip_follows_its_channels
    (ReadFile : string → option aiScene) (animationPath : string)
    (model model' : AnimatedModel.t) (animationIndex : Z) (a : Animation.t) :
  Animation.Animation ReadFile animationPath model animationIndex
  = Some (Animation.Populated a, model') →
  ∃ scene animation,
    ReadFile animationPath = Some scene
    ∧ at_index (mAnimations scene) animationIndex = Some animation
    ∧ Animation.GetName a = mName animation
    ∧ Animation.GetDuration a = Float64.to_float (mDuration animation)
    ∧ Animation.GetRootNode a = Animation.ReadHierarchyData (mRootNode scene)
    ∧ Animation.GetBoneIDMap a = AnimatedModel.boneInfoMap model'
    ∧ Animation.GetBoneCount a = AnimatedModel.boneCounter model'
    ∧ Animation.bones a
      = map (λ channel,
               Bone.Bone (mNodeName channel)
                         (AnimatedModel.FindBoneID model' (mNodeName channel))
                         channel)
            (mChannels animation)
    ∧ ∀ channel, channel ∈ mChannels animation →
                 is_Some (Animation.GetBoneIDMap a !! mNodeName channel).
Proof.
  intros (scene & animation & tps & Hr & Hat & Htps & Hloop & Ha)
    %Animation_populated.
  exists scene, animation. split; [done|]. split; [done|].
  apply ReadMissingBones_loop_spec in Hloop as (Hbones & Hdom & _).
  rewrite Ha. cbn. repeat split.
  - rewrite Hbones. cbn [app]. by destruct model'.
  - intros channel Hin. apply Hdom. right. by apply list_elem_of_fmap_2.
Qed.

(** X5. On a populated clip [FindBone] answers with the bone of the
    first channel of that name, and with nothing when no channel has the
    name; the bone found carries the identifier of the clip's own table
    entry for the name. *)
Theorem FindBone_first_channel_of_that_name
    (ReadFile : string → option aiScene) (animationPath : string)
    (model model' : AnimatedModel.t) (animationIndex : Z) (a : Animation.t)
    (scene : aiScene) (animation : aiAnimation) (nm : string) :
  Animation.Animation ReadFile animationPath model animationIndex
  = Some (Animation.Populated a, model') →
  ReadFile animationPath = Some scene →
  at_index (mAnimations scene) animationIndex = Some animation →
  Animation.FindBone a nm
  = (λ channel, Bone.Bone nm (AnimatedModel.FindBoneID model' nm) channel)
    <$> find (λ channel, bool_decide (mNodeName channel = nm))
             (mChannels animation)
  ∧ ∀ bone, Animation.FindBone a nm = Some bone →
            Bone.GetBoneName bone = nm
            ∧ ∃ info, Animation.GetBoneIDMap a !! nm = Some info
                      ∧ Bone.GetBoneID bone = AnimatedModel.id info.
Proof.
  intros Hload Hr Hat.
  apply Animation_populated in Hload
    as (scene' & animation' & tps & Hr' & Hat' & _ & Hloop & Ha).
  rewrite Hr in Hr'. injection Hr' as <-.
  rewrite Hat in Hat'. injection Hat' as <-.
  apply ReadMissingBones_loop_spec in Hloop as (Hbones & Hdom & _).
  cbn [app] in Hbones.
  assert (Animation.GetBoneIDMap a = AnimatedModel.boneInfoMap model')
    as Hmap by (by rewrite Ha).
  assert (∀ channel, channel ∈ mChannels animation →
                     is_Some (Animation.GetBoneIDMap a !! mNodeName channel))
    as Hin.
  { intros channel Hch. rewrite Hmap. apply Hdom. right.
    by apply list_elem_of_fmap_2. }
  replace {| AnimatedModel.boneCounter := AnimatedModel.boneCounter model';
             AnimatedModel.boneInfoMap := AnimatedModel.boneInfoMap model' |}
    with model' in Hbones by (by destruct model').
  assert (Animation.FindBone a nm
          = (λ channel,
               Bone.Bone nm (AnimatedModel.FindBoneID model' nm) channel)
            <$> find (λ channel, bool_decide (mNodeName channel = nm))
                     (mChannels animation)) as Hfind.
  { unfold Animation.FindBone. rewrite Hbones, find_map. cbn.
    destruct (find _ (mChannels animation)) as [channel|] eqn:Hf; [|done].
    apply find_some in Hf as [_ Hnm]. apply bool_decide_eq_true in Hnm.
    cbn. by rewrite Hnm. }
  split; [done|]. intros bone. rewrite Hfind.
  destruct (find _ (mChannels animation)) as [channel|] eqn:Hf; [|done].
  intros [= <-]. split; [done|].
  apply find_some in Hf as [Hch Hnm]. apply bool_decide_eq_true in Hnm.
  destruct (Hin channel) as [info Hinfo]; [by apply list_elem_of_In|].
  rewrite Hnm in Hinfo. exists info. split; [done|]. cbn.
  unfold AnimatedModel.FindBoneID. by rewrite <- Hmap, Hinfo.
Qed.

(** X6. [ReadMissingBones] leaves in the table the names it held and the
    name of every channel of the animation, whatever that name is: the
    filter of the mesh bones does not apply here.  The counter moves on
    by the number of distinct channel names the table did not hold. *)
Theorem ReadMissingBones_registers_every_channel
    (animation : aiAnimation) (model model' : AnimatedModel.t)
    (bones : list Bone.t) (boneInfoMap : gmap string AnimatedModel.BoneInfo)
    (boneCount : Z) :
  Animation.ReadMissingBones animation model
  = Some (bones, boneInfoMap, boneCount, model') →
  AnimatedModel.boneInfoMap model' = boneInfoMap
  ∧ AnimatedModel.boneCounter model' = boneCount
  ∧ (∀ name, is_Some (boneInfoMap !! name)
             ↔ is_Some (AnimatedModel.boneInfoMap model !! name)
               ∨ name ∈ channel_names animation)
  ∧ boneCount
    = AnimatedModel.boneCounter model
      + Z.of_nat (size (list_to_set (C := gset string)
                          (channel_names animation)
                        ∖ dom (AnimatedModel.boneInfoMap model))).
Proof.
  unfold Animation.ReadMissingBones.
  destruct (Animation.ReadMissingBones_loop (mChannels animation)
              (AnimatedModel.boneInfoMap model,
               AnimatedModel.boneCounter model, []))
    as [[[table' counter'] bones']|] eqn:Hloop; [|done].
  cbn. intros [= <- <- <- <-]. cbn.
  apply ReadMissingBones_loop_spec in Hloop as (_ & Hdom & Hcount).
  split; [done|]. split; [done|]. split; [exact Hdom|exact Hcount].
Qed.

(** X7. The validation of the constructor lets through exactly the
    indices of the animations of the file: a negative index converts to
    an unsigned number above every count and is turned away like one that
    is too large, and the model stays as it was; an index in range never
    leaves an unpopulated object. *)
Theorem Animation_accepts_exactly_the_indices_in_range
    (ReadFile : string → option aiScene) (animationPath : string)
    (model : AnimatedModel.t) (animationIndex : Z) (scene : aiScene) :
  ReadFile animationPath = Some scene →
  mNumAnimations scene ≤ INT_MAX →
  INT_MIN ≤ animationIndex ≤ INT_MAX →
  (¬ (0 ≤ animationIndex < mNumAnimations scene) →
   Animation.Animation ReadFile animationPath model animationIndex
   = Some (Animation.Unpopulated, model))
  ∧ (0 ≤ animationIndex < mNumAnimations scene →
     ∀ obj model',
       Animation.Animation ReadFile animationPath model animationIndex
       = Some (obj, model') →
       ∃ a, obj = Animation.Populated a).
Proof.
  intros Hr Hnum Hidx. split.
  - intros Hout. apply (Animation_rejected _ _ _ _ scene Hr). right.
    unfold to_unsigned, UINT_MOD, INT_MAX, INT_MIN in *.
    Z.div_mod_to_equations. lia.
  - intros Hin obj model'. unfold Animation.Animation. rewrite Hr.
    assert (to_unsigned animationIndex = animationIndex) as ->.
    { unfold to_unsigned, UINT_MOD, INT_MAX, INT_MIN in *.
      apply Z.mod_small. lia. }
    unfold HasAnimations.
    destruct (Z.ltb_spec 0 (mNumAnimations scene)); [|lia].
    destruct (Z.leb_spec (mNumAnimations scene) animationIndex); [lia|].
    cbn [negb orb].
    destruct (at_index (mAnimations scene) animationIndex) as [animation|];
      [|done].
    cbn [mbind option_bind].
    destruct (if negb (Float64.is_zero (mTicksPerSecond animation))
              then Float64.to_int (mTicksPerSecond animation)
              else Float32.to_int Config.DEFAULT_TICKS_PER_SECOND) as [tps|];
      [|done].
    cbn [mbind option_bind].
    destruct (Animation.ReadMissingBones animation model)
      as [[[[bones table] counter] model1]|]; [|done].
    cbn. intros [= <- _]. by eexists.
Qed.

End ClipFacts.

Lemma loaded_clip_follows_its_channels_witness :
  ∃ a model',
    Animation.Animation (H := Symbolic.glm) Sample.disk Sample.cow_path
      AnimatedModel.AnimatedModel 0
    = Some (Animation.Populated a, model')
    ∧ Animation.GetName a = "Walk"%string
    ∧ Bone.GetBoneID <$> Animation.bones a = [0; 1; 2].
Proof.
  destruct (Animation.Animation (H := Symbolic.glm) Sample.disk
              Sample.cow_path AnimatedModel.AnimatedModel 0)
    as [[[a|] model']|] eqn:Hload;
    [|vm_compute in Hload; discriminate Hload
     |vm_compute in Hload; discriminate Hload].
  destruct (loaded_clip_follows_its_channels _ _ _ _ _ _ Hload)
    as (scene & animation & Hr & Hat & Hname & _ & _ & _ & _ & Hbones & _).
  vm_compute in Hr. injection Hr as <-.
  vm_compute in Hat. injection Hat as <-.
  exists a, model'. split; [reflexivity|]. split; [exact Hname|].
  rewrite Hbones. clear Hbones Hname.
  vm_compute in Hload. injection Hload as <- <-.
  vm_compute. reflexivity.
Defined.

Lemma FindBone_first_channel_of_that_name_witness :
  ∃ a model',
    Animation.Animation (H := Symbolic.glm) Sample.disk Sample.cow_path
      AnimatedModel.AnimatedModel 0
    = Some (Animation.Populated a, model')
    ∧ Bone.GetBoneID <$> Animation.FindBone a "DEF-head" = Some 1
    ∧ Animation.FindBone a "DEF-jaw" = None.
Proof.
  destruct (Animation.Animation (H := Symbolic.glm) Sample.disk
              Sample.cow_path AnimatedModel.AnimatedModel 0)
    as [[[a|] model']|] eqn:Hload;
    [|vm_compute in Hload; discriminate Hload
     |vm_compute in Hload; discriminate Hload].
  destruct (FindBone_first_channel_of_that_name Sample.disk Sample.cow_path
              AnimatedModel.AnimatedModel model' 0 a Sample.cow_scene
              Sample.walk "DEF-head" Hload eq_refl eq_refl) as [Hhead _].
  destruct (FindBone_first_channel_of_that_name Sample.disk Sample.cow_path
              AnimatedModel.AnimatedModel model' 0 a Sample.cow_scene
              Sample.walk "DEF-jaw" Hload eq_refl eq_refl) as [Hjaw _].
  exists a, model'. split; [reflexivity|].
  rewrite Hhead, Hjaw. clear Hhead Hjaw.
  vm_compute in Hload. injection Hload as <- <-.
  split; vm_compute; reflexivity.
Defined.

Lemma ReadMissingBones_registers_every_channel_witness :
  ∃ bones boneInfoMap model',
    Animation.ReadMissingBones (H := Symbolic.glm) Sample.head_up
      AnimatedModel.AnimatedModel
    = Some (bones, boneInfoMap, 2, model')
    ∧ is_Some (boneInfoMap !! "DEF-jaw"%string).
Proof.
  destruct (Animation.ReadMissingBones (H := Symbolic.glm) Sample.head_up
              AnimatedModel.AnimatedModel)
    as [[[[bones boneInfoMap] boneCount] model']|] eqn:Hread;
    [|vm_compute in Hread; discriminate Hread].
  destruct (ReadMissingBones_registers_every_channel _ _ _ _ _ _ Hread)
    as (_ & _ & Hnames & Hcount).
  clear Hread. exists bones, boneInfoMap, model'. split.
  - rewrite Hcount. vm_compute. reflexivity.
  - apply Hnames. right. apply elem_of_cons. right. apply elem_of_cons.
    left. reflexivity.
Defined.

Lemma Animation_accepts_exactly_the_indices_in_range_witness :
  Animation.Animation (H := Symbolic.glm) Sample.disk Sample.cow_path
    AnimatedModel.AnimatedModel (-1)
  = Some (Animation.Unpopulated, AnimatedModel.AnimatedModel).
Proof.
  destruct (Animation_accepts_exactly_the_indices_in_range (H := Symbolic.glm)
              Sample.disk Sample.cow_path AnimatedModel.AnimatedModel (-1)
              Sample.cow_scene) as [Hout _].
  - reflexivity.
  - vm_compute. intros Hc. discriminate Hc.
  - unfold INT_MIN, INT_MAX. lia.
  - apply Hout. cbn. lia.
Defined.

(** ** The catalog of the loader *)

Section CatalogFacts.
Context `{Glm}.

(** The catalog of a loader whose file could be read: one entry per
    animation, in the order of the file. *)
Lemma catalog_entries (ReadFile : string → option aiScene)
    (modelPath : string) (scene : aiScene) :
  ReadFile modelPath = Some scene →
  AnimationLoader.animations (AnimationLoader.AnimationLoader ReadFile modelPath)
  = imap (λ i anim,
            {| AnimationLoader.name := mName anim;
               AnimationLoader.index := Z.of_nat i;
               AnimationLoader.duration := Float64.to_float (mDuration anim);
               AnimationLoader.ticksPerSecond :=
                 if negb (Float64.is_zero (mTicksPerSecond anim))
                 then Float64.to_float (mTicksPerSecond anim)
                 else Config.DEFAULT_TICKS_PER_SECOND |})
         (mAnimations scene).
Proof.
  intros Hr. unfold AnimationLoader.AnimationLoader,
    AnimationLoader.LoadAnimationList. cbn. rewrite Hr.
  unfold HasAnimations, mNumAnimations.
  destruct (mAnimations scene) as [|anim rest]; [done|].
  destruct (Z.ltb_spec 0 (Z.of_nat (length (anim :: rest)))); [done|].
  cbn [length] in *. lia.
Qed.

(** [find_if] on a catalog built that way. *)
Lemma find_catalog (f : nat → aiAnimation → AnimationLoader.AnimationInfo)
    (nm : string) (l : list aiAnimation) :
  (∀ i anim, AnimationLoader.name (f i anim) = mName anim) →
  find (λ info, bool_decide (AnimationLoader.name info = nm)) (imap f l)
  = (λ '(i, anim), f i anim) <$> list_find (λ anim, mName anim = nm) l.
Proof.
  revert f. induction l as [|anim rest IH]; intros f Hname; [done|].
  cbn [imap find list_find]. rewrite Hname.
  destruct (decide (mName anim = nm)) as [Heq|Hne].
  - by rewrite bool_decide_eq_true_2.
  - rewrite bool_decide_eq_false_2 by done.
    rewrite IH by (intros; apply Hname).
    by destruct (list_find _ rest) as [[i anim']|].
Qed.

Lemma FindAnimationIndex_catalog (ReadFile : string → option aiScene)
    (modelPath : string) (scene : aiScene) (nm : string) :
  ReadFile modelPath = Some scene →
  AnimationLoader.FindAnimationIndex
    (AnimationLoader.AnimationLoader ReadFile modelPath) nm
  = match list_find (λ anim, mName anim = nm) (mAnimations scene) with
    | Some (i, _) => Z.of_nat i
    | None => -1
    end.
Proof.
  intros Hr. unfold AnimationLoader.FindAnimationIndex.
  rewrite (catalog_entries _ _ _ Hr), find_catalog by done.
  by destruct (list_find _ (mAnimations scene)) as [[i anim]|].
Qed.

(** X8. On a loader whose file could be read, and holds no more
    animations than an [int] counts, as the [index] of a catalog entry
    takes for granted, [FindAnimationIndex] answers the position in the
    file of the first animation of that name, and [-1] exactly when no
    animation has the name.  An animation that shares its name with an
    earlier one is never found. *)
Theorem FindAnimationIndex_first_of_that_name
    (ReadFile : string → option aiScene) (modelPath : string)
    (scene : aiScene) (nm : string) :
  ReadFile modelPath = Some scene →
  mNumAnimations scene ≤ INT_MAX →
  let this := AnimationLoader.AnimationLoader ReadFile modelPath in
  (AnimationLoader.FindAnimationIndex this nm = -1
   ↔ ∀ anim, anim ∈ mAnimations scene → mName anim ≠ nm)
  ∧ (∀ i : nat,
       AnimationLoader.FindAnimationIndex this nm = Z.of_nat i
       ↔ ∃ anim, mAnimations scene !! i = Some anim ∧ mName anim = nm
                 ∧ ∀ (j : nat) anim', (j < i)%nat →
                     mAnimations scene !! j = Some anim' → mName anim' ≠ nm).
Proof.
  intros Hr _ this. subst this. rewrite (FindAnimationIndex_catalog _ _ _ _ Hr).
  destruct (list_find _ (mAnimations scene)) as [[i anim]|] eqn:Hfind.
  - apply list_find_Some in Hfind as (Hi & Hnm & Hfirst). split.
    + split; [lia|]. intros Hno. exfalso.
      apply (Hno anim); [by eapply list_elem_of_lookup_2|done].
    + intros i'. split.
      * intros Hii. assert (i' = i) as -> by lia. exists anim.
        split; [done|]. split; [done|]. intros j anim' Hj Hl.
        by apply (Hfirst j anim').
      * intros (anim' & Hi' & Hnm' & Hfirst'). f_equal.
        destruct (Nat.lt_trichotomy i i') as [Hlt|[Heq|Hgt]]; [|done|].
        -- exfalso. by apply (Hfirst' i anim).
        -- exfalso. by apply (Hfirst i' anim').
  - apply list_find_None in Hfind. split.
    + split; [|done]. intros _ anim Hin.
      by apply (proj1 (Forall_forall _ _) Hfind).
    + intros i. split; [lia|]. intros (anim & Hi & Hnm & _). exfalso.
      apply (proj1 (Forall_forall _ _) Hfind anim); [|done].
      by eapply list_elem_of_lookup_2.
Qed.

(** X9. A clip asked for by the name of an animation of the file, first of
    that name, is loaded and populated from that animation as long as the
    file reads as it did for the catalog, the frame rate converts to [int]
    and the bone counter has room for the channels; its name and duration
    are those the catalog lists at that position. *)
Theorem LoadAnimation_loads_the_named_clip
    (ReadFile : string → option aiScene) (modelPath : string)
    (scene : aiScene) (model : AnimatedModel.t) (i : nat)
    (animation : aiAnimation) :
  ReadFile modelPath = Some scene →
  mNumAnimations scene ≤ INT_MAX →
  mAnimations scene !! i = Some animation →
  (∀ (j : nat) anim', (j < i)%nat → mAnimations scene !! j = Some anim' →
                      mName anim' ≠ mName animation) →
  (Float64.is_zero (mTicksPerSecond animation) = false →
   is_Some (Float64.to_int (mTicksPerSecond animation))) →
  AnimatedModel.boneCounter model + mNumChannels animation ≤ INT_MAX →
  let this := AnimationLoader.AnimationLoader ReadFile modelPath in
  ∃ a model' info,
    AnimationLoader.LoadAnimation ReadFile this model (mName animation)
    = Some (Some (Animation.Populated a), model')
    ∧ AnimationLoader.GetAvailableAnimations this !! i = Some info
    ∧ AnimationLoader.index info = Z.of_nat i
    ∧ Animation.GetName a = mName animation
    ∧ Animation.GetName a = AnimationLoader.name info
    ∧ Animation.GetDuration a = AnimationLoader.duration info.
Proof.
  intros Hr Hnum Hi Hfirst Hrate Hroom this.
  assert (AnimationLoader.FindAnimationIndex this (mName animation)
          = Z.of_nat i) as Hidx.
  { subst this. rewrite (FindAnimationIndex_catalog _ _ _ _ Hr).
    destruct (list_find _ (mAnimations scene)) as [[i' anim]|] eqn:Hfind.
    - apply list_find_Some in Hfind as (Hi' & Hnm & Hfirst'). f_equal.
      destruct (Nat.lt_trichotomy i i') as [Hlt|[Heq|Hgt]]; [|done|].
      + exfalso. by apply (Hfirst' i animation).
      + exfalso. by apply (Hfirst i' anim).
    - apply list_find_None in Hfind. exfalso.
      apply (proj1 (Forall_forall _ _) Hfind animation); [|done].
      by eapply list_elem_of_lookup_2. }
  pose proof (lookup_lt_Some _ _ _ Hi) as Hlt.
  unfold AnimationLoader.LoadAnimation. rewrite Hidx.
  destruct (Z.eqb_spec (Z.of_nat i) (-1)); [lia|].
  replace (AnimationLoader.modelPath this) with modelPath.
  2:{ subst this. unfold AnimationLoader.AnimationLoader,
        AnimationLoader.LoadAnimationList. cbn. rewrite Hr.
      by destruct (negb (HasAnimations scene)). }
  unfold Animation.Animation. rewrite Hr.
  assert (to_unsigned (Z.of_nat i) = Z.of_nat i) as ->.
  { unfold to_unsigned, UINT_MOD. apply Z.mod_small.
    unfold mNumAnimations, INT_MAX in Hnum. lia. }
  unfold HasAnimations, mNumAnimations.
  destruct (Z.ltb_spec 0 (Z.of_nat (length (mAnimations scene)))); [|lia].
  destruct (Z.leb_spec (Z.of_nat (length (mAnimations scene))) (Z.of_nat i));
    [lia|].
  cbn [negb orb]. rewrite at_index_nat, Hi. cbn [mbind option_bind].
  assert (is_Some (if negb (Float64.is_zero (mTicksPerSecond animation))
                   then Float64.to_int (mTicksPerSecond animation)
                   else Float32.to_int Config.DEFAULT_TICKS_PER_SECOND))
    as [tps ->].
  { destruct (Float64.is_zero (mTicksPerSecond animation)); cbn [negb].
    - exists 25. vm_compute. reflexivity.
    - by apply Hrate. }
  cbn [mbind option_bind]. unfold Animation.ReadMissingBones.
  destruct (ReadMissingBones_loop_defined (mChannels animation)
              (AnimatedModel.boneInfoMap model)
              (AnimatedModel.boneCounter model) [])
    as [[[table' counter'] bones'] ->]; [exact Hroom|].
  cbn. eexists _, _, _. split; [reflexivity|].
  subst this. unfold AnimationLoader.GetAvailableAnimations.
  rewrite (catalog_entries _ _ _ Hr), list_lookup_imap, Hi. cbn.
  by repeat split.
Qed.

(** X10. A loader whose scan found no animation, because the file could
    not be read or holds none, has an empty catalog and answers every
    request with [nullptr], also once the file can be read: the catalog
    is never built again. *)
Theorem failed_scan_leaves_nothing_to_load
    (ReadFile : string → option aiScene) (modelPath : string) :
  ReadFile modelPath = None
  ∨ (∃ scene, ReadFile modelPath = Some scene ∧ mAnimations scene = []) →
  let this := AnimationLoader.AnimationLoader ReadFile modelPath in
  AnimationLoader.GetAvailableAnimations this = []
  ∧ ∀ (ReadFile' : string → option aiScene) model nm,
      AnimationLoader.FindAnimationIndex this nm = -1
      ∧ AnimationLoader.LoadAnimation ReadFile' this model nm
        = Some (None, model).
Proof.
  intros Hscan this.
  assert (AnimationLoader.animations this = []) as Hempty.
  { subst this. destruct Hscan as [Hr|(scene & Hr & Hnone)].
    - unfold AnimationLoader.AnimationLoader,
        AnimationLoader.LoadAnimationList. cbn. by rewrite Hr.
    - by rewrite (catalog_entries _ _ _ Hr), Hnone. }
  split; [done|]. intros ReadFile' model nm.
  assert (AnimationLoader.FindAnimationIndex this nm = -1) as Hidx.
  { unfold AnimationLoader.FindAnimationIndex. by rewrite Hempty. }
  split; [done|]. by apply LoadAnimation_unknown_name.
Qed.
End CatalogFacts.

Lemma FindAnimationIndex_first_of_that_name_witness :
  AnimationLoader.FindAnimationIndex
    (AnimationLoader.AnimationLoader Sample.disk Sample.cow_path) "HeadUp"
  = 1.
Proof.
  destruct (FindAnimationIndex_first_of_that_name
              Sample.disk Sample.cow_path Sample.cow_scene "HeadUp")
    as [_ Hfound].
  - reflexivity.
  - vm_compute. intros Hc. discriminate Hc.
  - apply (Hfound 1%nat). exists Sample.head_up.
    split; [reflexivity|]. split; [reflexivity|].
    intros j anim' Hj Hl. assert (j = 0%nat) as -> by lia.
    injection Hl as <-. vm_compute. intros Hc. discriminate Hc.
Defined.

Lemma LoadAnimation_loads_the_named_clip_witness :
  ∃ a model',
    AnimationLoader.LoadAnimation (H := Symbolic.glm) Sample.disk
      (AnimationLoader.AnimationLoader Sample.disk Sample.cow_path)
      AnimatedModel.AnimatedModel "HeadUp"
    = Some (Some (Animation.Populated a), model')
    ∧ Animation.GetName a = "HeadUp"%string.
Proof.
  destruct (@LoadAnimation_loads_the_named_clip Symbolic.glm
              Sample.disk Sample.cow_path Sample.cow_scene
              AnimatedModel.AnimatedModel 1 Sample.head_up)
    as (a & model' & info & Hload & _ & _ & Hname & _).
  - reflexivity.
  - vm_compute. intros Hc. discriminate Hc.
  - reflexivity.
  - intros j anim' Hj Hl. assert (j = 0%nat) as -> by lia.
    injection Hl as <-. vm_compute. intros Hc. discriminate Hc.
  - intros _. exists 25. vm_compute. reflexivity.
  - vm_compute. intros Hc. discriminate Hc.
  - exists a, model'. split; [exact Hload|exact Hname].
Defined.

Lemma failed_scan_leaves_nothing_to_load_witness :
  AnimationLoader.LoadAnimation (H := Symbolic.glm) Sample.disk
    (AnimationLoader.AnimationLoader Sample.unreadable Sample.cow_path)
    AnimatedModel.AnimatedModel "Walk"
  = Some (None, AnimatedModel.AnimatedModel).
Proof.
  destruct (@failed_scan_leaves_nothing_to_load Symbolic.glm
              Sample.unreadable Sample.cow_path) as [_ Hnone].
  - left. reflexivity.
  - apply Hnone.
Defined.

(** ** The bone slots of a vertex *)

Section FloatOrder.

Lemma ltb_trans (a b c : float) :
  ltb a b = true → ltb b c = true → ltb a c = true.
Proof.
  unfold ltb, SFltb, SFcompare.
  destruct a as [sa|sa| |sa ma ea], b as [sb|sb| |sb mb eb],
    c as [sc|sc| |sc mc ec];
    try destruct sa; try destruct sb; try destruct sc; try done.
  - change (Pos.compare_cont Eq) with Pos.compare.
    destruct (Z.compare_spec ea eb), (Z.compare_spec eb ec),
      (Z.compare_spec ea ec); try done; try lia; subst.
    destruct (Pos.compare_spec ma mb), (Pos.compare_spec mb mc),
      (Pos.compare_spec ma mc); try done; lia.
  - change (Pos.compare_cont Eq) with Pos.compare.
    destruct (Z.compare_spec ea eb), (Z.compare_spec eb ec),
      (Z.compare_spec ea ec); try done; try lia; subst.
    destruct (Pos.compare_spec ma mb), (Pos.compare_spec mb mc),
      (Pos.compare_spec ma mc); try done; lia.
Qed.

Lemma ltb_irrefl (a : float) : ltb a a = false.
Proof.
  unfold ltb, SFltb, SFcompare.
  destruct a as [sa|sa| |sa ma ea]; try destruct sa; try done.
  - rewrite Z.compare_refl. change (Pos.compare_cont Eq) with Pos.compare.
    by rewrite Pos.compare_refl.
  - rewrite Z.compare_refl. change (Pos.compare_cont Eq) with Pos.compare.
    by rewrite Pos.compare_refl.
Qed.

(** A weight that is not below the lightest so far is not below a
    lighter one either. *)
Lemma not_below_lighter (x m m' : float) :
  ltb x m = false → ltb m' m = true → ltb x m' = false.
Proof.
  intros Hxm Hm. destruct (ltb x m') eqn:Hx; [|done].
  by rewrite (ltb_trans _ _ _ Hx Hm) in Hxm.
Qed.
End FloatOrder.

Section VertexFacts.

(** Goals [ltb x y = false] from comparisons already made. *)
Ltac below_chain :=
  repeat match goal with
         | H1 : ltb ?a ?b = true, H2 : ltb ?b ?c = true |- _ =>
             lazymatch goal with
             | _ : ltb a c = true |- _ => fail
             | _ => pose proof (ltb_trans a b c H1 H2)
             end
         end.

Ltac not_below :=
  lazymatch goal with
  | |- ltb ?x ?y = false =>
      first
        [ assumption
        | apply ltb_irrefl
        | destruct (ltb x y) eqn:?; [exfalso|reflexivity];
          below_chain;
          repeat match goal with
                 | H : ltb ?a ?a = true |- _ =>
                     rewrite ltb_irrefl in H; discriminate H
                 | H1 : ltb ?a ?b = true, H2 : ltb ?a ?b = false |- _ =>
                     rewrite H1 in H2; discriminate H2
                 end ]
  end.

(** Evaluation of the reads at the constant indices of the loops. *)
Ltac slots :=
  repeat (cbn -[ltb];
          progress cbv [Z.to_nat Pos.to_nat Pos.iter_op Init.Nat.add]);
  cbn -[ltb].

Lemma sized_four (vertex : AnimatedVertex.t) :
  AnimatedVertex.sized vertex →
  ∃ b0 b1 b2 b3 w0 w1 w2 w3,
    vertex = {| AnimatedVertex.boneIDs := [b0; b1; b2; b3];
                AnimatedVertex.weights := [w0; w1; w2; w3] |}.
Proof.
  destruct vertex as [ids ws]. intros [Hids Hws]. cbn in Hids, Hws.
  destruct ids as [|b0 [|b1 [|b2 [|b3 [|]]]]]; try discriminate Hids.
  destruct ws as [|w0 [|w1 [|w2 [|w3 [|]]]]]; try discriminate Hws.
  by exists b0, b1, b2, b3, w0, w1, w2, w3.
Qed.

(** The first loop of [SetVertexBoneData] ends on a slot than which no
    slot is lighter. *)
Lemma min_weight_found (vertex : AnimatedVertex.t) :
  AnimatedVertex.sized vertex →
  ∃ (m : nat) wm,
    fold_defined (AnimatedModel.min_weight_step vertex)
      (seqZ 1 (Config.MAX_BONE_INFLUENCE - 1)) 0 = Some (Z.of_nat m)
    ∧ AnimatedVertex.weights vertex !! m = Some wm
    ∧ ∀ (i : nat) wi, AnimatedVertex.weights vertex !! i = Some wi →
                      ltb wi wm = false.
Proof.
  intros (b0 & b1 & b2 & b3 & w0 & w1 & w2 & w3 & ->)%sized_four.
  change (seqZ 1 (Config.MAX_BONE_INFLUENCE - 1)) with [1; 2; 3].
  slots.
  repeat match goal with
         | |- context [ltb ?a ?b] => destruct (ltb a b) eqn:?; slots
         end.
  all: match goal with
       | |- ∃ m wm, Some ?k = _ ∧ _ => exists (Z.to_nat k)
       end; eexists; (split; [reflexivity|]); (split; [reflexivity|]).
  all: intros [|[|[|[|i]]]] wi Hwi; try discriminate Hwi;
    injection Hwi as <-; not_below.
Qed.

(** The second loop returns at the first slot whose bone ID is negative. *)
Lemma fill_empty_slot_first (vertex : AnimatedVertex.t) (boneID : Z)
    (weight : float) (i : nat) (old : Z) :
  AnimatedVertex.sized vertex →
  AnimatedVertex.boneIDs vertex !! i = Some old → old < 0 →
  (∀ (j : nat) o, (j < i)%nat → AnimatedVertex.boneIDs vertex !! j = Some o →
                  0 ≤ o) →
  AnimatedModel.fill_empty_slot (seqZ 0 Config.MAX_BONE_INFLUENCE) vertex
    boneID weight
  = Some (Some (AnimatedVertex.set_slot vertex (Z.of_nat i) boneID weight)).
Proof.
  intros (b0 & b1 & b2 & b3 & w0 & w1 & w2 & w3 & ->)%sized_four Hold Hneg
    Hbefore.
  change (seqZ 0 Config.MAX_BONE_INFLUENCE) with [0; 1; 2; 3].
  cbn in Hold, Hbefore.
  destruct i as [|[|[|[|i]]]]; try discriminate Hold;
    injection Hold as ->; slots.
  - destruct (Z.ltb_spec old 0); [done|lia].
  - assert (0 ≤ b0) by (apply (Hbefore 0%nat); [lia|reflexivity]).
    destruct (Z.ltb_spec b0 0); [lia|]. slots.
    destruct (Z.ltb_spec old 0); [done|lia].
  - assert (0 ≤ b0) by (apply (Hbefore 0%nat); [lia|reflexivity]).
    assert (0 ≤ b1) by (apply (Hbefore 1%nat); [lia|reflexivity]).
    destruct (Z.ltb_spec b0 0); [lia|]. slots.
    destruct (Z.ltb_spec b1 0); [lia|]. slots.
    destruct (Z.ltb_spec old 0); [done|lia].
  - assert (0 ≤ b0) by (apply (Hbefore 0%nat); [lia|reflexivity]).
    assert (0 ≤ b1) by (apply (Hbefore 1%nat); [lia|reflexivity]).
    assert (0 ≤ b2) by (apply (Hbefore 2%nat); [lia|reflexivity]).
    destruct (Z.ltb_spec b0 0); [lia|]. slots.
    destruct (Z.ltb_spec b1 0); [lia|]. slots.
    destruct (Z.ltb_spec b2 0); [lia|]. slots.
    destruct (Z.ltb_spec old 0); [done|lia].
Qed.

(** On a vertex without an empty slot the second loop runs to its end. *)
Lemma fill_empty_slot_none (vertex : AnimatedVertex.t) (boneID : Z)
    (weight : float) :
  AnimatedVertex.sized vertex →
  (∀ (j : nat) o, AnimatedVertex.boneIDs vertex !! j = Some o → 0 ≤ o) →
  AnimatedModel.fill_empty_slot (seqZ 0 Config.MAX_BONE_INFLUENCE) vertex
    boneID weight
  = Some None.
Proof.
  intros (b0 & b1 & b2 & b3 & w0 & w1 & w2 & w3 & ->)%sized_four Hfull.
  change (seqZ 0 Config.MAX_BONE_INFLUENCE) with [0; 1; 2; 3].
  cbn in Hfull.
  pose proof (Hfull 0%nat b0 eq_refl). pose proof (Hfull 1%nat b1 eq_refl).
  pose proof (Hfull 2%nat b2 eq_refl). pose proof (Hfull 3%nat b3 eq_refl).
  slots. destruct (Z.ltb_spec b0 0); [lia|]. slots.
  destruct (Z.ltb_spec b1 0); [lia|]. slots.
  destruct (Z.ltb_spec b2 0); [lia|]. slots.
  destruct (Z.ltb_spec b3 0); [lia|]. reflexivity.
Qed.

Lemma SetVertexBoneData_first_empty (vertex : AnimatedVertex.t) (boneID : Z)
    (weight : float) (i : nat) (old : Z) :
  AnimatedVertex.sized vertex →
  AnimatedVertex.boneIDs vertex !! i = Some old → old < 0 →
  (∀ (j : nat) o, (j < i)%nat → AnimatedVertex.boneIDs vertex !! j = Some o →
                  0 ≤ o) →
  AnimatedModel.SetVertexBoneData vertex boneID weight
  = Some (AnimatedVertex.set_slot vertex (Z.of_nat i) boneID weight).
Proof.
  intros Hsized Hold Hneg Hbefore. unfold AnimatedModel.SetVertexBoneData.
  destruct (min_weight_found vertex Hsized) as (m & wm & -> & _ & _).
  cbn [mbind option_bind].
  by rewrite (fill_empty_slot_first _ _ _ i old).
Qed.

Lemma filled_sized (influences : list (Z * float)) :
  (length influences ≤ 4)%nat →
  AnimatedVertex.sized (AnimatedVertex.filled influences).
Proof.
  intros Hlen. split; cbn; rewrite length_app, length_fmap, length_replicate;
    change (Z.to_nat Config.MAX_BONE_INFLUENCE) with 4%nat; lia.
Qed.

Lemma filled_next (given : list (Z * float)) (boneID : Z) (weight : float) :
  (length given < 4)%nat →
  AnimatedVertex.set_slot (AnimatedVertex.filled given)
                          (Z.of_nat (length given)) boneID weight
  = AnimatedVertex.filled (given ++ [(boneID, weight)]).
Proof.
  intros Hlen. unfold AnimatedVertex.set_slot, AnimatedVertex.filled.
  cbn [AnimatedVertex.boneIDs AnimatedVertex.weights].
  change (Z.to_nat Config.MAX_BONE_INFLUENCE) with 4%nat.
  rewrite Nat2Z.id, !fmap_app, length_app, <- !app_assoc.
  cbn [fmap list_fmap length fst snd app].
  replace (4 - length given)%nat with (S (4 - (length given + 1))) by lia.
  cbn [replicate].
  rewrite !insert_app_r_alt by (rewrite length_fmap; lia).
  rewrite !length_fmap, Nat.sub_diag. reflexivity.
Qed.

Lemma SetVertexBoneData_all_fills (rest given : list (Z * float)) :
  (length given + length rest ≤ 4)%nat →
  Forall (λ influence, 0 ≤ influence.1) given →
  Forall (λ influence, 0 ≤ influence.1) rest →
  AnimatedModel.SetVertexBoneData_all (AnimatedVertex.filled given) rest
  = Some (AnimatedVertex.filled (given ++ rest)).
Proof.
  revert given. induction rest as [|[boneID weight] rest IH];
    intros given Hlen Hgiven Hrest.
  - by rewrite app_nil_r.
  - cbn [length] in Hlen. apply Forall_cons in Hrest as [Hid Hrest].
    unfold AnimatedModel.SetVertexBoneData_all. cbn [fold_defined fst snd].
    rewrite (SetVertexBoneData_first_empty _ _ _ (length given) (-1)).
    + cbn [mbind option_bind]. rewrite filled_next by lia.
      rewrite (cons_middle _ given rest), app_assoc.
      apply IH; [rewrite length_app; cbn [length]; lia| |done].
      apply Forall_app. split; [done|]. by apply Forall_singleton.
    + apply filled_sized. lia.
    + cbn. rewrite lookup_app_r by (by rewrite length_fmap).
      rewrite length_fmap, Nat.sub_diag.
      change (Z.to_nat Config.MAX_BONE_INFLUENCE) with 4%nat.
      by replace (4 - length given)%nat with (S (4 - S (length given))) by lia.
    + lia.
    + intros j o Hj. cbn. rewrite lookup_app_l by (by rewrite length_fmap).
      rewrite list_lookup_fmap. intros Ho.
      destruct (given !! j) as [influence|] eqn:Hin; [|done].
      injection Ho as <-.
      by apply (proj1 (Forall_lookup _ _) Hgiven j).
Qed.

(** X11. The first four influences of a vertex take its slots in the
    order they arrive: after [SetVertexBoneDataToDefault], handing a
    vertex up to four influences with bone IDs that are not negative
    leaves their IDs and weights in the first slots, in order, whatever
    the weights are, and [-1] and [0.0f] in the slots that remain. *)
Theorem first_influences_fill_slots_in_order (vertex : AnimatedVertex.t)
    (influences : list (Z * float)) :
  AnimatedVertex.sized vertex →
  (length influences ≤ 4)%nat →
  Forall (λ influence, 0 ≤ influence.1) influences →
  AnimatedModel.SetVertexBoneData_all
    (AnimatedModel.SetVertexBoneDataToDefault vertex) influences
  = Some {| AnimatedVertex.boneIDs :=
              influences.*1 ++ replicate (4 - length influences) (-1);
            AnimatedVertex.weights :=
              influences.*2
              ++ replicate (4 - length influences) Float32.zero |}.
Proof.
  intros (b0 & b1 & b2 & b3 & w0 & w1 & w2 & w3 & ->)%sized_four Hlen Hids.
  apply (SetVertexBoneData_all_fills influences []); [cbn; lia|done|done].
Qed.

(** X12. On a vertex whose four slots are taken [SetVertexBoneData]
    picks a slot than which none is lighter; the new influence replaces
    that slot when its weight is larger and is dropped otherwise.  The
    other slots are left as they are and the arrays keep their size. *)
Theorem full_vertex_replaces_lightest_slot (vertex : AnimatedVertex.t)
    (boneID : Z) (weight : float) :
  AnimatedVertex.sized vertex →
  (∀ (j : nat) o, AnimatedVertex.boneIDs vertex !! j = Some o → 0 ≤ o) →
  ∃ (m : nat) wm,
    AnimatedVertex.weights vertex !! m = Some wm
    ∧ (∀ (i : nat) wi, AnimatedVertex.weights vertex !! i = Some wi →
                       ltb wi wm = false)
    ∧ AnimatedModel.SetVertexBoneData vertex boneID weight
      = Some (if ltb wm weight
              then {| AnimatedVertex.boneIDs :=
                        <[m := boneID]> (AnimatedVertex.boneIDs vertex);
                      AnimatedVertex.weights :=
                        <[m := weight]> (AnimatedVertex.weights vertex) |}
              else vertex)
    ∧ ∀ vertex', AnimatedModel.SetVertexBoneData vertex boneID weight
                 = Some vertex' → AnimatedVertex.sized vertex'.
Proof.
  intros Hsized Hfull.
  destruct (min_weight_found vertex Hsized) as (m & wm & Hmin & Hwm & Hleast).
  assert (AnimatedModel.SetVertexBoneData vertex boneID weight
          = Some (if ltb wm weight
                  then {| AnimatedVertex.boneIDs :=
                            <[m := boneID]> (AnimatedVertex.boneIDs vertex);
                          AnimatedVertex.weights :=
                            <[m := weight]> (AnimatedVertex.weights vertex) |}
                  else vertex)) as Hset.
  { unfold AnimatedModel.SetVertexBoneData. rewrite Hmin.
    cbn [mbind option_bind]. rewrite fill_empty_slot_none by done.
    cbn [mbind option_bind]. rewrite at_index_nat, Hwm.
    cbn [mbind option_bind]. unfold AnimatedVertex.set_slot.
    rewrite Nat2Z.id. by destruct (ltb wm weight). }
  exists m, wm. split; [done|]. split; [done|]. split; [done|].
  intros vertex'. rewrite Hset. intros [= <-].
  destruct (ltb wm weight); [|done].
  destruct Hsized as [Hids Hws]. split; cbn; by rewrite length_insert.
Qed.
End VertexFacts.

Lemma first_influences_fill_slots_in_order_witness :
  AnimatedModel.SetVertexBoneData_all
    (AnimatedModel.SetVertexBoneDataToDefault
       {| AnimatedVertex.boneIDs := [5; 5; 5; 5];
          AnimatedVertex.weights := replicate 4 (Float32.of_Z 1) |})
    [(2, Float32.of_frac 1 2); (0, Float32.of_frac 1 4)]
  = Some {| AnimatedVertex.boneIDs := [2; 0; -1; -1];
            AnimatedVertex.weights :=
              [Float32.of_frac 1 2; Float32.of_frac 1 4; Float32.zero;
               Float32.zero] |}.
Proof.
  apply (first_influences_fill_slots_in_order
           {| AnimatedVertex.boneIDs := [5; 5; 5; 5];
              AnimatedVertex.weights := replicate 4 (Float32.of_Z 1) |}
           [(2, Float32.of_frac 1 2); (0, Float32.of_frac 1 4)]).
  - split; reflexivity.
  - cbn. lia.
  - apply Forall_cons. split; [cbn; lia|].
    apply Forall_cons. split; [cbn; lia|]. apply Forall_nil. exact I.
Defined.

Lemma full_vertex_replaces_lightest_slot_witness :
  AnimatedModel.SetVertexBoneData
    {| AnimatedVertex.boneIDs := [0; 1; 2; 3];
       AnimatedVertex.weights :=
         [Float32.of_frac 1 2; Float32.of_frac 1 4; Float32.of_frac 3 4;
          Float32.of_Z 1] |}
    9 (Float32.of_frac 3 5)
  = Some {| AnimatedVertex.boneIDs := [0; 9; 2; 3];
            AnimatedVertex.weights :=
              [Float32.of_frac 1 2; Float32.of_frac 3 5; Float32.of_frac 3 4;
               Float32.of_Z 1] |}
  ∧ AnimatedVertex.sized
      {| AnimatedVertex.boneIDs := [0; 9; 2; 3];
         AnimatedVertex.weights :=
           [Float32.of_frac 1 2; Float32.of_frac 3 5; Float32.of_frac 3 4;
            Float32.of_Z 1] |}.
Proof.
  destruct (full_vertex_replaces_lightest_slot
              {| AnimatedVertex.boneIDs := [0; 1; 2; 3];
                 AnimatedVertex.weights :=
                   [Float32.of_frac 1 2; Float32.of_frac 1 4;
                    Float32.of_frac 3 4; Float32.of_Z 1] |}
              9 (Float32.of_frac 3 5))
    as (m & wm & _ & _ & _ & Hsized).
  - split; reflexivity.
  - intros [|[|[|[|j]]]] o Ho; try discriminate Ho; injection Ho as <-; lia.
  - split; [vm_compute; reflexivity|]. apply Hsized. vm_compute. reflexivity.
Defined.

(** ** The bones of the meshes *)

Section MeshBoneFacts.
Context `{Glm}.

(** The names that pass the filter of [ExtractBoneWeightForVertices]. *)
Lemma allowed_spec (boneName : string) :
  AnimatedModel.allowed boneName = true
  ↔ String.prefix "DEF-" boneName = true
    ∨ boneName = "head"%string ∨ boneName = "tail.001"%string.
Proof.
  unfold AnimatedModel.allowed, Config.ALLOWED_BONES.
  cbn -[String.prefix].
  rewrite !orb_true_iff, !bool_decide_eq_true. split.
  - intros [[Hp|Heq]|[Heq|[Heq|Hf]]]; auto; [|discriminate Hf].
    left. by rewrite Heq.
  - intros [Hp|[Heq|Heq]]; auto.
Qed.

Lemma ExtractBoneWeightForVertices_step_spec (this this' : AnimatedModel.t)
    (bone : aiBone) :
  AnimatedModel.ExtractBoneWeightForVertices_step this bone = Some this' →
  AnimatedModel.boneInfoMap this ⊆ AnimatedModel.boneInfoMap this'
  ∧ (∀ name, is_Some (AnimatedModel.boneInfoMap this' !! name)
             ↔ is_Some (AnimatedModel.boneInfoMap this !! name)
               ∨ (name = bone_mName bone
                  ∧ AnimatedModel.allowed name = true)).
Proof.
  unfold AnimatedModel.ExtractBoneWeightForVertices_step.
  destruct (AnimatedModel.allowed (bone_mName bone)) eqn:Hallowed.
  - destruct (AnimatedModel.boneInfoMap this !! bone_mName bone) as [info|]
      eqn:Hl.
    + intros [= <-]. split; [done|]. intros name. split; [by left|].
      intros [?|[-> _]]; [done|by eexists].
    + destruct (AnimatedModel.boneCounter this <? INT_MAX); [|done].
      intros [= <-]. cbn. split; [by apply insert_subseteq|].
      intros name. rewrite lookup_insert_is_Some. split.
      * intros [<-|[_ ?]]; [by right|by left].
      * intros [?|[-> _]]; [|by left].
        destruct (decide (bone_mName bone = name)); [by left|by right].
  - intros [= <-]. split; [done|]. intros name. split; [by left|].
    intros [?|[-> Hc]]; [done|congruence].
Qed.

(** X13. [ExtractBoneWeightForVertices] enters into the table the bones
    of the mesh that pass the filter and no other: a name enters when it
    starts with [DEF-] or is [head] or [tail.001].  What the table held
    stays as it was, identifier and offset, also for a bone that a later
    mesh brings again. *)
Theorem mesh_bones_enter_through_the_filter (this this' : AnimatedModel.t)
    (mBones : list aiBone) :
  AnimatedModel.ExtractBoneWeightForVertices this mBones = Some this' →
  AnimatedModel.boneInfoMap this ⊆ AnimatedModel.boneInfoMap this'
  ∧ ∀ name, is_Some (AnimatedModel.boneInfoMap this' !! name)
            ↔ is_Some (AnimatedModel.boneInfoMap this !! name)
              ∨ (name ∈ bone_mName <$> mBones
                 ∧ (String.prefix "DEF-" name = true
                    ∨ name = "head"%string ∨ name = "tail.001"%string)).
Proof.
  unfold AnimatedModel.ExtractBoneWeightForVertices. revert this.
  induction mBones as [|bone rest IH]; intros this; cbn [fold_defined].
  - intros [= <-]. split; [done|]. intros name. split; [by left|].
    intros [?|[Hin _]]; [done|]. by apply elem_of_nil in Hin.
  - destruct (AnimatedModel.ExtractBoneWeightForVertices_step this bone)
      as [this1|] eqn:Hstep; [|done].
    cbn [mbind option_bind]. intros Hrest.
    apply ExtractBoneWeightForVertices_step_spec in Hstep as [Hsub1 Hdom1].
    apply IH in Hrest as [Hsub2 Hdom2].
    split; [by etrans|]. intros name.
    rewrite Hdom2, Hdom1, fmap_cons, elem_of_cons, allowed_spec. tauto.
Qed.

(** X14. On a model whose identifiers are those of [dense_ids], as every
    table built by the loads is, [FindBoneID] answers [-1] for the names
    the table does not hold and for no other, and for a name it holds an
    identifier in [0, boneCounter) that no other name has. *)
Theorem FindBoneID_tells_known_names_apart (this : AnimatedModel.t)
    (boneName : string) :
  dense_ids this →
  (AnimatedModel.FindBoneID this boneName = -1
   ↔ AnimatedModel.boneInfoMap this !! boneName = None)
  ∧ (AnimatedModel.FindBoneID this boneName ≠ -1 →
     0 ≤ AnimatedModel.FindBoneID this boneName
       < AnimatedModel.boneCounter this
     ∧ ∀ other, AnimatedModel.FindBoneID this other
                = AnimatedModel.FindBoneID this boneName →
                other = boneName).
Proof.
  intros (Hcount & Hrange & _ & Hinj). unfold AnimatedModel.FindBoneID.
  destruct (AnimatedModel.boneInfoMap this !! boneName) as [info|] eqn:Hl.
  - pose proof (Hrange _ _ Hl) as Hid. split; [split; [lia|done]|].
    intros _. split; [done|]. intros other.
    destruct (AnimatedModel.boneInfoMap this !! other) as [info'|] eqn:Hl'.
    + intros Heq. by eapply Hinj.
    + lia.
  - split; [done|]. by intros [].
Qed.
End MeshBoneFacts.

Lemma mesh_bones_enter_through_the_filter_witness :
  ∃ this',
    AnimatedModel.ExtractBoneWeightForVertices (H := Symbolic.glm)
      AnimatedModel.AnimatedModel
      [ {| bone_mName := "DEF-spine"; mOffsetMatrix := Sample.identity_matrix |};
        {| bone_mName := "ORG-spine"; mOffsetMatrix := Sample.identity_matrix |};
        {| bone_mName := "head"; mOffsetMatrix := Sample.identity_matrix |} ]
    = Some this'
    ∧ is_Some (AnimatedModel.boneInfoMap this' !! "head"%string)
    ∧ ¬ is_Some (AnimatedModel.boneInfoMap this' !! "ORG-spine"%string).
Proof.
  destruct (AnimatedModel.ExtractBoneWeightForVertices (H := Symbolic.glm)
              AnimatedModel.AnimatedModel
              [ {| bone_mName := "DEF-spine";
                   mOffsetMatrix := Sample.identity_matrix |};
                {| bone_mName := "ORG-spine";
                   mOffsetMatrix := Sample.identity_matrix |};
                {| bone_mName := "head";
                   mOffsetMatrix := Sample.identity_matrix |} ])
    as [this'|] eqn:Hmesh; [|vm_compute in Hmesh; discriminate Hmesh].
  destruct (mesh_bones_enter_through_the_filter _ _ _ Hmesh) as [_ Hnames].
  clear Hmesh. exists this'. split; [reflexivity|]. split.
  - apply Hnames. right. split; [|right; left; reflexivity].
    apply elem_of_cons. right. apply elem_of_cons. right.
    apply elem_of_cons. left. reflexivity.
  - intros Hin. apply Hnames in Hin as [Hin|[_ [Hp|[Hp|Hp]]]];
      [|discriminate Hp..].
    destruct Hin as [info Hin]. vm_compute in Hin. discriminate Hin.
Defined.

Lemma FindBoneID_tells_known_names_apart_witness :
  ∃ objs model',
    load_all (H := Symbolic.glm) two_loads AnimatedModel.AnimatedModel
    = Some (objs, model')
    ∧ 0 ≤ AnimatedModel.FindBoneID model' "DEF-jaw"
        < AnimatedModel.boneCounter model'
    ∧ AnimatedModel.FindBoneID model' "DEF-horn" = -1.
Proof.
  destruct (load_all (H := Symbolic.glm) two_loads AnimatedModel.AnimatedModel)
    as [[objs model']|] eqn:Hload; [|vm_compute in Hload; discriminate Hload].
  pose proof (load_all_continues _ _ _ _ Hload) as (_ & Hdense & _).
  specialize (Hdense fresh_model_dense).
  destruct (FindBoneID_tells_known_names_apart model' "DEF-jaw" Hdense)
    as [_ Hknown].
  destruct (FindBoneID_tells_known_names_apart model' "DEF-horn" Hdense)
    as [Hunknown _].
  exists objs, model'. split; [reflexivity|]. split.
  - apply Hknown. clear Hknown Hunknown Hdense.
    vm_compute in Hload. injection Hload as <- <-.
    vm_compute. intros Hc. discriminate Hc.
  - apply Hunknown. clear Hknown Hunknown Hdense.
    vm_compute in Hload. injection Hload as <- <-.
    vm_compute. reflexivity.
Defined.

(** ** What a tick changes *)

Section TickFacts.
Context `{Glm}.
Variable deref : addr → Animation.t.

Lemma advance_layer_looping (dt : float) (info : LayerInfo.t) :
  LayerInfo.looping (Animator.advance_layer deref dt info)
  = LayerInfo.looping info.
Proof.
  unfold Animator.advance_layer.
  destruct (LayerInfo.animation info) as [anim|]; [|done].
  destruct (LayerInfo.active info); [|done].
  destruct (negb (LayerInfo.looping info) && _); [done|].
  by destruct (LayerInfo.looping info).
Qed.

(** A layer without a clip, or not active, is left alone by the clock. *)
Lemma advance_layer_idle (dt : float) (info : LayerInfo.t) :
  LayerInfo.active info = false ∨ LayerInfo.animation info = None →
  Animator.advance_layer deref dt info = info.
Proof.
  unfold Animator.advance_layer. intros [Hidle|Hnone].
  - rewrite Hidle. by destruct (LayerInfo.animation info).
  - by rewrite Hnone.
Qed.

Lemma apply_layer_idle (this : Animator.t) (layer : AnimationLayer) :
  (∀ info, Animator.layers this !! layer = Some info →
           LayerInfo.active info = false ∨ LayerInfo.animation info = None) →
  Animator.apply_layer deref this layer = Some this.
Proof.
  intros Hidle. unfold Animator.apply_layer.
  destruct (Animator.layers this !! layer) as [info|]; [|done].
  destruct (Hidle info eq_refl) as [Hoff|Hnone].
  - rewrite Hoff. by destruct (LayerInfo.animation info).
  - by rewrite Hnone.
Qed.

Lemma apply_layers_idle (order : list AnimationLayer) (this : Animator.t) :
  (∀ layer info, Animator.layers this !! layer = Some info →
                 LayerInfo.active info = false
                 ∨ LayerInfo.animation info = None) →
  fold_defined (Animator.apply_layer deref) order this = Some this.
Proof.
  intros Hidle. induction order as [|layer rest IH]; [done|].
  cbn [fold_defined]. rewrite apply_layer_idle by apply Hidle.
  exact IH.
Qed.

Lemma advance_time_layers (this : Animator.t) (dt : float) :
  Animator.layers (Animator.advance_time deref this dt)
  = Animator.advance_layer deref dt <$> Animator.layers this.
Proof.
  unfold Animator.advance_time. cbn.
  by destruct (Animator.currentAnimation this).
Qed.

Lemma advance_time_no_clip (this : Animator.t) (dt : float) :
  Animator.currentAnimation this = None →
  Animator.currentTime (Animator.advance_time deref this dt)
  = Animator.currentTime this.
Proof. intros Hnone. unfold Animator.advance_time. cbn. by rewrite Hnone. Qed.

Lemma primary_pass_no_clip (this : Animator.t) :
  Animator.currentAnimation this = None →
  Animator.primary_pass deref this
  = Some (Animator.set_finalBoneMatrices
            (replicate (length (Animator.finalBoneMatrices this))
                       mat4_identity) this).
Proof.
  intros Hnone. unfold Animator.primary_pass.
  cbn [Animator.currentAnimation Animator.set_finalBoneMatrices].
  by rewrite Hnone.
Qed.

Lemma primary_pass_clip (this : Animator.t) (anim : addr) :
  Animator.currentAnimation this = Some anim →
  Animator.primary_pass deref this
  = Animator.CalculateBoneTransform deref
      (Animator.set_finalBoneMatrices
         (replicate (length (Animator.finalBoneMatrices this)) mat4_identity)
         this)
      (Animation.GetRootNode (deref anim)) mat4_identity.
Proof.
  intros Hcur. unfold Animator.primary_pass.
  cbn [Animator.currentAnimation Animator.set_finalBoneMatrices].
  by rewrite Hcur.
Qed.

(** X15. Ticks change neither the size of the output array, nor the
    override map, nor the pointer to the main clip, nor the set of layers
    that have an entry, nor the looping flag of any of them. *)
Theorem ticks_keep_the_shape (this this' : Animator.t) (dts : list float) :
  Animator.ticks deref this dts = Some this' →
  length (Animator.finalBoneMatrices this')
  = length (Animator.finalBoneMatrices this)
  ∧ Animator.boneOverrides this' = Animator.boneOverrides this
  ∧ Animator.currentAnimation this' = Animator.currentAnimation this
  ∧ dom (Animator.layers this') = dom (Animator.layers this)
  ∧ ∀ layer info', Animator.layers this' !! layer = Some info' →
                   ∃ info, Animator.layers this !! layer = Some info
                           ∧ LayerInfo.looping info' = LayerInfo.looping info.
Proof.
  unfold Animator.ticks. revert this.
  induction dts as [|dt rest IH]; intros this; cbn [fold_defined].
  - intros [= <-]. do 4 (split; [done|]). intros layer info' Hl. by exists info'.
  - destruct (Animator.UpdateAnimation deref this dt) as [this1|] eqn:Htick;
      [|done].
    cbn [mbind option_bind]. intros Hrest.
    apply IH in Hrest as (Hlen & Hover & Hcur & Hdom & Hloop).
    pose proof (UpdateAnimation_frames _ _ _ _ Htick) as Hframes.
    pose proof (frames_fields _ _ Hframes) as (Ho1 & Hl1 & Hc1 & _ & _).
    destruct Hframes as [_ Hlen1].
    destruct (advance_time_fields deref this dt) as (Hc0 & Hf0 & Ho0).
    rewrite advance_time_layers in Hl1.
    split; [congruence|]. split; [congruence|]. split; [congruence|].
    split.
    + by rewrite Hdom, Hl1, dom_fmap_L.
    + intros layer info' Hl'. destruct (Hloop _ _ Hl') as (info1 & Hi1 & Hloop1).
      rewrite Hl1, lookup_fmap in Hi1.
      destruct (Animator.layers this !! layer) as [info|]; [|done].
      injection Hi1 as <-. exists info. split; [done|].
      by rewrite Hloop1, advance_layer_looping.
Qed.

(** X16. While no layer is active on a clip a tick is the walk of the
    main clip and nothing more: the layers stay as they are and the
    output array is the one the main walk leaves.  With no main clip
    either, the tick fills the array with the identity and leaves the
    clock alone. *)
Theorem idle_layers_leave_the_main_walk (this this' : Animator.t)
    (dt : float) :
  Animator.UpdateAnimation deref this dt = Some this' →
  (∀ layer info, Animator.layers this !! layer = Some info →
                 LayerInfo.active info = false
                 ∨ LayerInfo.animation info = None) →
  Animator.primary_pass deref (Animator.advance_time deref this dt)
  = Some this'
  ∧ Animator.layers this' = Animator.layers this
  ∧ (Animator.currentAnimation this = None →
     Animator.finalBoneMatrices this'
     = replicate (length (Animator.finalBoneMatrices this)) mat4_identity
     ∧ Animator.currentTime this' = Animator.currentTime this).
Proof.
  intros Htick Hidle.
  assert (Animator.layers (Animator.advance_time deref this dt)
          = Animator.layers this) as Hlayers.
  { rewrite advance_time_layers. apply map_eq. intros layer.
    rewrite lookup_fmap.
    destruct (Animator.layers this !! layer) as [info|] eqn:Hl; [|done].
    cbn. f_equal. apply advance_layer_idle. by eapply Hidle. }
  unfold Animator.UpdateAnimation in Htick.
  destruct (Animator.primary_pass deref (Animator.advance_time deref this dt))
    as [this1|] eqn:Hwalk; [|done].
  cbn [mbind option_bind] in Htick.
  pose proof (frames_fields _ _ (primary_pass_frames _ _ _ Hwalk))
    as (_ & Hl1 & _ & Ht1 & _).
  rewrite apply_layers_idle in Htick.
  2:{ intros layer info. rewrite Hl1, Hlayers. apply Hidle. }
  injection Htick as <-. split; [done|]. split; [congruence|].
  intros Hnone. split; [|by rewrite Ht1, advance_time_no_clip].
  destruct (advance_time_fields deref this dt) as (Hc0 & Hf0 & _).
  rewrite primary_pass_no_clip, Hf0 in Hwalk by congruence.
  injection Hwalk as <-. reflexivity.
Qed.

Lemma write_final_untouched (this : Animator.t) (clip : Animation.t)
    (nodeName : string) (globalTransformation : mat4) (i : nat) :
  (∀ info, Animation.GetBoneIDMap clip !! nodeName = Some info →
           AnimatedModel.id info ≠ Z.of_nat i) →
  Animator.finalBoneMatrices
    (Animator.write_final this clip nodeName globalTransformation) !! i
  = Animator.finalBoneMatrices this !! i.
Proof.
  intros Hother. unfold Animator.write_final.
  destruct (Animation.GetBoneIDMap clip !! nodeName) as [info|]; [|done].
  destruct (Animator.in_range (AnimatedModel.id info) _) eqn:Hin; [|done].
  cbn. apply list_lookup_insert_ne. specialize (Hother info eq_refl).
  apply in_range_spec in Hin. lia.
Qed.

Lemma CalculateBoneTransform_children_untouched
    (anim : addr) (i : nat) (children : list Animation.AssimpNodeData) :
  Forall (λ node, ∀ this parentTransform this',
            Animator.currentAnimation this = Some anim →
            (∀ name info, name ∈ Animator.node_names node →
                          Animation.GetBoneIDMap (deref anim) !! name
                          = Some info →
                          AnimatedModel.id info ≠ Z.of_nat i) →
            Animator.CalculateBoneTransform deref this node parentTransform
            = Some this' →
            Animator.finalBoneMatrices this' !! i
            = Animator.finalBoneMatrices this !! i) children →
  ∀ n globalTransformation this this',
    Animator.currentAnimation this = Some anim →
    (∀ name info, name ∈ flat_map Animator.node_names children →
                  Animation.GetBoneIDMap (deref anim) !! name = Some info →
                  AnimatedModel.id info ≠ Z.of_nat i) →
    Animator.CalculateBoneTransform_children deref n children
      globalTransformation this = Some this' →
    Animator.finalBoneMatrices this' !! i
    = Animator.finalBoneMatrices this !! i.
Proof.
  induction 1 as [|child rest Hchild _ IH]; intros [|n] g this this' Hcur Hother;
    cbn [Animator.CalculateBoneTransform_children].
  - by intros [= <-].
  - done.
  - by intros [= <-].
  - destruct (Animator.CalculateBoneTransform deref this child g)
      as [this1|] eqn:H1; [|done].
    cbn [mbind option_bind]. intros H2.
    pose proof (frames_fields _ _ (CalculateBoneTransform_frames _ _ _ _ _ H1))
      as (_ & _ & Hc1 & _).
    rewrite (IH n g this1 this'); [| congruence | | done].
    + apply (Hchild this g this1); [done| |done].
      intros name info Hin. apply Hother. cbn [flat_map].
      apply elem_of_app. by left.
    + intros name info Hin. apply Hother. cbn [flat_map].
      apply elem_of_app. by right.
Qed.

(** The walk of the main clip writes only where a node of the hierarchy
    resolves to. *)
Lemma CalculateBoneTransform_untouched (anim : addr) (i : nat)
    (node : Animation.AssimpNodeData) :
  ∀ this parentTransform this',
    Animator.currentAnimation this = Some anim →
    (∀ name info, name ∈ Animator.node_names node →
                  Animation.GetBoneIDMap (deref anim) !! name = Some info →
                  AnimatedModel.id info ≠ Z.of_nat i) →
    Animator.CalculateBoneTransform deref this node parentTransform
    = Some this' →
    Animator.finalBoneMatrices this' !! i
    = Animator.finalBoneMatrices this !! i.
Proof.
  induction node as [transformation nodeName childrenCount children IH]
    using AssimpNodeData_tree_ind.
  intros this parentTransform this' Hcur Hother.
  rewrite CalculateBoneTransform_node, Hcur. cbn [mbind option_bind].
  destruct (Animator.animated_local (deref anim) (Animator.currentTime this)
              transformation nodeName) as [nodeTransform|]; [|done].
  cbn [mbind option_bind]. cbv zeta. intros Hloop.
  etrans.
  - eapply (CalculateBoneTransform_children_untouched anim i children IH);
      [| |exact Hloop].
    + pose proof (frames_fields _ _
                    (write_final_frames this (deref anim) nodeName
                       (parentTransform
                        × Animator.overridden this (deref anim) nodeName
                            nodeTransform))) as (_ & _ & Hc & _).
      congruence.
    + intros name info Hin. apply Hother. cbn [Animator.node_names].
      by right.
  - apply write_final_untouched. intros info. apply Hother.
    cbn [Animator.node_names]. by left.
Qed.

(** X17. After a tick, an entry of the output array that no node of the
    hierarchy of the main clip resolves to, and that no active layer
    claims, is the identity: a bone that the hierarchy does not name is
    not posed. *)
Theorem unresolved_entries_are_identity (this this' : Animator.t)
    (dt : float) (anim : addr) (i : nat) :
  Animator.UpdateAnimation deref this dt = Some this' →
  Animator.currentAnimation this = Some anim →
  (i < length (Animator.finalBoneMatrices this))%nat →
  (∀ name info,
     name ∈ Animator.node_names (Animation.GetRootNode (deref anim)) →
     Animation.GetBoneIDMap (deref anim) !! name = Some info →
     AnimatedModel.id info ≠ Z.of_nat i) →
  (∀ layer info clip name bone,
     Animator.layers (Animator.advance_time deref this dt) !! layer
     = Some info →
     LayerInfo.active info = true →
     LayerInfo.animation info = Some clip →
     Animation.GetBoneIDMap (deref clip) !! name = Some bone →
     AnimatedModel.id bone = Z.of_nat i →
     Animator.GetBoneLayer name ≠ layer) →
  Animator.finalBoneMatrices this' !! i = Some mat4_identity.
Proof.
  intros Htick Hcur Hi Hnodes Hlayers.
  assert (Animator.currentAnimation
            (Animator.set_finalBoneMatrices
               (replicate
                  (length (Animator.finalBoneMatrices
                             (Animator.advance_time deref this dt)))
                  mat4_identity)
               (Animator.advance_time deref this dt)) = Some anim) as Hc0'.
  { cbn [Animator.currentAnimation Animator.set_finalBoneMatrices].
    destruct (advance_time_fields deref this dt) as (-> & _). done. }
  unfold Animator.UpdateAnimation in Htick.
  destruct (Animator.primary_pass deref (Animator.advance_time deref this dt))
    as [this1|] eqn:Hwalk; [|done].
  cbn [mbind option_bind] in Htick.
  pose proof (frames_fields _ _ (primary_pass_frames _ _ _ Hwalk))
    as (_ & Hl1 & _).
  rewrite (apply_layers_untouched deref layer_order this1 this' i Htick).
  2:{ intros layer info clip name bone. rewrite Hl1. apply Hlayers. }
  destruct (advance_time_fields deref this dt) as (Hc0 & Hf0 & _).
  rewrite (primary_pass_clip _ anim) in Hwalk by congruence.
  rewrite (CalculateBoneTransform_untouched anim i _ _ _ _ Hc0' Hnodes Hwalk).
  change (replicate
            (length (Animator.finalBoneMatrices
                       (Animator.advance_time deref this dt)))
            mat4_identity !! i = Some mat4_identity).
  rewrite Hf0. by apply lookup_replicate_2.
Qed.
End TickFacts.

Section TickDefined.
Context `{Glm}.
Variable deref : addr → Animation.t.

Lemma animated_local_posed (clip : Animation.t) (time : float)
    (transformation : mat4) (nodeName : string) :
  is_Some (Animator.animated_local clip time transformation nodeName)
  ↔ Animator.posed clip time nodeName = true.
Proof.
  unfold Animator.animated_local, Animator.posed.
  destruct (Animation.FindBone clip nodeName) as [bone|].
  - destruct (Bone.Update bone time) as [m|].
    + split; [done|]. intros _. exact (mk_is_Some _ _ eq_refl).
    + split; [intros Hn; by apply is_Some_None in Hn|done].
  - split; [done|]. intros _. exact (mk_is_Some _ _ eq_refl).
Qed.

(** The walk of the main clip below a node is defined exactly when every
    node it visits has a local transform at the clock of the animator. *)
Lemma CalculateBoneTransform_defined_iff (anim : addr) (time : float)
    (node : Animation.AssimpNodeData) :
  Animation.counted node = true →
  ∀ this parentTransform,
    Animator.currentAnimation this = Some anim →
    Animator.currentTime this = time →
    is_Some (Animator.CalculateBoneTransform deref this node parentTransform)
    ↔ forallb (Animator.posed (deref anim) time) (Animator.node_names node)
      = true.
Proof.
  induction node as [transformation nodeName childrenCount children IH]
    using AssimpNodeData_tree_ind.
  cbn [Animation.counted]. intros [Hcount Hchildren]%andb_true_iff.
  apply Z.eqb_eq in Hcount. intros this parentTransform Hcur Htime.
  rewrite CalculateBoneTransform_node, Hcur, Htime. cbn [mbind option_bind].
  cbn [Animator.node_names forallb]. rewrite andb_true_iff.
  rewrite <- (animated_local_posed (deref anim) time transformation nodeName).
  destruct (Animator.animated_local (deref anim) time transformation nodeName)
    as [nodeTransform|]; cbn [mbind option_bind].
  2:{ split; [intros Hn; by apply is_Some_None in Hn|].
      intros [Hn _]. by apply is_Some_None in Hn. }
  cbv zeta. rewrite Hcount, Nat2Z.id.
  set (g := parentTransform
            × Animator.overridden this (deref anim) nodeName nodeTransform).
  assert (Animator.currentAnimation
            (Animator.write_final this (deref anim) nodeName g) = Some anim
          ∧ Animator.currentTime
              (Animator.write_final this (deref anim) nodeName g) = time)
    as [Hcur1 Htime1].
  { pose proof (write_final_frames this (deref anim) nodeName g) as Hframes.
    apply frames_fields in Hframes as (_ & _ & -> & -> & _). done. }
  revert Hcur1 Htime1.
  generalize (Animator.write_final this (deref anim) nodeName g).
  clear Hcount Hcur Htime. clearbody g.
  induction children as [|child rest IHrest]; intros this1 Hcur1 Htime1.
  { cbn. split; [intros _|intros _; exact (mk_is_Some _ _ eq_refl)].
    split; [exact (mk_is_Some _ _ eq_refl)|done]. }
  cbn [length Animator.CalculateBoneTransform_children flat_map].
  apply Forall_cons in IH as [IHchild IHtail].
  cbn [forallb] in Hchildren.
  apply andb_true_iff in Hchildren as [Hchild Hrest].
  rewrite forallb_app, andb_true_iff.
  specialize (IHchild Hchild this1 g Hcur1 Htime1).
  destruct (Animator.CalculateBoneTransform deref this1 child g)
    as [this2|] eqn:Hwalk; cbn [mbind option_bind].
  - apply CalculateBoneTransform_frames, frames_fields in Hwalk
      as (_ & _ & Hc2 & Ht2 & _).
    rewrite Hcur1 in Hc2. rewrite Htime1 in Ht2.
    rewrite (IHrest IHtail Hrest this2 Hc2 Ht2).
    assert (forallb (Animator.posed (deref anim) time)
              (Animator.node_names child) = true) as Hposed.
    { apply IHchild. exact (mk_is_Some _ _ eq_refl). }
    split.
    + intros [Hsome Hall]. split; [exact Hsome|]. split; [exact Hposed|done].
    + intros [Hsome [_ Hall]]. split; [exact Hsome|done].
  - split; [intros Hn; by apply is_Some_None in Hn|].
    intros [_ [Hposed _]]. apply IHchild in Hposed.
    by apply is_Some_None in Hposed.
Qed.

(** The walk of a layer clip below a node, likewise at the clock of the
    layer; it keeps the size of the layer's array. *)
Lemma CalculateLayerBoneTransform_defined_iff (this : Animator.t)
    (layer : AnimationLayer) (info : LayerInfo.t) (anim : addr)
    (node : Animation.AssimpNodeData) :
  Animator.layers this !! layer = Some info →
  LayerInfo.animation info = Some anim →
  Animation.counted node = true →
  ∀ parentTransform layerMatrices,
    (is_Some (Animator.CalculateLayerBoneTransform deref this node
                parentTransform layer layerMatrices)
     ↔ forallb (Animator.posed (deref anim) (LayerInfo.currentTime info))
               (Animator.node_names node) = true)
    ∧ ∀ layerMatrices',
        Animator.CalculateLayerBoneTransform deref this node parentTransform
          layer layerMatrices = Some layerMatrices' →
        length layerMatrices' = length layerMatrices.
Proof.
  intros Hlayer Hanim.
  induction node as [transformation nodeName childrenCount children IH]
    using AssimpNodeData_tree_ind.
  cbn [Animation.counted]. intros [Hcount Hchildren]%andb_true_iff.
  apply Z.eqb_eq in Hcount. intros parentTransform layerMatrices.
  rewrite CalculateLayerBoneTransform_node, Hlayer. cbn [mbind option_bind].
  rewrite Hanim. cbn [mbind option_bind].
  cbn [Animator.node_names forallb]. rewrite andb_true_iff.
  rewrite <- (animated_local_posed (deref anim) (LayerInfo.currentTime info)
                transformation nodeName).
  destruct (Animator.animated_local (deref anim) (LayerInfo.currentTime info)
              transformation nodeName)
    as [nodeTransform|]; cbn [mbind option_bind].
  2:{ split; [|done].
      split; [intros Hn; by apply is_Some_None in Hn|].
      intros [Hn _]. by apply is_Some_None in Hn. }
  cbv zeta. rewrite Hcount, Nat2Z.id.
  rewrite <- (write_layer_length (deref anim) nodeName layer
                (parentTransform × nodeTransform) layerMatrices).
  generalize (Animator.write_layer (deref anim) nodeName layer
                (parentTransform × nodeTransform) layerMatrices).
  clear Hcount. intros m. revert m.
  induction children as [|child rest IHrest]; intros m.
  { cbn. split; [|by intros m' [= <-]].
    split; [intros _|intros _; exact (mk_is_Some _ _ eq_refl)].
    split; [exact (mk_is_Some _ _ eq_refl)|done]. }
  cbn [length Animator.CalculateLayerBoneTransform_children flat_map].
  apply Forall_cons in IH as [IHchild IHtail].
  cbn [forallb] in Hchildren.
  apply andb_true_iff in Hchildren as [Hchild Hrest].
  rewrite forallb_app, andb_true_iff.
  destruct (IHchild Hchild (parentTransform × nodeTransform) m)
    as [Hiff Hlen].
  destruct (Animator.CalculateLayerBoneTransform deref this child
              (parentTransform × nodeTransform) layer m)
    as [m1|] eqn:Hwalk; cbn [mbind option_bind].
  - destruct (IHrest IHtail Hrest m1) as [Hiff' Hlen'].
    assert (forallb (Animator.posed (deref anim) (LayerInfo.currentTime info))
              (Animator.node_names child) = true) as Hposed.
    { apply Hiff. exact (mk_is_Some _ _ eq_refl). }
    split.
    + rewrite Hiff'. split.
      * intros [Hsome Hall]. split; [exact Hsome|].
        split; [exact Hposed|done].
      * intros [Hsome [_ Hall]]. split; [exact Hsome|done].
    + intros m' Hm'. rewrite (Hlen' m' Hm'). by apply Hlen.
  - split; [|done].
    split; [intros Hn; by apply is_Some_None in Hn|].
    intros [_ [Hposed _]]. apply Hiff in Hposed.
    by apply is_Some_None in Hposed.
Qed.

Hypothesis store_counted :
  ∀ anim, Animation.counted (Animation.GetRootNode (deref anim)) = true.

Lemma primary_pass_defined_iff (this : Animator.t) :
  is_Some (Animator.primary_pass deref this)
  ↔ ∀ anim, Animator.currentAnimation this = Some anim →
            Animator.poses (deref anim) (Animator.currentTime this) = true.
Proof.
  destruct (Animator.currentAnimation this) as [anim|] eqn:Hcur.
  - rewrite (primary_pass_clip deref this anim Hcur).
    rewrite (CalculateBoneTransform_defined_iff anim
               (Animator.currentTime this)); [|apply store_counted|done|done].
    unfold Animator.poses. split; [by intros Hp anim' [= <-]|].
    intros Hp. by apply Hp.
  - rewrite (primary_pass_no_clip deref this Hcur).
    split; [done|]. intros _. exact (mk_is_Some _ _ eq_refl).
Qed.

Lemma apply_layer_defined_iff (this : Animator.t) (layer : AnimationLayer) :
  is_Some (Animator.apply_layer deref this layer)
  ↔ ∀ info anim,
      Animator.layers this !! layer = Some info →
      LayerInfo.animation info = Some anim →
      LayerInfo.active info = true →
      Animator.poses (deref anim) (LayerInfo.currentTime info) = true.
Proof.
  unfold Animator.apply_layer.
  destruct (Animator.layers this !! layer) as [info|] eqn:Hlayer.
  2:{ split; [done|]. intros _. exact (mk_is_Some _ _ eq_refl). }
  destruct (LayerInfo.animation info) as [anim|] eqn:Hanim.
  2:{ split; [|intros _; exact (mk_is_Some _ _ eq_refl)].
      intros _ info' anim' [= <-]. by rewrite Hanim. }
  destruct (LayerInfo.active info) eqn:Hactive.
  2:{ split; [|intros _; exact (mk_is_Some _ _ eq_refl)].
      intros _ info' anim' [= <-] _. by rewrite Hactive. }
  destruct (CalculateLayerBoneTransform_defined_iff this layer info anim
              (Animation.GetRootNode (deref anim)) Hlayer Hanim
              (store_counted anim) mat4_identity
              (replicate (length (Animator.finalBoneMatrices this))
                         mat4_identity)) as [Hiff Hlen].
  destruct (Animator.CalculateLayerBoneTransform deref this _ _ _ _)
    as [m|]; cbn [mbind option_bind].
  - specialize (Hlen m eq_refl). rewrite length_replicate in Hlen.
    destruct (apply_layer_bones_defined layer m
                (map_to_list (Animation.GetBoneIDMap (deref anim)))
                (Animator.finalBoneMatrices this) Hlen) as [final ->].
    cbn [mbind option_bind]. split; [|intros _; exact (mk_is_Some _ _ eq_refl)].
    intros _ info' anim' [= <-] Hanim' _. rewrite Hanim in Hanim'.
    injection Hanim' as <-. apply Hiff. exact (mk_is_Some _ _ eq_refl).
  - split; [intros Hn; by apply is_Some_None in Hn|].
    intros Hp. exfalso. apply (is_Some_None (A := list mat4)).
    apply Hiff. by apply (Hp info anim).
Qed.

Lemma apply_layers_defined_iff (order : list AnimationLayer)
    (this : Animator.t) :
  is_Some (fold_defined (Animator.apply_layer deref) order this)
  ↔ ∀ layer info anim,
      layer ∈ order →
      Animator.layers this !! layer = Some info →
      LayerInfo.animation info = Some anim →
      LayerInfo.active info = true →
      Animator.poses (deref anim) (LayerInfo.currentTime info) = true.
Proof.
  revert this. induction order as [|layer rest IH]; intros this;
    cbn [fold_defined].
  { split; [|intros _; exact (mk_is_Some _ _ eq_refl)].
    intros _ layer info anim Hin. by apply elem_of_nil in Hin. }
  pose proof (apply_layer_defined_iff this layer) as Hone.
  destruct (Animator.apply_layer deref this layer) as [this1|] eqn:Hstep;
    cbn [mbind option_bind].
  - apply apply_layer_frames, frames_fields in Hstep as (_ & Hlayers & _).
    rewrite IH, Hlayers. split.
    + intros Hrest layer' info anim [->|Hin]%elem_of_cons.
      * apply Hone. exact (mk_is_Some _ _ eq_refl).
      * by apply Hrest.
    + intros Hall layer' info anim Hin. apply Hall. by right.
  - split; [intros Hn; by apply is_Some_None in Hn|].
    intros Hall. exfalso. apply (is_Some_None (A := Animator.t)).
    apply Hone. intros info anim. apply Hall. by left.
Qed.

(** X18. On a store whose clips have hierarchies with true child counts,
    a tick is defined exactly when the clips in play can be posed at the
    clocks the tick reaches: the main clip, when there is one, at its
    clock advanced and wrapped, and the clip of every layer that is active
    once its clock has advanced, at that clock.  A clip is posed at a time
    when every node of its hierarchy that finds a bone finds one whose
    three tracks can be interpolated there. *)
Theorem tick_defined_iff_clips_pose (this : Animator.t) (dt : float) :
  is_Some (Animator.UpdateAnimation deref this dt)
  ↔ (∀ anim,
       Animator.currentAnimation this = Some anim →
       Animator.poses (deref anim)
         (Float32.fmod
            (Float32.add (Animator.currentTime this)
               (Float32.mul (Animation.GetTicksPerSecond (deref anim)) dt))
            (Animation.GetDuration (deref anim))) = true)
    ∧ (∀ layer info anim,
         Animator.layers this !! layer = Some info →
         LayerInfo.animation (Animator.advance_layer deref dt info)
         = Some anim →
         LayerInfo.active (Animator.advance_layer deref dt info) = true →
         Animator.poses (deref anim)
           (LayerInfo.currentTime (Animator.advance_layer deref dt info))
         = true).
Proof.
  unfold Animator.UpdateAnimation.
  pose proof (primary_pass_defined_iff (Animator.advance_time deref this dt))
    as Hmain.
  assert (Animator.currentAnimation (Animator.advance_time deref this dt)
          = Animator.currentAnimation this) as Hcur.
  { unfold Animator.advance_time. cbn.
    by destruct (Animator.currentAnimation this) eqn:Ha. }
  assert (∀ anim, Animator.currentAnimation this = Some anim →
            Animator.currentTime (Animator.advance_time deref this dt)
            = Float32.fmod
                (Float32.add (Animator.currentTime this)
                   (Float32.mul (Animation.GetTicksPerSecond (deref anim)) dt))
                (Animation.GetDuration (deref anim))) as Htime.
  { intros anim Ha. unfold Animator.advance_time. cbn. by rewrite Ha. }
  assert ((∀ layer info anim,
             layer ∈ layer_order →
             Animator.layers (Animator.advance_time deref this dt) !! layer
             = Some info →
             LayerInfo.animation info = Some anim →
             LayerInfo.active info = true →
             Animator.poses (deref anim) (LayerInfo.currentTime info) = true)
          ↔ (∀ layer info anim,
               Animator.layers this !! layer = Some info →
               LayerInfo.animation (Animator.advance_layer deref dt info)
               = Some anim →
               LayerInfo.active (Animator.advance_layer deref dt info) = true →
               Animator.poses (deref anim)
                 (LayerInfo.currentTime (Animator.advance_layer deref dt info))
               = true)) as Hlayers.
  { split.
    - intros Hall layer info anim Hl. apply (Hall layer).
      + destruct layer; apply list_elem_of_In; cbn; tauto.
      + by rewrite advance_time_layers, lookup_fmap, Hl.
    - intros Hall layer info anim _ Hl.
      rewrite advance_time_layers, lookup_fmap in Hl.
      destruct (Animator.layers this !! layer) as [info0|] eqn:Hl0; [|done].
      injection Hl as <-. by apply (Hall layer). }
  rewrite <- Hlayers. clear Hlayers.
  destruct (Animator.primary_pass deref (Animator.advance_time deref this dt))
    as [this1|] eqn:Hpass; cbn [mbind option_bind].
  - apply primary_pass_frames, frames_fields in Hpass as (_ & Hl1 & _).
    rewrite apply_layers_defined_iff, Hl1.
    assert (∀ anim, Animator.currentAnimation this = Some anim →
              Animator.poses (deref anim)
                (Float32.fmod
                   (Float32.add (Animator.currentTime this)
                      (Float32.mul (Animation.GetTicksPerSecond (deref anim))
                                   dt))
                   (Animation.GetDuration (deref anim))) = true) as Hposes.
    { intros anim Ha. rewrite <- (Htime anim Ha). apply Hmain.
      - exact (mk_is_Some _ _ eq_refl).
      - by rewrite Hcur. }
    split; [intros Hall; split; [exact Hposes|exact Hall]|by intros [_ Hall]].
  - split; [intros Hn; by apply is_Some_None in Hn|].
    intros [Hposes _]. exfalso. apply (is_Some_None (A := Animator.t)).
    apply Hmain. intros anim Ha. rewrite Hcur in Ha.
    rewrite (Htime anim Ha). by apply Hposes.
Qed.
End TickDefined.

(** The sway clip has a counted hierarchy. *)
Lemma sway_store_counted (anim : addr) :
  Animation.counted (Animation.GetRootNode (Stage.sway_store anim)) = true.
Proof. vm_compute. reflexivity. Qed.

Lemma tick_defined_iff_clips_pose_witness :
  (∃ this1,
     Animator.UpdateAnimation Stage.sway_store Stage.swaying
       Stage.short_frame = Some this1
     ∧ Animator.currentTime this1 = Float32.of_Z 5)
  ∧ Animator.UpdateAnimation Stage.sway_store Stage.swaying
      Stage.long_frame = None
  ∧ Animator.poses (Stage.sway_store 0%N) (Float32.of_Z 5) = true
  ∧ Animator.poses (Stage.sway_store 0%N) (Float32.of_Z 20) = false.
Proof.
  split; [|split; [|split; vm_compute; reflexivity]].
  - destruct (proj2 (tick_defined_iff_clips_pose Stage.sway_store
                       sway_store_counted Stage.swaying Stage.short_frame))
      as [this1 Htick].
    { split.
      - intros anim Hcur. injection Hcur as <-. vm_compute. reflexivity.
      - intros layer info anim Hl.
        destruct layer; vm_compute in Hl; try discriminate Hl.
        injection Hl as <-. intros Hanim. vm_compute in Hanim.
        injection Hanim as <-. intros _. vm_compute. reflexivity. }
    exists this1. split; [exact Htick|].
    vm_compute in Htick. injection Htick as <-. vm_compute. reflexivity.
  - destruct (Animator.UpdateAnimation Stage.sway_store Stage.swaying
                Stage.long_frame) as [this1|] eqn:Htick; [|reflexivity].
    exfalso.
    destruct (proj1 (tick_defined_iff_clips_pose Stage.sway_store
                       sway_store_counted Stage.swaying Stage.long_frame))
      as [Hmain _].
    { rewrite Htick. exact (mk_is_Some _ _ eq_refl). }
    clear Htick. specialize (Hmain 0%N eq_refl).
    vm_compute in Hmain. discriminate Hmain.
Defined.

Lemma ticks_keep_the_shape_witness :
  ∃ this',
    Animator.ticks Stage.store Stage.nodding
      [Stage.short_frame; Stage.short_frame] = Some this'
    ∧ length (Animator.finalBoneMatrices this') = 3%nat
    ∧ Animator.currentAnimation this' = Some Stage.walk_clip.
Proof.
  destruct (Animator.ticks Stage.store Stage.nodding
              [Stage.short_frame; Stage.short_frame]) as [this'|] eqn:Hticks;
    [|vm_compute in Hticks; discriminate Hticks].
  destruct (ticks_keep_the_shape _ _ _ _ Hticks) as (Hlen & _ & Hcur & _).
  clear Hticks. exists this'. split; [reflexivity|].
  split; [rewrite Hlen|rewrite Hcur]; reflexivity.
Defined.

Lemma idle_layers_leave_the_main_walk_witness :
  ∃ this',
    Animator.UpdateAnimation Stage.store Stage.walking Stage.short_frame
    = Some this'
    ∧ Animator.primary_pass Stage.store
        (Animator.advance_time Stage.store Stage.walking Stage.short_frame)
      = Some this'.
Proof.
  destruct (Animator.UpdateAnimation Stage.store Stage.walking
              Stage.short_frame) as [this'|] eqn:Htick;
    [|vm_compute in Htick; discriminate Htick].
  destruct (idle_layers_leave_the_main_walk _ _ _ _ Htick) as (Hwalk & _).
  - intros layer info Hl. clear Htick. cbn in Hl.
    rewrite lookup_empty in Hl. discriminate Hl.
  - clear Htick. exists this'. split; [reflexivity|exact Hwalk].
Defined.

Lemma unresolved_entries_are_identity_witness :
  ∃ this',
    Animator.UpdateAnimation Stage.store Stage.nod_only Stage.short_frame
    = Some this'
    ∧ Animator.finalBoneMatrices this' !! 3%nat = Some mat4_identity.
Proof.
  destruct (Animator.UpdateAnimation Stage.store Stage.nod_only
              Stage.short_frame) as [this'|] eqn:Htick;
    [|vm_compute in Htick; discriminate Htick].
  assert (Animator.finalBoneMatrices this' !! 3%nat = Some mat4_identity)
    as Hid.
  { apply (unresolved_entries_are_identity Stage.store Stage.nod_only this'
             Stage.short_frame Stage.head_clip 3 Htick).
    - reflexivity.
    - clear Htick. cbn. lia.
    - clear Htick. intros name info Hin Hl. apply list_elem_of_In in Hin.
      vm_compute in Hin.
      destruct Hin as [<-|[<-|[<-|[<-|[]]]]]; vm_compute in Hl;
        first [discriminate Hl
              |injection Hl as <-; vm_compute; intros Hc; discriminate Hc].
    - clear Htick. intros layer info clip name bone Hl.
      rewrite advance_time_layers, lookup_fmap in Hl. cbn in Hl.
      rewrite lookup_empty in Hl. discriminate Hl. }
  clear Htick. exists this'. split; [reflexivity|exact Hid].
Defined.

(** ** The member functions of the animator *)

Section SubstringFacts.

Lemma prefix_app (s1 s2 : string) :
  String.prefix s1 s2 = true ↔ ∃ post, s2 = (s1 ++ post)%string.
Proof.
  revert s2. induction s1 as [|a s1 IH]; intros s2; cbn.
  - destruct s2; (split; [intros _; by eexists|done]).
  - destruct s2 as [|b s2]; cbn.
    + split; [done|]. by intros [post Hpost].
    + destruct (ascii_dec a b) as [->|Hne].
      * rewrite IH. split; intros [post Hpost]; exists post.
        -- by rewrite Hpost.
        -- by injection Hpost.
      * split; [done|]. intros [post Hpost]. by injection Hpost.
Qed.

(** [find] on strings: the filter occurs somewhere in the name. *)
Lemma index_occurs (filter boneName : string) :
  is_Some (String.index 0 filter boneName)
  ↔ ∃ pre post, boneName = (pre ++ filter ++ post)%string.
Proof.
  induction boneName as [|b rest IH].
  - cbn. destruct filter as [|a filter].
    + split; [intros _; by exists ""%string, ""%string|by eexists].
    + split; [by intros []|]. intros (pre & post & Heq).
      destruct pre; discriminate Heq.
  - cbn [String.index].
    destruct (String.prefix filter (String b rest)) eqn:Hp.
    + split; [intros _|by eexists].
      apply prefix_app in Hp as [post Hpost]. by exists ""%string, post.
    + assert (is_Some (match String.index 0 filter rest with
                       | Some n => Some (S n)
                       | None => None
                       end) ↔ is_Some (String.index 0 filter rest)) as ->.
      { destruct (String.index 0 filter rest); [split; by eexists|done]. }
      rewrite IH. split.
      * intros (pre & post & ->). by exists (String b pre), post.
      * intros (pre & post & Heq). destruct pre as [|c pre].
        -- exfalso. cbn in Heq.
           assert (String.prefix filter (String b rest) = true) as Hp'
             by (apply prefix_app; by exists post).
           congruence.
        -- injection Heq as _ ->. by exists pre, post.
Qed.
End SubstringFacts.

Section ApiFacts.
Context `{Glm}.
Variable deref : addr → Animation.t.

Lemma contains_occurs (boneName filter : string) :
  Animator.contains boneName filter = true
  ↔ ∃ pre post, boneName = (pre ++ filter ++ post)%string.
Proof.
  unfold Animator.contains. rewrite bool_decide_eq_true. apply index_occurs.
Qed.

Lemma existsb_contains (boneName : string) (filters : list string) :
  existsb (Animator.contains boneName) filters = true
  ↔ some_filter_occurs filters boneName.
Proof.
  unfold some_filter_occurs. rewrite existsb_exists. split.
  - intros (filter & Hin & (pre & post & Heq)%contains_occurs).
    exists filter, pre, post. split; [by apply list_elem_of_In|done].
  - intros (filter & pre & post & Hin & Heq). exists filter.
    split; [by apply list_elem_of_In|]. apply contains_occurs. by eexists _, _.
Qed.

(** X19. [GetBoneLayer] sorts a bone by the filters that occur anywhere
    in its name: the head layer when one of the head filters occurs, the
    tail layer when none of them does and [DEF-tail] occurs, and the
    locomotion layer otherwise.  The head filters come first: a name in
    which a head filter and [DEF-tail] both occur is a head bone. *)
Theorem GetBoneLayer_by_occurrence (boneName : string) :
  (Animator.GetBoneLayer boneName = HEAD
   ↔ some_filter_occurs Config.HEAD_BONE_FILTERS boneName)
  ∧ (Animator.GetBoneLayer boneName = TAIL
     ↔ ¬ some_filter_occurs Config.HEAD_BONE_FILTERS boneName
       ∧ some_filter_occurs Config.TAIL_BONE_FILTERS boneName)
  ∧ (Animator.GetBoneLayer boneName = LOCOMOTION
     ↔ ¬ some_filter_occurs Config.HEAD_BONE_FILTERS boneName
       ∧ ¬ some_filter_occurs Config.TAIL_BONE_FILTERS boneName).
Proof.
  rewrite <- !existsb_contains. unfold Animator.GetBoneLayer,
    Animator.IsHeadBone, Animator.IsTailBone.
  destruct (existsb (Animator.contains boneName) Config.HEAD_BONE_FILTERS);
    [|destruct (existsb (Animator.contains boneName) Config.TAIL_BONE_FILTERS)].
  - split; [done|]. split; split; try done; by intros [].
  - split; [done|]. split; split; try done. by intros [_ []].
  - split; [done|]. split; split; try done. by intros [_ ?].
Qed.

(** X20. Setting an override and clearing it again leaves the animator
    as if the override had been cleared at once, and as it was when the
    bone had none; a second override for the same bone replaces the
    first; the override of one bone is not seen under another
    identifier.  [SetBoneOverride] takes any identifier, also one that
    is no index of the output array. *)
Theorem bone_override_set_then_clear (this : Animator.t) (boneID : Z)
    (overrideTransform overrideTransform' : mat4) :
  Animator.ClearBoneOverride
    (Animator.SetBoneOverride this boneID overrideTransform) boneID
  = Animator.ClearBoneOverride this boneID
  ∧ (Animator.boneOverrides this !! boneID = None →
     Animator.ClearBoneOverride
       (Animator.SetBoneOverride this boneID overrideTransform) boneID
     = this)
  ∧ Animator.SetBoneOverride
      (Animator.SetBoneOverride this boneID overrideTransform) boneID
      overrideTransform'
    = Animator.SetBoneOverride this boneID overrideTransform'
  ∧ Animator.boneOverrides
      (Animator.SetBoneOverride this boneID overrideTransform) !! boneID
    = Some overrideTransform
  ∧ Animator.boneOverrides (Animator.ClearBoneOverride this boneID) !! boneID
    = None
  ∧ ∀ other, other ≠ boneID →
      Animator.boneOverrides
        (Animator.SetBoneOverride this boneID overrideTransform) !! other
      = Animator.boneOverrides this !! other
      ∧ Animator.boneOverrides (Animator.ClearBoneOverride this boneID)
        !! other
        = Animator.boneOverrides this !! other.
Proof.
  unfold Animator.ClearBoneOverride, Animator.SetBoneOverride,
    Animator.set_boneOverrides. cbn.
  split; [by rewrite delete_insert_eq|].
  split; [intros Hnone; rewrite delete_insert_eq, delete_id by done;
          by destruct this|].
  split; [by rewrite insert_insert_eq|].
  split; [apply lookup_insert_eq|]. split; [apply lookup_delete_eq|].
  intros other Hother.
  split; [by apply lookup_insert_ne|by apply lookup_delete_ne].
Qed.

Lemma vector_resize_spec {A : Type} (count : Z) (value : A) (v v' : list A) :
  vector_resize count value v = Some v' →
  0 ≤ count
  ∧ Z.of_nat (length v') = count
  ∧ (∀ i : nat, (i < length v)%nat → Z.of_nat i < count → v' !! i = v !! i)
  ∧ (∀ i : nat, (length v ≤ i)%nat → Z.of_nat i < count →
                v' !! i = Some value).
Proof.
  unfold vector_resize. destruct (Z.ltb_spec count 0); [done|].
  intros [= <-]. split; [done|]. split; [|split].
  - rewrite length_app, length_take, length_replicate. lia.
  - intros i Hi Hc. rewrite lookup_app_l by (rewrite length_take; lia).
    apply lookup_take_lt. lia.
  - intros i Hi Hc. rewrite lookup_app_r by (rewrite length_take; lia).
    apply lookup_replicate_2. rewrite length_take. lia.
Qed.

(** X21. Assigning a clip other than the current one sizes the output
    array for the bone count of the new clip: the entries both arrays
    have keep the matrices of the old pose, the entries that are new are
    the identity, and the layers and overrides stay.  With a negative
    bone count the resize throws after the pointer and the clock have
    been assigned, and the array is as it was. *)
Theorem PlayAnimation_resizes_for_the_new_clip (this : Animator.t)
    (a : addr) :
  Animator.currentAnimation this ≠ Some a →
  let count := Animation.GetBoneCount (deref a) in
  (0 ≤ count →
   ∃ this',
     Animator.PlayAnimation deref this (Some a) = Returns this'
     ∧ Animator.currentAnimation this' = Some a
     ∧ Animator.currentTime this' = Float32.zero
     ∧ Z.of_nat (length (Animator.finalBoneMatrices this')) = count
     ∧ (∀ i : nat, (i < length (Animator.finalBoneMatrices this))%nat →
                   Z.of_nat i < count →
                   Animator.finalBoneMatrices this' !! i
                   = Animator.finalBoneMatrices this !! i)
     ∧ (∀ i : nat, (length (Animator.finalBoneMatrices this) ≤ i)%nat →
                   Z.of_nat i < count →
                   Animator.finalBoneMatrices this' !! i = Some mat4_identity)
     ∧ Animator.layers this' = Animator.layers this
     ∧ Animator.boneOverrides this' = Animator.boneOverrides this)
  ∧ (count < 0 →
     ∃ this',
       Animator.PlayAnimation deref this (Some a) = Throws this'
       ∧ Animator.currentAnimation this' = Some a
       ∧ Animator.currentTime this' = Float32.zero
       ∧ Animator.finalBoneMatrices this'
         = Animator.finalBoneMatrices this).
Proof.
  intros Hother count. unfold Animator.PlayAnimation.
  rewrite bool_decide_eq_true_2 by done.
  cbn [Animator.finalBoneMatrices Animator.set_currentTime
       Animator.set_currentAnimation].
  fold count.
  destruct (vector_resize count mat4_identity (Animator.finalBoneMatrices this))
    as [v|] eqn:Hresize.
  - apply vector_resize_spec in Hresize as (Hcount & Hlen & Hold & Hnew).
    split; [|lia]. intros _. eexists. split; [reflexivity|]. cbn.
    by repeat split.
  - split.
    + intros Hcount. unfold vector_resize in Hresize.
      destruct (Z.ltb_spec count 0); [lia|done].
    + intros _. eexists. split; [reflexivity|]. cbn. by repeat split.
Qed.

(** The output array has as many entries as the current clip has bones. *)
Lemma sized_for_clip_perform (this this' : Animator.t)
    (c : Session.call) :
  (∀ a, Animator.currentAnimation this = Some a →
        Z.of_nat (length (Animator.finalBoneMatrices this))
        = Animation.GetBoneCount (deref a)) →
  Session.perform deref this c = Some this' →
  ∀ a, Animator.currentAnimation this' = Some a →
       Z.of_nat (length (Animator.finalBoneMatrices this'))
       = Animation.GetBoneCount (deref a).
Proof.
  intros Hsized. destruct c as [animation| | | | | |dt]; cbn [Session.perform];
    try (intros [= <-]; exact Hsized).
  - unfold Animator.PlayAnimation. case_bool_decide as Hother.
    + destruct animation as [a0|].
      * cbn [Animator.finalBoneMatrices Animator.set_currentTime
             Animator.set_currentAnimation].
        destruct (vector_resize _ _ _) as [v|] eqn:Hresize; [|done].
        intros [= <-] a [= <-]. cbn.
        by apply vector_resize_spec in Hresize as (_ & Hlen & _).
      * intros [= <-] a Hc. cbn in Hc. done.
    + intros [= <-]. exact Hsized.
  - intros Htick a Hcur.
    pose proof (UpdateAnimation_frames _ _ _ _ Htick) as Hframes.
    pose proof (frames_fields _ _ Hframes) as (_ & _ & Hc1 & _).
    destruct Hframes as [_ Hlen].
    destruct (advance_time_fields deref this dt) as (Hc0 & Hf0 & _).
    rewrite Hlen, Hf0. apply Hsized. congruence.
Qed.

Lemma Animator_sized (animation : option addr) (this : Animator.t) :
  Animator.Animator deref animation = Some this →
  ∀ a, Animator.currentAnimation this = Some a →
       Z.of_nat (length (Animator.finalBoneMatrices this))
       = Animation.GetBoneCount (deref a).
Proof.
  unfold Animator.Animator.
  destruct (vector_resize _ _ _) as [v|] eqn:Hresize; [|done].
  intros [= <-]. cbn. intros a0 ->.
  by apply vector_resize_spec in Hresize as (_ & Hlen & _).
Qed.

Lemma calls_keep_sized (calls : list Session.call) (this this' : Animator.t) :
  (∀ a, Animator.currentAnimation this = Some a →
        Z.of_nat (length (Animator.finalBoneMatrices this))
        = Animation.GetBoneCount (deref a)) →
  fold_defined (Session.perform deref) calls this = Some this' →
  ∀ a, Animator.currentAnimation this' = Some a →
       Z.of_nat (length (Animator.finalBoneMatrices this'))
       = Animation.GetBoneCount (deref a).
Proof.
  revert this. induction calls as [|c rest IH]; intros this Hsized;
    cbn [fold_defined].
  - by intros [= <-].
  - destruct (Session.perform deref this c) as [this1|] eqn:Hcall; [|done].
    cbn [mbind option_bind]. apply IH.
    by eapply sized_for_clip_perform.
Qed.

(** X22. From the constructor on and through every call that returns,
    the output array has exactly as many entries as the current clip has
    bones: the constructor and every change of clip size it, and no other
    call resizes it. *)
Theorem output_array_sized_for_current_clip (animation : option addr)
    (calls : list Session.call) (this : Animator.t) (a : addr) :
  Session.run deref animation calls = Some this →
  Animator.currentAnimation this = Some a →
  Z.of_nat (length (Animator.finalBoneMatrices this))
  = Animation.GetBoneCount (deref a).
Proof.
  unfold Session.run.
  destruct (Animator.Animator deref animation) as [this0|] eqn:Hctor; [|done].
  cbn [mbind option_bind]. intros Hcalls.
  eapply calls_keep_sized; [|exact Hcalls]. by eapply Animator_sized.
Qed.

(** X26. A clip that the constructor populated on a model with a dense
    table has every identifier of its table inside the output array
    whenever it is the current clip of an animator that was constructed
    and driven through calls that returned: the range check of the walk
    drops none of its bones. *)
Theorem loaded_clip_bones_index_the_output_array
    (ReadFile : string → option aiScene) (animationPath : string)
    (model model' : AnimatedModel.t) (animationIndex : Z) (a : addr)
    (animation : option addr) (calls : list Session.call)
    (this : Animator.t) :
  dense_ids model →
  Animation.Animation ReadFile animationPath model animationIndex
  = Some (Animation.Populated (deref a), model') →
  Session.run deref animation calls = Some this →
  Animator.currentAnimation this = Some a →
  ∀ name info,
    Animation.GetBoneIDMap (deref a) !! name = Some info →
    Animator.in_range (AnimatedModel.id info)
                      (Animator.finalBoneMatrices this) = true.
Proof.
  intros Hdense Hload Hrun Hcur name info Hinfo.
  apply Animation_continues in Hload as (_ & Hdense' & Hsnap).
  destruct (Hsnap _ eq_refl) as [Hmap Hcount].
  destruct (Hdense' Hdense) as (_ & Hrange & _).
  unfold Animation.GetBoneIDMap in Hinfo. rewrite Hmap in Hinfo.
  apply Hrange in Hinfo. apply in_range_spec.
  unfold Session.run in Hrun.
  destruct (Animator.Animator deref animation) as [this0|] eqn:Hctor; [|done].
  cbn [mbind option_bind] in Hrun.
  rewrite (calls_keep_sized calls this0 this (Animator_sized _ _ Hctor) Hrun
             a Hcur).
  unfold Animation.GetBoneCount. rewrite Hcount. exact Hinfo.
Qed.
End ApiFacts.

(** ** The animated objects of the scene *)

Section SceneFacts.
Context `{Glm}.
Variable deref : addr → Animation.t.

Lemma PlayAnimation_returns_pointer (this this' : Animator.t)
    (animation : option addr) :
  Animator.PlayAnimation deref this animation = Returns this' →
  Animator.currentAnimation this' = animation.
Proof.
  intros Hplay.
  pose proof (PlayAnimation_sets_pointer deref this animation) as Hset.
  by rewrite Hplay in Hset.
Qed.


Lemma UpdateAnimation_pointer (this this' : Animator.t) (dt : float) :
  Animator.UpdateAnimation deref this dt = Some this' →
  Animator.currentAnimation this' = Animator.currentAnimation this.
Proof.
  intros Htick.
  pose proof (frames_fields _ _ (UpdateAnimation_frames _ _ _ _ Htick))
    as (_ & _ & Hc & _).
  destruct (advance_time_fields deref this dt) as (Hc0 & _). congruence.
Qed.

Lemma Update_object_plays (deltaTime : float)
    (obj obj' : Scene.AnimatedObject) :
  Scene.Update_object deref deltaTime obj = Some (Returns obj') →
  Scene.idleAnimation obj' = Scene.idleAnimation obj
  ∧ Scene.walkAnimation obj' = Scene.walkAnimation obj
  ∧ Scene.runAnimation obj' = Scene.runAnimation obj
  ∧ match Scene.animator obj with
    | None => Scene.animator obj' = None
    | Some this =>
        ∃ this', Scene.animator obj' = Some this'
                 ∧ Animator.GetCurrentAnimation this'
                   = match Animator.GetCurrentAnimation this with
                     | Some a => Some a
                     | None => Scene.idleAnimation obj
                     end
    end.
Proof.
  unfold Scene.Update_object.
  destruct (Scene.animator obj) as [this|] eqn:Hanimator.
  2:{ intros [= <-]. by rewrite Hanimator. }
  destruct (Animator.UpdateAnimation deref this deltaTime) as [this1|]
    eqn:Htick; [|done].
  cbn [mbind option_bind]. apply UpdateAnimation_pointer in Htick.
  unfold Animator.GetCurrentAnimation. rewrite <- Htick.
  destruct (Animator.currentAnimation this1) as [a|] eqn:Hcur.
  - intros [= <-]. do 3 (split; [done|]). by exists this1.
  - destruct (Scene.idleAnimation obj) as [idle|] eqn:Hidle.
    + destruct (Animator.PlayAnimation deref this1 (Some idle))
        as [this2|this2] eqn:Hplay; [|done].
      intros [= <-]. do 3 (split; [done|]). exists this2. split; [done|].
      by apply PlayAnimation_returns_pointer in Hplay.
    + intros [= <-]. do 3 (split; [done|]). by exists this1.
Qed.

(** X24. When the loop over the animated objects at the end of
    [Scene::Update] returns, every object has the clips and the animator
    pointer state it had, an animator that played a clip plays that clip
    still, and an animator that played none plays the idle clip of its
    object: an object with an animator and an idle clip is never left
    without a clip. *)
Theorem Update_falls_back_to_idle (deltaTime : float)
    (animatedObjects animatedObjects' : list Scene.AnimatedObject) :
  Scene.Update_objects deref deltaTime animatedObjects
  = Some (Returns animatedObjects') →
  Forall2
    (λ obj obj',
       Scene.idleAnimation obj' = Scene.idleAnimation obj
       ∧ Scene.walkAnimation obj' = Scene.walkAnimation obj
       ∧ Scene.runAnimation obj' = Scene.runAnimation obj
       ∧ match Scene.animator obj with
         | None => Scene.animator obj' = None
         | Some this =>
             ∃ this', Scene.animator obj' = Some this'
                      ∧ Animator.GetCurrentAnimation this'
                        = match Animator.GetCurrentAnimation this with
                          | Some a => Some a
                          | None => Scene.idleAnimation obj
                          end
         end)
    animatedObjects animatedObjects'.
Proof.
  revert animatedObjects'.
  induction animatedObjects as [|obj rest IH]; intros animatedObjects';
    cbn [Scene.Update_objects].
  - intros [= <-]. constructor.
  - destruct (Scene.Update_object deref deltaTime obj) as [[obj1|obj1]|]
      eqn:Hobj; cbn [mbind option_bind]; [|done|done].
    destruct (Scene.Update_objects deref deltaTime rest) as [[rest1|rest1]|]
      eqn:Hrest; cbn [mbind option_bind]; [|done|done].
    intros [= <-]. constructor; [by eapply Update_object_plays|by apply IH].
Qed.
End SceneFacts.

(** ** What an active layer writes *)

Section LayerWrites.
Context `{Glm}.
Variable deref : addr → Animation.t.

(** An entry that already holds the layer's matrix holds it after the
    loop over the bone table. *)
Lemma apply_layer_bones_kept (layer : AnimationLayer)
    (layerMatrices : list mat4)
    (entries : list (string * AnimatedModel.BoneInfo))
    (final final' : list mat4) (i : nat) :
  fold_defined (Animator.apply_layer_bone layer layerMatrices) entries final
  = Some final' →
  (i < length final)%nat →
  final !! i = layerMatrices !! i →
  final' !! i = layerMatrices !! i.
Proof.
  revert final. induction entries as [|[name info] rest IH]; intros final.
  - by intros [= <-].
  - cbn [fold_defined]. intros Hfold Hi Hset.
    destruct (Animator.apply_layer_bone layer layerMatrices final (name, info))
      as [final1|] eqn:H1; [|done].
    cbn [mbind option_bind] in Hfold.
    pose proof (apply_layer_bone_length _ _ _ _ _ H1) as Hlen.
    apply (IH final1 Hfold); [lia|].
    unfold Animator.apply_layer_bone in H1.
    destruct (bool_decide (Animator.GetBoneLayer name = layer)
              && Animator.in_range (AnimatedModel.id info) final) eqn:Hcond;
      [|by injection H1 as <-].
    destruct (at_index layerMatrices (AnimatedModel.id info)) as [m|] eqn:Hm;
      [|done].
    injection H1 as <-.
    destruct (decide (Z.to_nat (AnimatedModel.id info) = i)) as [<-|Hne].
    + rewrite list_lookup_insert_eq by done. revert Hm. unfold at_index.
      by destruct (AnimatedModel.id info <? 0).
    + by rewrite list_lookup_insert_ne.
Qed.

(** The loop over the bone table gives the layer's matrix to every entry
    that a bone of the layer indexes. *)
Lemma apply_layer_bones_written (layer : AnimationLayer)
    (layerMatrices : list mat4)
    (entries : list (string * AnimatedModel.BoneInfo))
    (final final' : list mat4) (name : string)
    (info : AnimatedModel.BoneInfo) (i : nat) :
  fold_defined (Animator.apply_layer_bone layer layerMatrices) entries final
  = Some final' →
  (name, info) ∈ entries →
  Animator.GetBoneLayer name = layer →
  AnimatedModel.id info = Z.of_nat i →
  (i < length final)%nat →
  final' !! i = layerMatrices !! i.
Proof.
  revert final. induction entries as [|entry rest IH]; intros final.
  - intros _ Hin. by apply elem_of_nil in Hin.
  - cbn [fold_defined]. intros Hfold Hin Hlayer Hid Hi.
    destruct (Animator.apply_layer_bone layer layerMatrices final entry)
      as [final1|] eqn:H1; [|done].
    cbn [mbind option_bind] in Hfold.
    pose proof (apply_layer_bone_length _ _ _ _ _ H1) as Hlen.
    apply elem_of_cons in Hin as [<-|Hin].
    + apply (apply_layer_bones_kept _ _ _ _ _ _ Hfold); [lia|].
      unfold Animator.apply_layer_bone in H1.
      rewrite bool_decide_eq_true_2 in H1 by done.
      assert (Animator.in_range (AnimatedModel.id info) final = true) as Hin.
      { apply in_range_spec. lia. }
      rewrite Hin in H1. cbn [andb] in H1. rewrite Hid, at_index_nat in H1.
      destruct (layerMatrices !! i) as [m|]; [|done].
      injection H1 as <-. rewrite Nat2Z.id.
      by apply list_lookup_insert_eq.
    + apply (IH final1 Hfold Hin Hlayer Hid). lia.
Qed.

Lemma apply_layers_untouched_among (order : list AnimationLayer)
    (this this' : Animator.t) (i : nat) :
  fold_defined (Animator.apply_layer deref) order this = Some this' →
  (∀ layer info anim name bone,
     layer ∈ order →
     Animator.layers this !! layer = Some info →
     LayerInfo.active info = true →
     LayerInfo.animation info = Some anim →
     Animation.GetBoneIDMap (deref anim) !! name = Some bone →
     AnimatedModel.id bone = Z.of_nat i →
     Animator.GetBoneLayer name ≠ layer) →
  Animator.finalBoneMatrices this' !! i = Animator.finalBoneMatrices this !! i.
Proof.
  revert this. induction order as [|layer rest IH]; intros this.
  - by intros [= <-].
  - cbn [fold_defined]. intros Hfold Hother.
    destruct (Animator.apply_layer deref this layer) as [this1|] eqn:H1;
      [|done].
    cbn [mbind option_bind] in Hfold.
    pose proof (apply_layer_frames deref _ _ _ H1) as Hframes.
    apply frames_fields in Hframes as (_ & Hlayers & _).
    rewrite (IH this1 Hfold).
    + eapply apply_layer_untouched; [exact H1|].
      intros info anim name bone. apply Hother. by left.
    + intros layer' info anim name bone Hin Hl. rewrite Hlayers in Hl.
      eapply Hother; [by right|done].
Qed.

Lemma layer_order_split (layer : AnimationLayer) :
  ∃ before after, layer_order = before ++ layer :: after ∧ layer ∉ after.
Proof.
  destruct layer.
  - exists [], [HEAD; TAIL]. split; [done|].
    intros Hin. repeat (apply elem_of_cons in Hin as [Hin|Hin]; [done|]).
    by apply elem_of_nil in Hin.
  - exists [LOCOMOTION], [TAIL]. split; [done|].
    intros Hin. repeat (apply elem_of_cons in Hin as [Hin|Hin]; [done|]).
    by apply elem_of_nil in Hin.
  - exists [LOCOMOTION; HEAD], []. split; [done|].
    intros Hin. by apply elem_of_nil in Hin.
Qed.

(** X25. In a tick, an active layer poses its own bones: for a bone of
    the layer clip's table whose name classifies into the layer and whose
    identifier indexes the output array, the entry after the tick is the
    one of the layer's own walk, whatever the walk of the main clip had
    left there, as long as no other active layer claims the identifier. *)
Theorem active_layer_poses_its_bones (this this' : Animator.t) (dt : float)
    (layer : AnimationLayer) (info : LayerInfo.t) (clip : addr)
    (name : string) (bone : AnimatedModel.BoneInfo) (i : nat) :
  Animator.UpdateAnimation deref this dt = Some this' →
  Animator.layers (Animator.advance_time deref this dt) !! layer = Some info →
  LayerInfo.active info = true →
  LayerInfo.animation info = Some clip →
  Animation.GetBoneIDMap (deref clip) !! name = Some bone →
  Animator.GetBoneLayer name = layer →
  AnimatedModel.id bone = Z.of_nat i →
  (i < length (Animator.finalBoneMatrices this))%nat →
  (∀ layer' info' clip' name' bone',
     layer' ≠ layer →
     Animator.layers (Animator.advance_time deref this dt) !! layer'
     = Some info' →
     LayerInfo.active info' = true →
     LayerInfo.animation info' = Some clip' →
     Animation.GetBoneIDMap (deref clip') !! name' = Some bone' →
     AnimatedModel.id bone' = Z.of_nat i →
     Animator.GetBoneLayer name' ≠ layer') →
  ∃ layerMatrices,
    Animator.CalculateLayerBoneTransform deref
      (Animator.advance_time deref this dt)
      (Animation.GetRootNode (deref clip)) mat4_identity layer
      (replicate (length (Animator.finalBoneMatrices this)) mat4_identity)
    = Some layerMatrices
    ∧ Animator.finalBoneMatrices this' !! i = layerMatrices !! i.
Proof.
  intros Htick Hinfo Hactive Hclip Hbone Hlayer Hid Hi Hothers.
  unfold Animator.UpdateAnimation in Htick.
  destruct (Animator.primary_pass deref (Animator.advance_time deref this dt))
    as [this1|] eqn:Hwalk; [|done].
  cbn [mbind option_bind] in Htick.
  pose proof (primary_pass_frames _ _ _ Hwalk) as Hf1.
  destruct (layer_order_split layer) as (before & after & Horder & Hnotin).
  rewrite Horder, fold_defined_app in Htick.
  destruct (fold_defined (Animator.apply_layer deref) before this1)
    as [this2|] eqn:Hbefore; [|done].
  cbn [mbind option_bind fold_defined] in Htick.
  destruct (Animator.apply_layer deref this2 layer) as [this3|] eqn:Hpass;
    [|done].
  cbn [mbind option_bind] in Htick.
  pose proof (frames_trans _ _ _ Hf1 (apply_layers_frames _ _ _ _ Hbefore))
    as Hf2.
  pose proof (frames_fields _ _ Hf2) as (_ & Hl2 & _).
  destruct Hf2 as [_ Hlen2].
  destruct (advance_time_fields deref this dt) as (_ & Hf0 & _).
  pose proof (frames_fields _ _ (apply_layer_frames _ _ _ _ Hpass))
    as (_ & Hl3 & _).
  rewrite (apply_layers_untouched_among after this3 this' i Htick).
  2:{ intros layer' info' clip' name' bone' Hin. rewrite Hl3, Hl2.
      apply Hothers. intros ->. done. }
  unfold Animator.apply_layer in Hpass. rewrite Hl2, Hinfo, Hclip, Hactive in Hpass.
  rewrite Hlen2, Hf0 in Hpass.
  rewrite (CalculateLayerBoneTransform_layers deref this2
             (Animator.advance_time deref this dt) _ Hl2) in Hpass.
  destruct (Animator.CalculateLayerBoneTransform deref
              (Animator.advance_time deref this dt) _ _ _ _)
    as [layerMatrices|]; [|done].
  cbn [mbind option_bind] in Hpass.
  destruct (fold_defined (Animator.apply_layer_bone layer layerMatrices) _ _)
    as [final|] eqn:Hfold; [|done].
  injection Hpass as <-. exists layerMatrices. split; [done|].
  cbn [Animator.finalBoneMatrices Animator.set_finalBoneMatrices].
  eapply apply_layer_bones_written; [exact Hfold| |exact Hlayer|exact Hid|].
  - by apply elem_of_map_to_list.
  - by rewrite Hlen2, Hf0.
Qed.
End LayerWrites.

Lemma active_layer_poses_its_bones_witness :
  ∃ this' layerMatrices,
    Animator.UpdateAnimation Stage.store Stage.nodding Stage.short_frame
    = Some this'
    ∧ Animator.CalculateLayerBoneTransform Stage.store
        (Animator.advance_time Stage.store Stage.nodding Stage.short_frame)
        (Animation.GetRootNode (Stage.store Stage.head_clip)) mat4_identity
        HEAD (replicate 3 mat4_identity)
      = Some layerMatrices
    ∧ Animator.finalBoneMatrices this' !! 1%nat = layerMatrices !! 1%nat.
Proof.
  destruct (Animator.UpdateAnimation Stage.store Stage.nodding
              Stage.short_frame) as [this'|] eqn:Htick;
    [|vm_compute in Htick; discriminate Htick].
  destruct (active_layer_poses_its_bones Stage.store Stage.nodding this'
              Stage.short_frame HEAD
              {| LayerInfo.animation := Some Stage.head_clip;
                 LayerInfo.currentTime := Float32.of_Z 5;
                 LayerInfo.active := true;
                 LayerInfo.looping := false |}
              Stage.head_clip "DEF-head"
              {| AnimatedModel.id := 1;
                 AnimatedModel.offset := mat4_identity |} 1 Htick)
    as (layerMatrices & Hwalk & Hentry).
  - clear Htick. vm_compute. reflexivity.
  - reflexivity.
  - reflexivity.
  - clear Htick. vm_compute. reflexivity.
  - clear Htick. vm_compute. reflexivity.
  - reflexivity.
  - clear Htick. vm_compute. lia.
  - clear Htick. intros layer' info' clip' name' bone' Hne Hl.
    destruct layer'; [vm_compute in Hl; discriminate Hl|by destruct Hne
                     |vm_compute in Hl; discriminate Hl].
  - clear Htick. exists this', layerMatrices.
    split; [reflexivity|]. split; [exact Hwalk|exact Hentry].
Defined.

(** ** What the main walk writes *)

Section WalkWrites.
Context `{Glm}.
Variable deref : addr → Animation.t.

(** X27. The walk of the main clip leaves, in the entry that the node
    it starts from resolves to, the product of the parent transform, the
    node's local transform (with its override, if one is registered) and
    the bone's offset, provided no node below resolves to the same
    entry: a later write to the same entry would replace it. *)
Theorem walk_writes_global_times_offset (this this' : Animator.t)
    (transformation : mat4) (nodeName : string) (childrenCount : Z)
    (children : list Animation.AssimpNodeData) (parentTransform : mat4)
    (anim : addr) (nodeTransform : mat4) (info : AnimatedModel.BoneInfo)
    (i : nat) :
  Animator.CalculateBoneTransform deref this
    (Animation.Node transformation nodeName childrenCount children)
    parentTransform = Some this' →
  Animator.currentAnimation this = Some anim →
  Animator.animated_local (deref anim) (Animator.currentTime this)
                          transformation nodeName = Some nodeTransform →
  Animation.GetBoneIDMap (deref anim) !! nodeName = Some info →
  AnimatedModel.id info = Z.of_nat i →
  (i < length (Animator.finalBoneMatrices this))%nat →
  (∀ name info', name ∈ flat_map Animator.node_names children →
                 Animation.GetBoneIDMap (deref anim) !! name = Some info' →
                 AnimatedModel.id info' ≠ Z.of_nat i) →
  Animator.finalBoneMatrices this' !! i
  = Some (parentTransform
          × Animator.overridden this (deref anim) nodeName nodeTransform
          × AnimatedModel.offset info).
Proof.
  intros Hwalk Hcur Hlocal Hinfo Hid Hi Hbelow.
  rewrite CalculateBoneTransform_node, Hcur in Hwalk.
  cbn [mbind option_bind] in Hwalk. rewrite Hlocal in Hwalk.
  cbn [mbind option_bind] in Hwalk. cbv zeta in Hwalk.
  etrans.
  - eapply (CalculateBoneTransform_children_untouched deref anim i children);
      [| | |exact Hwalk].
    + apply Forall_forall. intros node _ this0 parent0 this0'.
      apply CalculateBoneTransform_untouched.
    + pose proof (frames_fields _ _
                    (write_final_frames this (deref anim) nodeName
                       (parentTransform
                        × Animator.overridden this (deref anim) nodeName
                            nodeTransform))) as (_ & _ & Hc & _).
      congruence.
    + exact Hbelow.
  - unfold Animator.write_final. rewrite Hinfo.
    assert (Animator.in_range (AnimatedModel.id info)
                              (Animator.finalBoneMatrices this) = true) as ->.
    { apply in_range_spec. lia. }
    cbn [Animator.finalBoneMatrices Animator.set_finalBoneMatrices].
    rewrite Hid, Nat2Z.id. by apply list_lookup_insert_eq.
Qed.

(** X28. A layer that is not active, or has no clip, is left as it is by
    any number of ticks: a one-shot that has ended does not start again
    by itself. *)
Theorem idle_layer_stays_idle (this this' : Animator.t) (dts : list float)
    (layer : AnimationLayer) (info : LayerInfo.t) :
  Animator.ticks deref this dts = Some this' →
  Animator.layers this !! layer = Some info →
  LayerInfo.active info = false ∨ LayerInfo.animation info = None →
  Animator.layers this' !! layer = Some info.
Proof.
  intros Hticks Hinfo Hidle.
  rewrite (ticks_layers deref dts this this' Hticks), lookup_fmap, Hinfo.
  cbn. f_equal. clear Hticks. induction dts as [|dt rest IH]; [done|].
  cbn [foldl]. by rewrite advance_layer_idle.
Qed.
End WalkWrites.

Lemma walk_writes_global_times_offset_witness :
  ∃ this',
    Animator.CalculateBoneTransform Stage.store Stage.walking
      (Animation.Node Stage.bind "DEF-head" 0 []) Stage.push
    = Some this'
    ∧ Animator.finalBoneMatrices this' !! 1%nat
      = Some (Stage.push × Stage.one_key_local × mat4_identity).
Proof.
  destruct (Animator.CalculateBoneTransform Stage.store Stage.walking
              (Animation.Node Stage.bind "DEF-head" 0 []) Stage.push)
    as [this'|] eqn:Hwalk; [|vm_compute in Hwalk; discriminate Hwalk].
  exists this'. split; [reflexivity|].
  apply (walk_writes_global_times_offset Stage.store Stage.walking this'
           Stage.bind "DEF-head" 0 [] Stage.push Stage.walk_clip
           Stage.one_key_local
           {| AnimatedModel.id := 1; AnimatedModel.offset := mat4_identity |}
           1 Hwalk).
  - reflexivity.
  - clear Hwalk. vm_compute. reflexivity.
  - clear Hwalk. vm_compute. reflexivity.
  - reflexivity.
  - clear Hwalk. vm_compute. lia.
  - clear Hwalk. intros name info' Hin. by apply elem_of_nil in Hin.
Defined.

Lemma idle_layer_stays_idle_witness :
  ∃ this',
    Animator.ticks Stage.store (Animator.StopLayer Stage.nodding HEAD)
      [Stage.short_frame; Stage.long_frame] = Some this'
    ∧ Animator.layers this' !! HEAD
      = Some {| LayerInfo.animation := None;
                LayerInfo.currentTime := Float32.zero;
                LayerInfo.active := false;
                LayerInfo.looping := false |}.
Proof.
  destruct (Animator.ticks Stage.store (Animator.StopLayer Stage.nodding HEAD)
              [Stage.short_frame; Stage.long_frame])
    as [this'|] eqn:Hticks; [|vm_compute in Hticks; discriminate Hticks].
  exists this'. split; [reflexivity|].
  apply (idle_layer_stays_idle Stage.store _ this' _ HEAD _ Hticks).
  - clear Hticks. vm_compute. reflexivity.
  - left. reflexivity.
Defined.

(** ** The animator and the scene on the stage *)

Lemma PlayAnimation_resizes_for_the_new_clip_witness :
  ∃ this',
    Animator.PlayAnimation Stage.store Stage.walking (Some Stage.head_clip)
    = Returns this'
    ∧ length (Animator.finalBoneMatrices this') = 4%nat
    ∧ Animator.finalBoneMatrices this' !! 3%nat = Some mat4_identity.
Proof.
  destruct (PlayAnimation_resizes_for_the_new_clip Stage.store Stage.walking
              Stage.head_clip) as [Hroom _].
  - vm_compute. intros Hc. discriminate Hc.
  - destruct Hroom as (this' & Hplay & _ & _ & Hlen & _ & Hnew & _).
    + vm_compute. intros Hc. discriminate Hc.
    + exists this'. split; [exact Hplay|]. split.
      * apply Nat2Z.inj. rewrite Hlen. vm_compute. reflexivity.
      * apply Hnew; [vm_compute; lia|vm_compute; reflexivity].
Defined.

Lemma output_array_sized_for_current_clip_witness :
  ∃ this,
    Session.run Stage.store (Some Stage.walk_clip) Stage.session = Some this
    ∧ Animator.currentAnimation this = Some Stage.head_clip
    ∧ length (Animator.finalBoneMatrices this) = 4%nat.
Proof.
  destruct (Session.run Stage.store (Some Stage.walk_clip) Stage.session)
    as [this|] eqn:Hrun; [|vm_compute in Hrun; discriminate Hrun].
  assert (Animator.currentAnimation this = Some Stage.head_clip) as Hcur.
  { vm_compute in Hrun. injection Hrun as <-. reflexivity. }
  pose proof (output_array_sized_for_current_clip Stage.store
                (Some Stage.walk_clip) Stage.session this Stage.head_clip
                Hrun Hcur) as Hlen.
  clear Hrun. exists this. split; [reflexivity|]. split; [exact Hcur|].
  apply Nat2Z.inj. rewrite Hlen. vm_compute. reflexivity.
Defined.


Lemma Update_falls_back_to_idle_witness :
  ∃ obj' this',
    Scene.Update_objects Stage.store Stage.short_frame
      [Stage.cow Stage.resting]
    = Some (Returns [obj'])
    ∧ Scene.animator obj' = Some this'
    ∧ Animator.GetCurrentAnimation this' = Some Stage.head_clip.
Proof.
  destruct (Scene.Update_objects Stage.store Stage.short_frame
              [Stage.cow Stage.resting])
    as [[animatedObjects'|animatedObjects']|] eqn:Hupdate;
    [|vm_compute in Hupdate; discriminate Hupdate
     |vm_compute in Hupdate; discriminate Hupdate].
  pose proof (Update_falls_back_to_idle _ _ _ _ Hupdate) as Hall.
  clear Hupdate.
  apply Forall2_cons_inv_l in Hall as (obj' & rest & Hobj & Hrest & ->).
  apply Forall2_nil_inv_l in Hrest as ->.
  destruct Hobj as (_ & _ & _ & this' & Hanimator & Hcur).
  exists obj', this'. split; [reflexivity|]. split; [exact Hanimator|].
  exact Hcur.
Defined.

Lemma loaded_clip_bones_index_the_output_array_witness :
  ∃ this,
    Session.run Stage.store (Some Stage.walk_clip)
      [Session.UpdateAnimation Stage.short_frame] = Some this
    ∧ ∀ name info,
        Animation.GetBoneIDMap (Stage.store Stage.walk_clip) !! name
        = Some info →
        Animator.in_range (AnimatedModel.id info)
                          (Animator.finalBoneMatrices this) = true.
Proof.
  destruct (Session.run Stage.store (Some Stage.walk_clip)
              [Session.UpdateAnimation Stage.short_frame])
    as [this|] eqn:Hrun; [|vm_compute in Hrun; discriminate Hrun].
  assert (Animator.currentAnimation this = Some Stage.walk_clip) as Hcur.
  { vm_compute in Hrun. injection Hrun as <-. reflexivity. }
  assert (∃ model',
            Animation.Animation Sample.disk Sample.cow_path
              AnimatedModel.AnimatedModel 0
            = Some (Animation.Populated (Stage.store Stage.walk_clip), model'))
    as [model' Hload].
  { eexists. vm_compute. reflexivity. }
  exists this. split; [reflexivity|].
  exact (loaded_clip_bones_index_the_output_array Stage.store Sample.disk
           Sample.cow_path AnimatedModel.AnimatedModel model' 0
           Stage.walk_clip (Some Stage.walk_clip)
           [Session.UpdateAnimation Stage.short_frame] this
           fresh_model_dense Hload Hrun Hcur).
Defined.
